(** * Mock-Signal-Server: the server-side group state machine

    A shallow embedding of [ServerGroup] (constructor, [modify],
    [verifyAccess], [unrollMember]) and of its base class [Group]
    (the [changes], [publicParams] and [state] accessors, [getMember]),
    followed by the properties of the change log, of the access rules and
    of the membership transitions.

    The class instance is a mutable object; its methods throw.  Both are
    kept: a method is a computation over the heap that holds the instance,
    and it completes normally or by a throw, the heap being whatever it
    was at that point.  The members and the pending members are objects
    that the code compares by reference, so each carries its address.

    Versions and timestamps are the integers of the schema, kept in [Z];
    the reading of the clock is an argument of [modify]; the library of
    zero-knowledge groups, which the code only calls, is an interface. *)

From Stdlib Require Import List ZArith String Bool Arith Lia.
From Stdlib Require Import Strings.Byte.
Import ListNotations.

Local Open Scope Z_scope.
Local Open Scope list_scope.

(** ** Byte buffers *)

Definition bytes := list byte.

(** [Buffer.equals]: same length and the same byte at every index. *)
Fixpoint Buffer_equals (a b : bytes) : bool :=
  match a, b with
  | [], [] => true
  | x :: a', y :: b' => Byte.eqb x y && Buffer_equals a' b'
  | _, _ => false
  end.

(** [o ?? d], the nullish coalescing of the source. *)
Definition nullish {A : Type} (o : option A) (d : A) : A :=
  match o with Some a => a | None => d end.

Notation "o ?? d" := (nullish o d) (at level 45, left associativity).

(** An object that the code compares by reference ([entry !== member]):
    its address in the heap and its contents.  The objects of this program
    are never updated after their creation. *)
Record obj (A : Type) : Type := Obj { addr : nat; val : A }.

Arguments Obj {A} addr val.
Arguments addr {A} o.
Arguments val {A} o.

(** [a === b] on objects. *)
Definition same_object {A : Type} (a b : obj A) : bool :=
  Nat.eqb (addr a) (addr b).

(** ** The protocol-buffer messages *)

(** Modelled from the spec: the enumeration [AccessControl.AccessRequired]
    of the compiled protocol-buffer schema, which is not among the sources;
    the five levels are the five cases of the switch in [verifyAccess]. *)
Module AccessRequired.
Inductive t : Set := UNKNOWN | ANY | MEMBER | ADMINISTRATOR | UNSATISFIABLE.
End AccessRequired.

(** Modelled from the spec: the enumeration [Member.Role] of the compiled
    schema.  [UNKNOWN] is the zero value of the enumeration, the one that
    [assert.ok(role)] refuses. *)
Module Role.
Inductive t : Set := UNKNOWN | DEFAULT | ADMINISTRATOR.

Definition eqb (a b : t) : bool :=
  match a, b with
  | UNKNOWN, UNKNOWN | DEFAULT, DEFAULT | ADMINISTRATOR, ADMINISTRATOR => true
  | _, _ => false
  end.

(** Truthiness of the number behind the role. *)
Definition truthy (r : t) : bool :=
  match r with UNKNOWN => false | _ => true end.
End Role.

(** Modelled from the spec: the message interfaces [Proto.IMember],
    [Proto.IMemberPendingProfileKey], [Proto.IAccessControl],
    [Proto.IGroup], [Proto.GroupChange.IActions] with its sub-actions,
    [Proto.IGroupChange] and [Proto.IGroupChanges] of the compiled schema,
    reduced to the fields the two classes read or write.  Every field of
    such an interface may be absent: [None] stands for [undefined] and for
    [null]. *)
Module IMember.
Record t : Type := Build {
  role : option Role.t;
  userId : option bytes;
  profileKey : option bytes;
  presentation : option bytes
}.
End IMember.

Module IMemberPendingProfileKey.
Record t : Type := Build {
  member : option IMember.t;
  addedByUserId : option bytes;
  timestamp : option Z
}.
End IMemberPendingProfileKey.

Module IAccessControl.
Record t : Type := Build {
  attributes : option AccessRequired.t;
  members : option AccessRequired.t;
  addFromInviteLink : option AccessRequired.t
}.
End IAccessControl.

Module IGroup.
Record t : Type := Build {
  publicKey : option bytes;
  title : option bytes;
  version : option Z;
  accessControl : option IAccessControl.t;
  members : option (list (obj IMember.t));
  membersPendingProfileKey : option (list (obj IMemberPendingProfileKey.t))
}.

Definition with_version (v : option Z) (g : t) : t :=
  Build (publicKey g) (title g) v (accessControl g) (members g)
        (membersPendingProfileKey g).

Definition with_title (x : option bytes) (g : t) : t :=
  Build (publicKey g) x (version g) (accessControl g) (members g)
        (membersPendingProfileKey g).

Definition with_members (l : option (list (obj IMember.t))) (g : t) : t :=
  Build (publicKey g) (title g) (version g) (accessControl g) l
        (membersPendingProfileKey g).

Definition with_membersPendingProfileKey
    (l : option (list (obj IMemberPendingProfileKey.t))) (g : t) : t :=
  Build (publicKey g) (title g) (version g) (accessControl g) (members g) l.
End IGroup.

Module ModifyTitleAction.
Record t : Type := Build { title : option bytes }.
End ModifyTitleAction.

Module DeleteMemberAction.
Record t : Type := Build { deletedUserId : option bytes }.
End DeleteMemberAction.

Module AddMemberPendingProfileKeyAction.
Record t : Type := Build { added : option IMemberPendingProfileKey.t }.
End AddMemberPendingProfileKeyAction.

Module DeleteMemberPendingProfileKeyAction.
Record t : Type := Build { deletedUserId : option bytes }.
End DeleteMemberPendingProfileKeyAction.

Module PromoteMemberPendingProfileKeyAction.
Record t : Type := Build {
  presentation : option bytes;
  userId : option bytes;
  profileKey : option bytes
}.
End PromoteMemberPendingProfileKeyAction.

Module PromoteMemberPendingPniAciProfileKeyAction.
Record t : Type := Build {
  presentation : option bytes;
  userId : option bytes;
  pni : option bytes;
  profileKey : option bytes
}.
End PromoteMemberPendingPniAciProfileKeyAction.

Module IActions.
Record t : Type := Build {
  version : option Z;
  sourceUuid : option bytes;
  modifyTitle : option ModifyTitleAction.t;
  deleteMembers : option (list DeleteMemberAction.t);
  addPendingMembers : option (list AddMemberPendingProfileKeyAction.t);
  deletePendingMembers : option (list DeleteMemberPendingProfileKeyAction.t);
  promotePendingMembers : option (list PromoteMemberPendingProfileKeyAction.t);
  promoteMembersPendingPniAciProfileKey :
    option (list PromoteMemberPendingPniAciProfileKeyAction.t)
}.

Definition with_sourceUuid (x : option bytes) (a : t) : t :=
  Build (version a) x (modifyTitle a) (deleteMembers a) (addPendingMembers a)
        (deletePendingMembers a) (promotePendingMembers a)
        (promoteMembersPendingPniAciProfileKey a).

Definition with_modifyTitle (x : option ModifyTitleAction.t) (a : t) : t :=
  Build (version a) (sourceUuid a) x (deleteMembers a) (addPendingMembers a)
        (deletePendingMembers a) (promotePendingMembers a)
        (promoteMembersPendingPniAciProfileKey a).

Definition with_deleteMembers (x : option (list DeleteMemberAction.t))
    (a : t) : t :=
  Build (version a) (sourceUuid a) (modifyTitle a) x (addPendingMembers a)
        (deletePendingMembers a) (promotePendingMembers a)
        (promoteMembersPendingPniAciProfileKey a).

Definition with_addPendingMembers
    (x : option (list AddMemberPendingProfileKeyAction.t)) (a : t) : t :=
  Build (version a) (sourceUuid a) (modifyTitle a) (deleteMembers a) x
        (deletePendingMembers a) (promotePendingMembers a)
        (promoteMembersPendingPniAciProfileKey a).

Definition with_deletePendingMembers
    (x : option (list DeleteMemberPendingProfileKeyAction.t)) (a : t) : t :=
  Build (version a) (sourceUuid a) (modifyTitle a) (deleteMembers a)
        (addPendingMembers a) x (promotePendingMembers a)
        (promoteMembersPendingPniAciProfileKey a).

Definition with_promotePendingMembers
    (x : option (list PromoteMemberPendingProfileKeyAction.t)) (a : t) : t :=
  Build (version a) (sourceUuid a) (modifyTitle a) (deleteMembers a)
        (addPendingMembers a) (deletePendingMembers a) x
        (promoteMembersPendingPniAciProfileKey a).

Definition with_promoteMembersPendingPniAciProfileKey
    (x : option (list PromoteMemberPendingPniAciProfileKeyAction.t))
    (a : t) : t :=
  Build (version a) (sourceUuid a) (modifyTitle a) (deleteMembers a)
        (addPendingMembers a) (deletePendingMembers a)
        (promotePendingMembers a) x.
End IActions.

Module IGroupChange.
Record t : Type := Build {
  actions : option bytes;
  serverSignature : option bytes;
  changeEpoch : option Z
}.
End IGroupChange.

Module IGroupChangeState.
Record t : Type := Build {
  groupChange : option IGroupChange.t;
  groupState : option IGroup.t
}.
End IGroupChangeState.

Module IGroupChanges.
Record t : Type := Build {
  groupChanges : option (list IGroupChangeState.t)
}.
End IGroupChanges.

(** ** The instance, the heap and the computations *)

(** The two protected fields of [Group]; both are unset until the
    constructor of [ServerGroup] assigns them. *)
Record ServerGroup : Type := {
  privChanges : option IGroupChanges.t;
  privPublicParams : option bytes
}.

(** The heap: the instance under construction or in use, and the first
    address that no object has yet. *)
Record Heap : Type := { next_addr : nat; this : ServerGroup }.

Inductive exn : Type :=
| AssertionError (message : string)
| Error (message : string)
| TypeError (message : string)
| ZkGroupError (message : string).

Inductive completion (A : Type) : Type :=
| Normal (a : A)
| Throw (e : exn).

Arguments Normal {A} a.
Arguments Throw {A} e.

Definition M (A : Type) : Type := Heap -> completion A * Heap.

Definition ret {A : Type} (a : A) : M A := fun h => (Normal a, h).

Definition throw {A : Type} (e : exn) : M A := fun h => (Throw e, h).

Definition bind {A B : Type} (m : M A) (f : A -> M B) : M B :=
  fun h =>
    match m h with
    | (Normal a, h') => f a h'
    | (Throw e, h') => (Throw e, h')
    end.

Notation "x <- m ;; k" := (bind m (fun x => k))
  (at level 61, m at next level, right associativity).
Notation "m ;;; k" := (bind m (fun _ => k))
  (at level 61, right associativity).

(** [assert.ok(value, message)], [value] already reduced to its truthiness. *)
Definition assert_ok (value : bool) (message : string) : M unit :=
  if value then ret tt else throw (AssertionError message).

(** A [for ... of] loop whose body updates the local variables [s]. *)
Fixpoint for_of {A S : Type} (body : S -> A -> M S) (l : list A) (s : S)
    : M S :=
  match l with
  | [] => ret s
  | x :: l' => s' <- body s x ;; for_of body l' s'
  end.

(** [Array.prototype.map] with a callback that may throw. *)
Fixpoint array_map {A B : Type} (f : A -> M B) (l : list A) : M (list B) :=
  match l with
  | [] => ret []
  | x :: l' => y <- f x ;; ys <- array_map f l' ;; ret (y :: ys)
  end.

(** An object literal: a new object at a new address. *)
Definition new_object {A : Type} (v : A) : M (obj A) :=
  fun h => (Normal (Obj (next_addr h) v),
            {| next_addr := S (next_addr h); this := this h |}).

(** Assignments to the two fields of [this]. *)
Definition set_privPublicParams (p : bytes) : M unit :=
  fun h => (Normal tt,
            {| next_addr := next_addr h;
               this := {| privChanges := privChanges (this h);
                          privPublicParams := Some p |} |}).

Definition set_privChanges (c : IGroupChanges.t) : M unit :=
  fun h => (Normal tt,
            {| next_addr := next_addr h;
               this := {| privChanges := Some c;
                          privPublicParams := privPublicParams (this h) |} |}).

(** ** The base class [Group] (src/data/group.ts) *)

Definition changes : M IGroupChanges.t :=
  fun h =>
    match privChanges (this h) with
    | Some c => (Normal c, h)
    | None => (Throw (AssertionError "Group not initialized"), h)
    end.

Definition publicParams : M bytes :=
  fun h =>
    match privPublicParams (this h) with
    | Some p => (Normal p, h)
    | None => (Throw (AssertionError "Group not initialized"), h)
    end.

(** [groupChanges[groupChanges.length - 1]]: [undefined] on an empty array,
    and reading [.groupState] of it is a type error. *)
Definition state : M IGroup.t :=
  c <- changes ;;
  match IGroupChanges.groupChanges c with
  | None => throw (AssertionError "Missing group changes in the group state")
  | Some groupChanges =>
      match nth_error groupChanges (List.length groupChanges - 1) with
      | None => throw (TypeError "Cannot read properties of undefined")
      | Some entry =>
          match IGroupChangeState.groupState entry with
          | None => throw (AssertionError "Group must have the last state")
          | Some s => ret s
          end
      end
  end.

(** [Array.prototype.slice(start)] for an integer [start]: a negative
    [start] counts from the end, and the index is clamped to the array. *)
Definition slice {A : Type} (start : Z) (l : list A) : list A :=
  let len := Z.of_nat (List.length l) in
  let k := if start <? 0 then Z.max (len + start) 0 else Z.min start len in
  skipn (Z.to_nat k) l.

Definition getChangesSince (since : Z) : M IGroupChanges.t :=
  c <- changes ;;
  ret (IGroupChanges.Build
         (option_map (slice since) (IGroupChanges.groupChanges c))).

Definition getMember (uuidCiphertext : bytes)
    : M (option (obj IMember.t)) :=
  s <- state ;;
  let userId := uuidCiphertext in
  ret (match IGroup.members s with
       | None => None
       | Some ms =>
           find (fun member =>
                   match IMember.userId (val member) with
                   | None => false
                   | Some u => Buffer_equals userId u
                   end) ms
       end).

(** Modelled from the spec: [getPendingMember], which [modify] calls and
    which the [Group] class under src/ does not declare.  The spec gives
    it with [getMember]: a linear scan of the current snapshot comparing
    the identity bytes for equality, absence when nothing matches.  The
    identity of a pending entry is the [userId] of its [member]. *)
Definition getPendingMember (uuidCiphertext : bytes)
    : M (option (obj IMemberPendingProfileKey.t)) :=
  s <- state ;;
  let userId := uuidCiphertext in
  ret (match IGroup.membersPendingProfileKey s with
       | None => None
       | Some ps =>
           find (fun entry =>
                   match IMemberPendingProfileKey.member (val entry) with
                   | None => false
                   | Some member =>
                       match IMember.userId member with
                       | None => false
                       | Some u => Buffer_equals userId u
                       end
                   end) ps
       end).

(** ** The zero-knowledge group library (libsignal)

    [ServerGroup] calls the library for every cryptographic step.  Its
    classes wrap a byte array that their constructor checks; the checks,
    the verification of a presentation, the two extractions from a
    presentation, the signature of the server and the binary encoding of
    an action record are the operations of this interface. *)
Class ZkGroup : Type := {
  GroupPublicParams_check : bytes -> bool;
  UuidCiphertext_check : bytes -> bool;
  ProfileKeyCredentialPresentation_check : bytes -> bool;
  verifyProfileKeyCredentialPresentation_check : bytes -> bytes -> bool;
  getUuidCiphertext : bytes -> bytes;
  getProfileKeyCiphertext : bytes -> bytes;
  sign : bytes -> bytes;
  Actions_encode : IActions.t -> bytes
}.

(** [ModifyGroupResult] of the source. *)
Record ModifyGroupResult : Type := {
  conflict : bool;
  signedChange : option IGroupChange.t
}.

(** The local variables that [modify] updates while it walks the
    sub-actions. *)
Record Working : Type := {
  newState : IGroup.t;
  appliedActions : IActions.t;
  changeEpoch : Z
}.

Definition is_some {A : Type} (o : option A) : bool :=
  match o with Some _ => true | None => false end.

(** [o?.f] *)
Definition optional_chain {A B : Type} (o : option A) (f : A -> option B)
    : option B :=
  match o with Some a => f a | None => None end.

(** [assert.ok(value, message)] on a value that is an object (a byte array,
    a message) when it is present, hence truthy exactly then; the value is
    handed on. *)
Definition assert_present {A : Type} (value : option A) (message : string)
    : M A :=
  match value with
  | Some a => ret a
  | None => throw (AssertionError message)
  end.

(** Truthiness of an optional number. *)
Definition truthy_number (n : option Z) : bool :=
  match n with Some v => negb (v =? 0) | None => false end.

(** [this.privChanges.groupChanges.push(entry)] behind its assertion. *)
Definition push_groupChange (entry : IGroupChangeState.t) : M unit :=
  fun h =>
    match optional_chain (privChanges (this h)) IGroupChanges.groupChanges with
    | None => (Throw (AssertionError "Must be initialized"), h)
    | Some l =>
        (Normal tt,
         {| next_addr := next_addr h;
            this := {| privChanges :=
                         Some (IGroupChanges.Build (Some (l ++ [entry])));
                       privPublicParams := privPublicParams (this h) |} |})
    end.

Section ServerGroup.

Context {zk : ZkGroup}.

Definition new_GroupPublicParams (contents : bytes) : M bytes :=
  if GroupPublicParams_check contents then ret contents
  else throw (ZkGroupError "GroupPublicParams").

Definition new_UuidCiphertext (contents : bytes) : M bytes :=
  if UuidCiphertext_check contents then ret contents
  else throw (ZkGroupError "UuidCiphertext").

Definition new_ProfileKeyCredentialPresentation (contents : bytes) : M bytes :=
  if ProfileKeyCredentialPresentation_check contents then ret contents
  else throw (ZkGroupError "ProfileKeyCredentialPresentation").

Definition verifyProfileKeyCredentialPresentation
    (groupPublicParams presentation : bytes) : M unit :=
  if verifyProfileKeyCredentialPresentation_check groupPublicParams presentation
  then ret tt
  else throw (ZkGroupError "verifyProfileKeyCredentialPresentation").

(** *** [verifyAccess] *)

Definition verifyAccess (attribute : string) (member : option (obj IMember.t))
    (access : AccessRequired.t) (affectedUserId : option bytes) : M unit :=
  if match optional_chain member (fun m => IMember.userId (val m)),
           affectedUserId with
     | Some userId, Some affected => Buffer_equals userId affected
     | _, _ => false
     end
  then ret tt
  else
    match access with
    | AccessRequired.ANY => ret tt
    | AccessRequired.MEMBER =>
        assert_ok (is_some member)
                  (String.append "Must be a member to access: " attribute)
    | AccessRequired.ADMINISTRATOR =>
        assert_ok
          match optional_chain member (fun m => IMember.role (val m)) with
          | Some r => Role.eqb r Role.ADMINISTRATOR
          | None => false
          end
          (String.append "Must be an administrator to modify: " attribute)
    | AccessRequired.UNSATISFIABLE =>
        throw (Error (String.append "Unsatisfiable access attribute: "
                                    attribute))
    | AccessRequired.UNKNOWN =>
        throw (Error (String.append "Unknown access for attribute: "
                                    attribute))
    end.

(** *** [unrollMember] *)

Definition unrollMember (m : IMember.t) : M (obj IMember.t) :=
  assert_ok (is_some (IMember.role m)) "Group member role is undefined" ;;;
  presentation <- assert_present (IMember.presentation m)
                    "Group member presentation is undefined" ;;
  presentationFFI <- new_ProfileKeyCredentialPresentation presentation ;;
  params <- publicParams ;;
  verifyProfileKeyCredentialPresentation params presentationFFI ;;;
  new_object
    (IMember.Build (IMember.role m)
                   (Some (getUuidCiphertext presentationFFI))
                   (Some (getProfileKeyCiphertext presentationFFI))
                   None).

(** *** The constructor *)

Definition constructor (state : IGroup.t) : M unit :=
  publicKey <- assert_present (IGroup.publicKey state)
                 "Group public key must be present" ;;
  assert_ok match IGroup.version state with
            | Some v => v =? 0
            | None => false
            end
            "Initial group version must be zero" ;;;
  accessControl <- assert_present (IGroup.accessControl state)
                     "Group access control must be present" ;;
  assert_ok (is_some (IAccessControl.attributes accessControl) &&
             is_some (IAccessControl.members accessControl) &&
             is_some (IAccessControl.addFromInviteLink accessControl))
            "Group access control must be configured" ;;;
  assert_ok match IGroup.members state with
            | Some (_ :: _) => true
            | _ => false
            end
            "Group members must be present" ;;;
  params <- new_GroupPublicParams publicKey ;;
  set_privPublicParams params ;;;
  members <- array_map (fun member => unrollMember (val member))
               (IGroup.members state ?? []) ;;
  let unrolledState := IGroup.with_members (Some members) state in
  set_privChanges
    (IGroupChanges.Build
       (Some [ IGroupChangeState.Build None (Some unrolledState) ])).

(** The first address above the objects that come with the initial state. *)
Definition addr_bound (state : IGroup.t) : nat :=
  S (list_max (map addr (IGroup.members state ?? []) ++
               map addr (IGroup.membersPendingProfileKey state ?? []))).

(** [new ServerGroup({ profileOps, zkSecret, state })]: the heap that holds
    the new instance, or the exception of the constructor, in which case
    nothing refers to the instance. *)
Definition new_ServerGroup (state : IGroup.t) : completion Heap :=
  match constructor state
          {| next_addr := addr_bound state;
             this := {| privChanges := None; privPublicParams := None |} |}
  with
  | (Normal _, h) => Normal h
  | (Throw e, _) => Throw e
  end.

(** *** [modify]

    The body of [modify] is given in the order of the source: the title
    change, the five loops over the sub-actions, and the version check with
    the commit.  The body of each loop is a definition of its own; it
    takes the local variables that the loop reads ([sourceACI],
    [sourcePNI], [authMember], [accessControl], [timestamp]) and updates
    the [Working] ones. *)

(** [if (actions.modifyTitle) { ... }] *)
Definition modify_modifyTitle (authMember : option (obj IMember.t))
    (accessControl : option IAccessControl.t) (actions : IActions.t)
    (w : Working) : M Working :=
  match IActions.modifyTitle actions with
  | None => ret w
  | Some modifyTitle =>
      verifyAccess "title" authMember
        (optional_chain accessControl IAccessControl.attributes
           ?? AccessRequired.UNKNOWN)
        None ;;;
      ret {| newState :=
               IGroup.with_title (ModifyTitleAction.title modifyTitle)
                                 (newState w);
             appliedActions :=
               IActions.with_modifyTitle (Some modifyTitle) (appliedActions w);
             changeEpoch := changeEpoch w |}
  end.

(** [for (const { deletedUserId } of deleteMembers) { ... }] *)
Definition modify_deleteMember (authMember : option (obj IMember.t))
    (accessControl : option IAccessControl.t)
    (w : Working) (action : DeleteMemberAction.t) : M Working :=
  deletedUserId <- assert_present (DeleteMemberAction.deletedUserId action)
                     "Missing deletedUserId" ;;
  verifyAccess "members" authMember
    (optional_chain accessControl IAccessControl.members
       ?? AccessRequired.UNKNOWN)
    (Some deletedUserId) ;;;
  uuidCiphertext <- new_UuidCiphertext deletedUserId ;;
  found <- getMember uuidCiphertext ;;
  member <- assert_present found "Pending member not found for deletion" ;;
  ret {| newState :=
           IGroup.with_members
             (Some (filter (fun entry => negb (same_object entry member))
                           (IGroup.members (newState w) ?? [])))
             (newState w);
         appliedActions :=
           IActions.with_deleteMembers
             (Some ((IActions.deleteMembers (appliedActions w) ?? []) ++
                    [ DeleteMemberAction.Build (Some deletedUserId) ]))
             (appliedActions w);
         changeEpoch := changeEpoch w |}.

(** [for (const { added } of addPendingMembers) { ... }] *)
Definition modify_addPendingMember (sourceACI : bytes)
    (authMember : option (obj IMember.t))
    (accessControl : option IAccessControl.t) (timestamp : Z)
    (w : Working) (action : AddMemberPendingProfileKeyAction.t) : M Working :=
  added <- assert_present (AddMemberPendingProfileKeyAction.added action)
             "Missing addPendingMember.added" ;;
  member <- assert_present (IMemberPendingProfileKey.member added)
              "Missing addPendingMembers.added.member" ;;
  userId <- assert_present (IMember.userId member)
              "Missing addPendingMembers.added.member.userId" ;;
  assert_ok match IMember.role member with
            | Some r => Role.truthy r
            | None => false
            end
            "Missing addPendingMembers.added.member.role" ;;;
  let role := IMember.role member in
  verifyAccess "pendingMembers" authMember
    (optional_chain accessControl IAccessControl.members
       ?? AccessRequired.UNKNOWN)
    None ;;;
  newPendingMember <-
    new_object
      (IMemberPendingProfileKey.Build
         (Some (IMember.Build role (Some userId) None None))
         (Some sourceACI) (Some timestamp)) ;;
  ret {| newState :=
           IGroup.with_membersPendingProfileKey
             (Some ((IGroup.membersPendingProfileKey (newState w) ?? []) ++
                    [ newPendingMember ]))
             (newState w);
         appliedActions :=
           IActions.with_addPendingMembers
             (Some ((IActions.addPendingMembers (appliedActions w) ?? []) ++
                    [ AddMemberPendingProfileKeyAction.Build
                        (Some (val newPendingMember)) ]))
             (appliedActions w);
         changeEpoch := changeEpoch w |}.

(** [for (const { deletedUserId } of deletePendingMembers) { ... }] *)
Definition modify_deletePendingMember (sourceACI sourcePNI : bytes)
    (w : Working) (action : DeleteMemberPendingProfileKeyAction.t)
    : M Working :=
  deletedUserId <-
    assert_present (DeleteMemberPendingProfileKeyAction.deletedUserId action)
      "Missing deletedUserId" ;;
  assert_ok (Buffer_equals deletedUserId sourceACI ||
             Buffer_equals deletedUserId sourcePNI)
            "Not a pending member" ;;;
  uuidCiphertext <- new_UuidCiphertext deletedUserId ;;
  found <- getPendingMember uuidCiphertext ;;
  pendingMember <- assert_present found
                     "Pending member not found for deletion" ;;
  ret {| newState :=
           IGroup.with_membersPendingProfileKey
             (Some (filter
                      (fun entry => negb (same_object entry pendingMember))
                      (IGroup.membersPendingProfileKey (newState w) ?? [])))
             (newState w);
         appliedActions :=
           IActions.with_deletePendingMembers
             (Some ((IActions.deletePendingMembers (appliedActions w) ?? []) ++
                    [ DeleteMemberPendingProfileKeyAction.Build
                        (Some deletedUserId) ]))
             (appliedActions w);
         changeEpoch := changeEpoch w |}.

(** [for (const { presentation } of promotePendingMembers) { ... }] *)
Definition modify_promotePendingMember (sourceACI : bytes)
    (w : Working) (action : PromoteMemberPendingProfileKeyAction.t)
    : M Working :=
  presentation <-
    assert_present (PromoteMemberPendingProfileKeyAction.presentation action)
      "Missing presentation in promotePendingMembers" ;;
  presentationFFI <- new_ProfileKeyCredentialPresentation presentation ;;
  params <- publicParams ;;
  verifyProfileKeyCredentialPresentation params presentationFFI ;;;
  assert_ok (Buffer_equals (getUuidCiphertext presentationFFI) sourceACI)
            "Not a pending member" ;;;
  foundPending <- getPendingMember (getUuidCiphertext presentationFFI) ;;
  pendingMember <- assert_present foundPending "No pending member" ;;
  foundMember <- getMember (getUuidCiphertext presentationFFI) ;;
  assert_ok (negb (is_some foundMember))
            "Member is both pending and active" ;;;
  let pending :=
    filter (fun entry => negb (same_object entry pendingMember))
           (IGroup.membersPendingProfileKey (newState w) ?? []) in
  let userId := getUuidCiphertext presentationFFI in
  let profileKey := getProfileKeyCiphertext presentationFFI in
  newMember <-
    new_object
      (IMember.Build (Some Role.DEFAULT) (Some userId) (Some profileKey)
                     None) ;;
  ret {| newState :=
           IGroup.with_members
             (Some ((IGroup.members (newState w) ?? []) ++ [ newMember ]))
             (IGroup.with_membersPendingProfileKey (Some pending)
                                                   (newState w));
         appliedActions :=
           IActions.with_promotePendingMembers
             (Some ((IActions.promotePendingMembers (appliedActions w)
                       ?? []) ++
                    [ PromoteMemberPendingProfileKeyAction.Build
                        None (Some userId) (Some profileKey) ]))
             (appliedActions w);
         changeEpoch := changeEpoch w |}.

(** [for (const { presentation } of promotePNIMembers ?? []) { ... }] *)
Definition modify_promotePNIMember (sourceACI sourcePNI : bytes)
    (w : Working) (action : PromoteMemberPendingPniAciProfileKeyAction.t)
    : M Working :=
  presentation <-
    assert_present
      (PromoteMemberPendingPniAciProfileKeyAction.presentation action)
      "Missing presentation in promoteMembersPendingPniAciProfileKey" ;;
  presentationFFI <- new_ProfileKeyCredentialPresentation presentation ;;
  params <- publicParams ;;
  verifyProfileKeyCredentialPresentation params presentationFFI ;;;
  let aci := getUuidCiphertext presentationFFI in
  let pni := sourcePNI in
  let profileKey := getProfileKeyCiphertext presentationFFI in
  assert_ok (Buffer_equals aci sourceACI) "Not a pending member" ;;;
  foundPending <- getPendingMember pni ;;
  pendingMember <- assert_present foundPending "No pending pni member" ;;
  foundMember <- getMember aci ;;
  assert_ok (negb (is_some foundMember)) "ACI is already a member" ;;;
  let pending :=
    filter (fun entry => negb (same_object entry pendingMember))
           (IGroup.membersPendingProfileKey (newState w) ?? []) in
  newMember <-
    new_object
      (IMember.Build (Some Role.DEFAULT) (Some aci) (Some profileKey) None) ;;
  ret {| newState :=
           IGroup.with_members
             (Some ((IGroup.members (newState w) ?? []) ++ [ newMember ]))
             (IGroup.with_membersPendingProfileKey (Some pending)
                                                   (newState w));
         appliedActions :=
           IActions.with_promoteMembersPendingPniAciProfileKey
             (Some ((IActions.promoteMembersPendingPniAciProfileKey
                       (appliedActions w) ?? []) ++
                    [ PromoteMemberPendingPniAciProfileKeyAction.Build
                        None (Some aci) (Some pni) (Some profileKey) ]))
             (IActions.with_sourceUuid (Some sourcePNI) (appliedActions w));
         changeEpoch := Z.max (changeEpoch w) 5 |}.

(** The part of [modify] that precedes the version check: the working copy
    [newState] of the committed state and the record [appliedActions],
    after all the sub-actions. *)
Definition modify_prepare (sourceACI sourcePNI : bytes) (actions : IActions.t)
    (now : Z) : M Working :=
  let appliedActions :=
    IActions.Build (IActions.version actions) (Some sourceACI)
                   None None None None None None in
  assert_ok (truthy_number (IActions.version actions))
            "Actions should have a new version" ;;;
  let timestamp := now in
  committed <- state ;;
  let newState := IGroup.with_version (IActions.version actions) committed in
  authMember <- getMember sourceACI ;;
  let accessControl := IGroup.accessControl newState in
  let changeEpoch := 1 in
  w <- modify_modifyTitle authMember accessControl actions
         {| newState := newState;
            appliedActions := appliedActions;
            changeEpoch := changeEpoch |} ;;
  w <- for_of (modify_deleteMember authMember accessControl)
         (IActions.deleteMembers actions ?? []) w ;;
  w <- for_of (modify_addPendingMember sourceACI authMember accessControl
                                       timestamp)
         (IActions.addPendingMembers actions ?? []) w ;;
  w <- for_of (modify_deletePendingMember sourceACI sourcePNI)
         (IActions.deletePendingMembers actions ?? []) w ;;
  w <- for_of (modify_promotePendingMember sourceACI)
         (IActions.promotePendingMembers actions ?? []) w ;;
  for_of (modify_promotePNIMember sourceACI sourcePNI)
    (IActions.promoteMembersPendingPniAciProfileKey actions ?? []) w.

(** The rest of [modify]: the version check, the signature and the push. *)
Definition modify_commit (actions : IActions.t) (w : Working)
    : M ModifyGroupResult :=
  committed <- state ;;
  oldVersion <- assert_present (IGroup.version committed)
                  "Group must have existing version" ;;
  if negb match IActions.version actions with
          | Some v => v =? oldVersion + 1
          | None => false
          end
  then ret {| conflict := true; signedChange := None |}
  else
    let encodedActions := Actions_encode (appliedActions w) in
    let serverSignature := sign encodedActions in
    push_groupChange
      (IGroupChangeState.Build
         (Some (IGroupChange.Build (Some encodedActions) None
                                   (Some (changeEpoch w))))
         (Some (newState w))) ;;;
    ret {| conflict := false;
           signedChange :=
             Some (IGroupChange.Build (Some encodedActions)
                                      (Some serverSignature)
                                      (Some (changeEpoch w))) |}.

(** [modify(sourceACI, sourcePNI, actions)]; [now] is the reading of the
    clock, [Date.now()]. *)
Definition modify (sourceACI sourcePNI : bytes) (actions : IActions.t)
    (now : Z) : M ModifyGroupResult :=
  w <- modify_prepare sourceACI sourcePNI actions now ;;
  modify_commit actions w.

End ServerGroup.

(** ** A sample library

    A small instance of the interface, for running the machine on concrete
    groups.  A presentation is three bytes: a tag, the identity and the
    profile key; it verifies when the tag is [x01]. *)
Module Sample.

Definition presentation_check (p : bytes) : bool :=
  match p with [_; _; _] => true | _ => false end.

Definition presentation_verify (params p : bytes) : bool :=
  match p with tag :: _ => Byte.eqb tag x01 | [] => false end.

Definition uuid_of (p : bytes) : bytes :=
  match p with _ :: u :: _ => [u] | _ => [] end.

Definition profileKey_of (p : bytes) : bytes :=
  match p with _ :: _ :: k :: _ => [k] | _ => [] end.

Definition nonempty (b : bytes) : bool :=
  match b with [] => false | _ :: _ => true end.

Definition encode (a : IActions.t) : bytes :=
  (IActions.sourceUuid a ?? []) ++
  match IActions.version a with
  | Some v => [ x76 ] ++ repeat x2b (Z.to_nat v)
  | None => []
  end.

#[export] Instance zk : ZkGroup := {|
  GroupPublicParams_check := nonempty;
  UuidCiphertext_check := nonempty;
  ProfileKeyCredentialPresentation_check := presentation_check;
  verifyProfileKeyCredentialPresentation_check := presentation_verify;
  getUuidCiphertext := uuid_of;
  getProfileKeyCiphertext := profileKey_of;
  sign := @rev byte;
  Actions_encode := encode
|}.

(** Alice ([x0a]) is the administrator who creates the group; Bob is
    [x0b]. *)
Definition alice : bytes := [ x0a ].
Definition bob : bytes := [ x0b ].
Definition alice_presentation : bytes := [ x01; x0a; xa0 ].
Definition bob_presentation : bytes := [ x01; x0b; xb0 ].

Definition access (level : AccessRequired.t) : IAccessControl.t :=
  IAccessControl.Build (Some level) (Some level) (Some level).

(** The initial state that a client sends: version 0, one member who
    comes with a presentation, no pending member. *)
Definition initial (level : AccessRequired.t) : IGroup.t :=
  IGroup.Build (Some [ x50 ]) (Some [ x54 ]) (Some 0)
    (Some (access level))
    (Some [ Obj 0%nat
              (IMember.Build (Some Role.ADMINISTRATOR) None None
                             (Some alice_presentation)) ])
    None.

Definition no_actions (version : Z) : IActions.t :=
  IActions.Build (Some version) None None None None None None None.

(** The heap after [new ServerGroup] on [initial level]. *)
Definition group (level : AccessRequired.t) : Heap :=
  match new_ServerGroup (initial level) with
  | Normal h => h
  | Throw _ =>
      {| next_addr := 0;
         this := {| privChanges := None; privPublicParams := None |} |}
  end.

Definition pending_of (userId : bytes)
    : AddMemberPendingProfileKeyAction.t :=
  AddMemberPendingProfileKeyAction.Build
    (Some (IMemberPendingProfileKey.Build
             (Some (IMember.Build (Some Role.DEFAULT) (Some userId)
                                  None None))
             None None)).

(** The committed snapshot of a heap that holds a constructed group. *)
Definition committed (h : Heap) : IGroup.t :=
  match state h with
  | (Normal s, _) => s
  | (Throw _, _) => initial AccessRequired.UNKNOWN
  end.

Definition delete_member (userId : bytes) (version : Z) : IActions.t :=
  IActions.with_deleteMembers
    (Some [ DeleteMemberAction.Build (Some userId) ]) (no_actions version).

Definition invite (userId : bytes) (version : Z) : IActions.t :=
  IActions.with_addPendingMembers (Some [ pending_of userId ])
                                  (no_actions version).

Definition promote (presentation : bytes)
    : PromoteMemberPendingProfileKeyAction.t :=
  PromoteMemberPendingProfileKeyAction.Build (Some presentation) None None.

Definition join (presentation : bytes) (version : Z) : IActions.t :=
  IActions.with_promotePendingMembers (Some [ promote presentation ])
                                      (no_actions version).

(** The group whose three levels are ADMINISTRATOR, and the one whose
    three levels are UNSATISFIABLE. *)
Definition admin_group : Heap := group AccessRequired.ADMINISTRATOR.
Definition locked_group : Heap := group AccessRequired.UNSATISFIABLE.

(** Alice, the only member, invites Bob. *)
Definition group_with_bob_pending : Heap :=
  snd (modify alice alice (invite bob 1) 1000 admin_group).

(** Alice, the only member, adds her own identity to the pending
    members. *)
Definition group_with_alice_pending : Heap :=
  snd (modify alice alice (invite alice 1) 1000 admin_group).



End Sample.

(** * Properties *)

(** ** Reading the instance *)

(** The committed snapshot as a function of the instance: what the [state]
    accessor returns. *)
Definition snapshot (T : ServerGroup) : completion IGroup.t :=
  fst (state {| next_addr := 0; this := T |}).

(** The change log of the instance, empty while it is unset. *)
Definition change_log (T : ServerGroup) : list IGroupChangeState.t :=
  optional_chain (privChanges T) IGroupChanges.groupChanges ?? [].

(** The scan of [getMember] over a snapshot. *)
Definition find_member (s : IGroup.t) (userId : bytes)
    : option (obj IMember.t) :=
  match IGroup.members s with
  | None => None
  | Some ms =>
      find (fun member =>
              match IMember.userId (val member) with
              | None => false
              | Some u => Buffer_equals userId u
              end) ms
  end.

(** The scan of [getPendingMember] over a snapshot. *)
Definition find_pending (s : IGroup.t) (userId : bytes)
    : option (obj IMemberPendingProfileKey.t) :=
  match IGroup.membersPendingProfileKey s with
  | None => None
  | Some ps =>
      find (fun entry =>
              match IMemberPendingProfileKey.member (val entry) with
              | None => false
              | Some member =>
                  match IMember.userId member with
                  | None => false
                  | Some u => Buffer_equals userId u
                  end
              end) ps
  end.

(** A computation that leaves the instance as it is. *)
Definition frames {A : Type} (m : M A) : Prop :=
  forall h, this (snd (m h)) = this h.

(** A computation that throws from the heap [h]. *)
Definition throws {A : Type} (m : M A) (h : Heap) : Prop :=
  exists e, fst (m h) = Throw e.

Create HintDb frames.

Lemma Buffer_equals_refl (a : bytes) : Buffer_equals a a = true.
Proof.
  induction a as [|x a IH]; simpl; [reflexivity|].
  rewrite IH, andb_true_r. now apply Byte.byte_dec_lb.
Qed.

Lemma Buffer_equals_eq (a b : bytes) : Buffer_equals a b = true <-> a = b.
Proof.
  split; [|intros ->; apply Buffer_equals_refl].
  revert b; induction a as [|x a IH]; intros [|y b]; simpl; try discriminate;
    [reflexivity|].
  intros H. apply andb_true_iff in H as [Hx Hab].
  apply Byte.byte_dec_bl in Hx. f_equal; auto.
Qed.

Lemma state_run (h : Heap) : state h = (snapshot (this h), h).
Proof.
  unfold snapshot, state, changes, bind; simpl.
  destruct (privChanges (this h)) as [c|]; [|reflexivity].
  destruct (IGroupChanges.groupChanges c) as [l|]; [|reflexivity].
  destruct (nth_error l (List.length l - 1)) as [entry|]; [|reflexivity].
  destruct (IGroupChangeState.groupState entry); reflexivity.
Qed.

Lemma getMember_run (u : bytes) (h : Heap) :
  getMember u h =
  (match snapshot (this h) with
   | Normal s => Normal (find_member s u)
   | Throw e => Throw e
   end, h).
Proof.
  unfold getMember, bind. rewrite state_run.
  destruct (snapshot (this h)); reflexivity.
Qed.

Lemma getPendingMember_run (u : bytes) (h : Heap) :
  getPendingMember u h =
  (match snapshot (this h) with
   | Normal s => Normal (find_pending s u)
   | Throw e => Throw e
   end, h).
Proof.
  unfold getPendingMember, bind. rewrite state_run.
  destruct (snapshot (this h)); reflexivity.
Qed.

Lemma publicParams_run (h : Heap) :
  publicParams h =
  (match privPublicParams (this h) with
   | Some p => Normal p
   | None => Throw (AssertionError "Group not initialized")
   end, h).
Proof. unfold publicParams. destruct (privPublicParams (this h)); reflexivity. Qed.

(** ** The frame rules *)

Lemma frames_ret {A : Type} (a : A) : frames (ret a).
Proof. intros h; reflexivity. Qed.

Lemma frames_throw {A : Type} (e : exn) : frames (@throw A e).
Proof. intros h; reflexivity. Qed.

Lemma frames_bind {A B : Type} (m : M A) (f : A -> M B) :
  frames m -> (forall a, frames (f a)) -> frames (bind m f).
Proof.
  intros Hm Hf h. unfold bind. specialize (Hm h).
  destruct (m h) as [[a|e] h1]; simpl in *; [|assumption].
  rewrite Hf. assumption.
Qed.

Lemma frames_assert_ok (b : bool) (msg : string) : frames (assert_ok b msg).
Proof. intros h; destruct b; reflexivity. Qed.

Lemma frames_assert_present {A : Type} (o : option A) (msg : string) :
  frames (assert_present o msg).
Proof. intros h; destruct o; reflexivity. Qed.

Lemma frames_new_object {A : Type} (v : A) : frames (new_object v).
Proof. intros h; reflexivity. Qed.

Lemma frames_state : frames state.
Proof. intros h; rewrite state_run; reflexivity. Qed.

Lemma frames_publicParams : frames publicParams.
Proof. intros h; rewrite publicParams_run; reflexivity. Qed.

Lemma frames_getMember (u : bytes) : frames (getMember u).
Proof. intros h; rewrite getMember_run; reflexivity. Qed.

Lemma frames_getPendingMember (u : bytes) : frames (getPendingMember u).
Proof. intros h; rewrite getPendingMember_run; reflexivity. Qed.

Lemma frames_for_of {A S : Type} (body : S -> A -> M S) (l : list A) :
  (forall s x, frames (body s x)) -> forall s, frames (for_of body l s).
Proof.
  intros Hb; induction l as [|x l IH]; intros s; simpl.
  - apply frames_ret.
  - apply frames_bind; auto.
Qed.

#[local] Hint Resolve frames_ret frames_throw frames_assert_ok
  frames_assert_present frames_new_object frames_state frames_publicParams
  frames_getMember frames_getPendingMember : frames.

(** Splits a goal [frames m] along the binds and the case analyses of [m]. *)
Ltac frames_auto :=
  repeat first
    [ solve [ auto with frames ]
    | apply frames_bind; [ | intros ? ]
    | apply frames_for_of; intros ? ?
    | match goal with
      | |- frames (if ?b then _ else _) => destruct b
      | |- frames (match ?x with _ => _ end) => destruct x
      end ].

Section Frames.

Context {zk : ZkGroup}.

Lemma frames_new_UuidCiphertext (b : bytes) : frames (new_UuidCiphertext b).
Proof. unfold new_UuidCiphertext; frames_auto. Qed.

Lemma frames_new_presentation (b : bytes) :
  frames (new_ProfileKeyCredentialPresentation b).
Proof. unfold new_ProfileKeyCredentialPresentation; frames_auto. Qed.

Lemma frames_verifyPresentation (p b : bytes) :
  frames (verifyProfileKeyCredentialPresentation p b).
Proof. unfold verifyProfileKeyCredentialPresentation; frames_auto. Qed.

Lemma frames_verifyAccess attribute member access affected :
  frames (verifyAccess attribute member access affected).
Proof. unfold verifyAccess; frames_auto. Qed.

Hint Resolve frames_new_UuidCiphertext frames_new_presentation
  frames_verifyPresentation frames_verifyAccess : frames.

Lemma frames_modifyTitle auth ac actions w :
  frames (modify_modifyTitle auth ac actions w).
Proof. unfold modify_modifyTitle; frames_auto. Qed.

Lemma frames_deleteMember auth ac w x :
  frames (modify_deleteMember auth ac w x).
Proof. unfold modify_deleteMember; frames_auto. Qed.

Lemma frames_addPendingMember aci auth ac ts w x :
  frames (modify_addPendingMember aci auth ac ts w x).
Proof. unfold modify_addPendingMember; frames_auto. Qed.

Lemma frames_deletePendingMember aci pni w x :
  frames (modify_deletePendingMember aci pni w x).
Proof. unfold modify_deletePendingMember; frames_auto. Qed.

Lemma frames_promotePendingMember aci w x :
  frames (modify_promotePendingMember aci w x).
Proof. unfold modify_promotePendingMember; frames_auto. Qed.

Lemma frames_promotePNIMember aci pni w x :
  frames (modify_promotePNIMember aci pni w x).
Proof. unfold modify_promotePNIMember; frames_auto. Qed.

Hint Resolve frames_modifyTitle frames_deleteMember frames_addPendingMember
  frames_deletePendingMember frames_promotePendingMember
  frames_promotePNIMember : frames.

(** Nothing that precedes the version check writes to the instance. *)
Lemma frames_modify_prepare aci pni actions now :
  frames (modify_prepare aci pni actions now).
Proof. unfold modify_prepare; frames_auto. Qed.

End Frames.

(** ** Runs *)

Lemma bind_Normal_inv {A B : Type} (m : M A) (f : A -> M B) h b h' :
  bind m f h = (Normal b, h') ->
  exists a h1, m h = (Normal a, h1) /\ f a h1 = (Normal b, h').
Proof.
  unfold bind. destruct (m h) as [[a|e] h1]; [eauto|discriminate].
Qed.

Lemma bind_Normal {A B : Type} (m : M A) (f : A -> M B) h a h1 :
  m h = (Normal a, h1) -> bind m f h = f a h1.
Proof. unfold bind; now intros ->. Qed.

Lemma throws_bind_l {A B : Type} (m : M A) (f : A -> M B) h :
  throws m h -> throws (bind m f) h.
Proof.
  intros [e He]. exists e. unfold bind.
  destruct (m h) as [[a|e'] h1]; simpl in *; congruence.
Qed.

(** A property of the local variables that every normal run of the body
    keeps is kept by the loop. *)
Lemma for_of_invariant {A S : Type} (body : S -> A -> M S) (I : S -> Prop)
    (l : list A) :
  (forall s x h s' h', I s -> body s x h = (Normal s', h') -> I s') ->
  forall s h s' h', I s -> for_of body l s h = (Normal s', h') -> I s'.
Proof.
  intros Hb. induction l as [|x l IH]; intros s h s' h' Hs Hrun; simpl in Hrun.
  - inversion Hrun; subst; assumption.
  - apply bind_Normal_inv in Hrun as (s1 & h1 & H1 & H2). eauto.
Qed.

(** A normal run of a loop goes through each element. *)
Lemma for_of_In {A S : Type} (body : S -> A -> M S) (x : A) (l : list A) :
  In x l ->
  forall s h s' h', for_of body l s h = (Normal s', h') ->
  exists l1 l2 s1 h1 s2 h2,
    l = l1 ++ x :: l2 /\
    for_of body l1 s h = (Normal s1, h1) /\
    body s1 x h1 = (Normal s2, h2) /\
    for_of body l2 s2 h2 = (Normal s', h').
Proof.
  induction l as [|y l IH]; intros Hin s h s' h' Hrun; [destruct Hin|].
  simpl in Hrun. apply bind_Normal_inv in Hrun as (sy & hy & Hy & Hrest).
  destruct Hin as [->|Hin].
  - exists [], l, s, h, sy, hy. simpl. auto.
  - destruct (IH Hin _ _ _ _ Hrest) as (l1 & l2 & s1 & h1 & s2 & h2 & -> & Ha & Hb & Hc).
    exists (y :: l1), l2, s1, h1, s2, h2. simpl. rewrite (bind_Normal _ _ _ _ _ Hy).
    auto.
Qed.

Lemma nth_error_last {A : Type} (l : list A) (x : A) :
  nth_error (l ++ [x]) (List.length (l ++ [x]) - 1) = Some x.
Proof.
  rewrite length_app. simpl.
  replace (List.length l + 1 - 1)%nat with (List.length l) by lia.
  rewrite nth_error_app2 by lia. now rewrite Nat.sub_diag.
Qed.

(** The snapshot is the state of the last entry of the log. *)
Lemma snapshot_Normal_inv (T : ServerGroup) (s : IGroup.t) :
  snapshot T = Normal s ->
  exists l entry,
    privChanges T = Some (IGroupChanges.Build (Some (l ++ [entry]))) /\
    IGroupChangeState.groupState entry = Some s.
Proof.
  unfold snapshot, state, changes, bind; simpl.
  destruct (privChanges T) as [[[l|]]|]; simpl; try discriminate.
  destruct (nth_error l (List.length l - 1)) as [entry|] eqn:Hnth;
    [|discriminate].
  destruct (IGroupChangeState.groupState entry) as [s'|] eqn:Hs; [|discriminate].
  intros H; inversion H; subst s'.
  destruct (exists_last (l := l)) as (l0 & e0 & ->).
  { intros ->; destruct (List.length (@nil IGroupChangeState.t) - 1)%nat; discriminate. }
  rewrite nth_error_last in Hnth. inversion Hnth; subst. eauto.
Qed.

Lemma snapshot_push (l : list IGroupChangeState.t) (entry : IGroupChangeState.t)
    (p : option bytes) (s : IGroup.t) :
  IGroupChangeState.groupState entry = Some s ->
  snapshot {| privChanges := Some (IGroupChanges.Build (Some (l ++ [entry])));
              privPublicParams := p |} = Normal s.
Proof.
  intros Hs. unfold snapshot, state, changes, bind; simpl.
  rewrite nth_error_last, Hs. reflexivity.
Qed.

Section Commit.

Context {zk : ZkGroup}.

(** The entry that a commit pushes and the record that it returns. *)
Definition committed_entry (w : Working) : IGroupChangeState.t :=
  IGroupChangeState.Build
    (Some (IGroupChange.Build (Some (Actions_encode (appliedActions w))) None
                              (Some (changeEpoch w))))
    (Some (newState w)).

Definition applied_result (w : Working) : ModifyGroupResult :=
  {| conflict := false;
     signedChange :=
       Some (IGroupChange.Build
               (Some (Actions_encode (appliedActions w)))
               (Some (sign (Actions_encode (appliedActions w))))
               (Some (changeEpoch w))) |}.

Definition conflict_result : ModifyGroupResult :=
  {| conflict := true; signedChange := None |}.

Definition next_version (actions : IActions.t) (v : Z) : bool :=
  match IActions.version actions with
  | Some v' => v' =? v + 1
  | None => false
  end.

Lemma modify_commit_run actions w h s v :
  snapshot (this h) = Normal s ->
  IGroup.version s = Some v ->
  modify_commit actions w h =
  if next_version actions v
  then (Normal (applied_result w),
        {| next_addr := next_addr h;
           this := {| privChanges :=
                        Some (IGroupChanges.Build
                                (Some (change_log (this h) ++
                                       [ committed_entry w ])));
                      privPublicParams := privPublicParams (this h) |} |})
  else (Normal conflict_result, h).
Proof.
  intros Hs Hv. unfold modify_commit, next_version.
  rewrite (bind_Normal _ _ _ _ _ (eq_trans (state_run h) (f_equal (fun r => (r, h)) Hs))).
  rewrite Hv. simpl assert_present.
  rewrite (bind_Normal _ _ h v h eq_refl).
  destruct (match IActions.version actions with
            | Some v' => v' =? v + 1 | None => false end); simpl; [|reflexivity].
  apply snapshot_Normal_inv in Hs as (l & entry & Hl & _).
  unfold bind, push_groupChange, change_log. rewrite Hl. reflexivity.
Qed.

End Commit.

Section Modify.

Context {zk : ZkGroup}.

(** What the last part of [modify] does to the heap, case by case. *)
Lemma modify_commit_cases actions w h :
  match modify_commit actions w h with
  | (Normal result, h') =>
      exists s v,
        snapshot (this h) = Normal s /\ IGroup.version s = Some v /\
        if conflict result
        then IActions.version actions <> Some (v + 1) /\
             result = conflict_result /\ h' = h
        else IActions.version actions = Some (v + 1) /\
             result = applied_result w /\
             privChanges (this h') =
               Some (IGroupChanges.Build
                       (Some (change_log (this h) ++ [ committed_entry w ]))) /\
             privPublicParams (this h') = privPublicParams (this h)
  | (Throw _, h') => h' = h
  end.
Proof.
  unfold modify_commit. unfold bind at 1. rewrite state_run.
  destruct (snapshot (this h)) as [s|e] eqn:Hs; [|reflexivity].
  destruct (IGroup.version s) as [v|] eqn:Hv; simpl; [|reflexivity].
  unfold bind at 1; simpl.
  destruct (IActions.version actions) as [v'|] eqn:Hv'; simpl.
  - destruct (Z.eqb_spec v' (v + 1)) as [->|Hne]; simpl.
    + apply snapshot_Normal_inv in Hs as Hl. destruct Hl as (l & entry & Hl & _).
      unfold bind, push_groupChange, change_log. rewrite Hl. simpl.
      exists s, v. repeat split; reflexivity || assumption.
    + exists s, v. repeat split; auto. congruence.
  - exists s, v. repeat split; auto. discriminate.
Qed.

Lemma modify_prepare_this aci pni actions now h :
  this (snd (modify_prepare aci pni actions now h)) = this h.
Proof. apply frames_modify_prepare. Qed.

(** With a version that is a non-zero number and no sub-action at all,
    nothing before the version check throws. *)
Lemma modify_prepare_no_subactions aci pni actions now h s :
  snapshot (this h) = Normal s ->
  truthy_number (IActions.version actions) = true ->
  IActions.modifyTitle actions = None ->
  IActions.deleteMembers actions ?? [] = [] ->
  IActions.addPendingMembers actions ?? [] = [] ->
  IActions.deletePendingMembers actions ?? [] = [] ->
  IActions.promotePendingMembers actions ?? [] = [] ->
  IActions.promoteMembersPendingPniAciProfileKey actions ?? [] = [] ->
  exists w, modify_prepare aci pni actions now h = (Normal w, h).
Proof.
  intros Hs Hv Ht H1 H2 H3 H4 H5. unfold modify_prepare.
  rewrite Hv, H1, H2, H3, H4, H5. simpl assert_ok.
  unfold modify_modifyTitle. rewrite Ht.
  unfold bind. simpl. rewrite state_run, getMember_run, Hs. simpl.
  eexists; reflexivity.
Qed.

End Modify.

(** ** Construction *)

Lemma frames_array_map {A B : Type} (f : A -> M B) (l : list A) :
  (forall x, frames (f x)) -> frames (array_map f l).
Proof.
  intros Hf. induction l as [|x l IH]; simpl; [apply frames_ret|].
  apply frames_bind; [apply Hf|intros y].
  apply frames_bind; [apply IH|intros ys; apply frames_ret].
Qed.

Lemma array_map_Forall2 {A B : Type} (f : A -> M B) (T : ServerGroup)
    (R : A -> B -> Prop) (l : list A) :
  (forall y, frames (f y)) ->
  (forall x h y h', this h = T -> f x h = (Normal y, h') -> R x y) ->
  forall h ys h', this h = T -> array_map f l h = (Normal ys, h') ->
  Forall2 R l ys.
Proof.
  intros Hfr HR. induction l as [|x l IH]; intros h ys h' Hh Hrun; simpl in Hrun.
  - inversion Hrun; constructor.
  - apply bind_Normal_inv in Hrun as (y & h1 & Hy & Hrun).
    apply bind_Normal_inv in Hrun as (ys' & h2 & Hys & Hret).
    inversion Hret; subst. constructor; [eauto|].
    eapply IH; [|eassumption].
    pose proof (Hfr x h) as Hf. rewrite Hy in Hf. simpl in Hf. congruence.
Qed.

Section Construction.

Context {zk : ZkGroup}.

(** The presentation of a member is there, is well formed and verifies
    against the public parameters. *)
Definition presentation_verifies (params : bytes) (m : IMember.t) : bool :=
  match IMember.presentation m with
  | Some p =>
      ProfileKeyCredentialPresentation_check p &&
      verifyProfileKeyCredentialPresentation_check params p
  | None => false
  end.

(** A member of the committed state, as [unrollMember] derives it from the
    member of the initial state. *)
Definition unrolled_from (input : IMember.t) (output : IMember.t) : Prop :=
  exists p,
    IMember.presentation input = Some p /\
    output = IMember.Build (IMember.role input)
                           (Some (getUuidCiphertext p))
                           (Some (getProfileKeyCiphertext p))
                           None.

Lemma frames_unrollMember (m : IMember.t) : frames (unrollMember m).
Proof.
  unfold unrollMember. frames_auto.
  - apply frames_new_presentation.
  - apply frames_verifyPresentation.
Qed.

Lemma unrollMember_Normal_inv params m h y h' :
  privPublicParams (this h) = Some params ->
  unrollMember m h = (Normal y, h') ->
  presentation_verifies params m = true /\ unrolled_from m (val y).
Proof.
  intros Hp. unfold unrollMember, presentation_verifies, unrolled_from.
  destruct (IMember.role m) as [r|]; simpl; [|discriminate].
  destruct (IMember.presentation m) as [p|]; simpl; [|discriminate].
  unfold bind, new_ProfileKeyCredentialPresentation,
    verifyProfileKeyCredentialPresentation; simpl.
  destruct (ProfileKeyCredentialPresentation_check p); simpl; [|discriminate].
  rewrite publicParams_run, Hp.
  destruct (verifyProfileKeyCredentialPresentation_check params p); simpl;
    [|discriminate].
  intros H; inversion H; subst; simpl. eauto.
Qed.

(** The access control names a level for each of its three attributes. *)
Definition configured (ac : IAccessControl.t) : bool :=
  is_some (IAccessControl.attributes ac) &&
  is_some (IAccessControl.members ac) &&
  is_some (IAccessControl.addFromInviteLink ac).

(** A normal run of the constructor: what the initial state had to be and
    what the instance is. *)
Lemma constructor_Normal_inv state h0 h :
  constructor state h0 = (Normal tt, h) ->
  exists publicKey accessControl members unrolled,
    IGroup.publicKey state = Some publicKey /\
    IGroup.version state = Some 0 /\
    IGroup.accessControl state = Some accessControl /\
    configured accessControl = true /\
    IGroup.members state = Some members /\
    members <> [] /\
    Forall2 (fun input output =>
               presentation_verifies publicKey (val input) = true /\
               unrolled_from (val input) (val output))
            members unrolled /\
    this h =
      {| privChanges :=
           Some (IGroupChanges.Build
                   (Some [ IGroupChangeState.Build None
                             (Some (IGroup.with_members (Some unrolled)
                                                        state)) ]));
         privPublicParams := Some publicKey |}.
Proof.
  unfold constructor. intros Hrun.
  destruct (IGroup.publicKey state) as [pk|] eqn:Hpk; [|discriminate].
  simpl assert_present in Hrun. rewrite (bind_Normal _ _ h0 pk h0 eq_refl) in Hrun.
  destruct (IGroup.version state) as [v|] eqn:Hv; [|discriminate].
  destruct (Z.eqb_spec v 0) as [->|]; [|discriminate].
  simpl assert_ok in Hrun. rewrite (bind_Normal _ _ h0 tt h0 eq_refl) in Hrun.
  destruct (IGroup.accessControl state) as [ac|] eqn:Hac; [|discriminate].
  simpl assert_present in Hrun. rewrite (bind_Normal _ _ h0 ac h0 eq_refl) in Hrun.
  fold (configured ac) in Hrun.
  destruct (configured ac) eqn:Hconf; [|discriminate].
  simpl assert_ok in Hrun. rewrite (bind_Normal _ _ h0 tt h0 eq_refl) in Hrun.
  destruct (IGroup.members state) as [[|m ms]|] eqn:Hms; try discriminate.
  simpl assert_ok in Hrun. rewrite (bind_Normal _ _ h0 tt h0 eq_refl) in Hrun.
  unfold new_GroupPublicParams in Hrun.
  destruct (GroupPublicParams_check pk); [|discriminate].
  rewrite (bind_Normal _ _ h0 pk h0 eq_refl) in Hrun.
  unfold bind at 1 in Hrun. simpl set_privPublicParams in Hrun.
  apply bind_Normal_inv in Hrun as (unrolled & h1 & Hmap & Hset).
  unfold set_privChanges in Hset. inversion Hset; subst h; clear Hset.
  unfold nullish in Hmap.
  match type of Hmap with
  | array_map ?f ?l ?h = _ =>
      pose proof (frames_array_map f l
                    (fun x => frames_unrollMember (val x)) h) as Hfr
  end.
  rewrite Hmap in Hfr. simpl in Hfr.
  exists pk, ac, (m :: ms), unrolled. repeat split; try assumption;
    try reflexivity; try discriminate.
  - eapply array_map_Forall2; [| |reflexivity|exact Hmap].
    + intros y. apply frames_unrollMember.
    + intros x h y h' Hh Hx. eapply unrollMember_Normal_inv; [|exact Hx].
      rewrite Hh. reflexivity.
  - simpl. rewrite Hfr. reflexivity.
Qed.

End Construction.

(** ** The access rule *)

(** The acting member changes something about itself: there is an acting
    member, an affected identity is given, and it is the member's own. *)
Definition affects_self (member : option (obj IMember.t))
    (affectedUserId : option bytes) : bool :=
  match optional_chain member (fun m => IMember.userId (val m)),
        affectedUserId with
  | Some userId, Some affected => Buffer_equals userId affected
  | _, _ => false
  end.

Definition is_administrator (member : option (obj IMember.t)) : bool :=
  match optional_chain member (fun m => IMember.role (val m)) with
  | Some r => Role.eqb r Role.ADMINISTRATOR
  | None => false
  end.

(** The rule of the access evaluator, level by level. *)
Definition access_allowed (member : option (obj IMember.t))
    (access : AccessRequired.t) (affectedUserId : option bytes) : bool :=
  affects_self member affectedUserId ||
  match access with
  | AccessRequired.ANY => true
  | AccessRequired.MEMBER => is_some member
  | AccessRequired.ADMINISTRATOR => is_administrator member
  | AccessRequired.UNSATISFIABLE => false
  | AccessRequired.UNKNOWN => false
  end.

Definition is_normal {A : Type} (r : completion A) : bool :=
  match r with Normal _ => true | Throw _ => false end.

Section Access.

Context {zk : ZkGroup}.

Lemma verifyAccess_run attribute member access affected h :
  snd (verifyAccess attribute member access affected h) = h /\
  is_normal (fst (verifyAccess attribute member access affected h)) =
    access_allowed member access affected.
Proof.
  unfold verifyAccess, access_allowed, affects_self, is_administrator.
  destruct (match optional_chain member (fun m => IMember.userId (val m)),
                  affected with
            | Some userId, Some a => Buffer_equals userId a
            | _, _ => false
            end); [split; reflexivity|].
  destruct access; unfold assert_ok, ret, throw; cbn [orb];
    try (split; reflexivity).
  - destruct (is_some member); split; reflexivity.
  - destruct (match optional_chain member (fun m => IMember.role (val m)) with
              | Some r => Role.eqb r Role.ADMINISTRATOR
              | None => false
              end); split; reflexivity.
Qed.

Lemma verifyAccess_cases attribute member access affected h :
  (access_allowed member access affected = true /\
   verifyAccess attribute member access affected h = (Normal tt, h)) \/
  (access_allowed member access affected = false /\
   exists e, verifyAccess attribute member access affected h = (Throw e, h)).
Proof.
  destruct (verifyAccess_run attribute member access affected h) as [Hh Hn].
  destruct (verifyAccess attribute member access affected h) as [[[]|e] h1];
    simpl in *; subst h1; [left|right]; split; eauto.
Qed.

End Access.

(** ** The sub-actions, one at a time

    For each loop of [modify]: the check that its body makes, as a
    function of the snapshot [s] that the lookups consult, and the update
    of the working copy when the check passes. *)

Ltac innermost t :=
  lazymatch t with
  | context [match ?x with _ => _ end] => innermost x
  | _ => t
  end.

Ltac case_step :=
  lazymatch goal with
  | |- context [match ?x with _ => _ end] =>
      let y := innermost x in destruct y eqn:?
  end.

Ltac run_step :=
  first
    [ progress rewrite ?getMember_run, ?getPendingMember_run,
        ?publicParams_run, ?state_run
    | match goal with
      | H : snapshot ?T = _ |- context [snapshot ?T] => rewrite H
      | H : privPublicParams ?T = _ |- context [privPublicParams ?T] =>
          rewrite H
      | |- context [verifyAccess ?a ?m ?l ?f ?h] =>
          destruct (verifyAccess_cases a m l f h) as [[? ->]|[? [? ->]]]
      end
    | progress unfold bind, ret, throw, assert_ok, assert_present, new_object,
        new_UuidCiphertext, new_ProfileKeyCredentialPresentation,
        verifyProfileKeyCredentialPresentation
    | progress cbv beta iota
    | progress cbn [fst snd this next_addr is_normal]
    | case_step ].

Ltac run_body := repeat run_step.

(** The heap after one more object. *)
Definition allocated (h : Heap) : Heap :=
  {| next_addr := S (next_addr h); this := this h |}.

Definition without {A : Type} (x : obj A) (l : list (obj A)) : list (obj A) :=
  filter (fun entry => negb (same_object entry x)) l.

Section SubActions.

Context {zk : ZkGroup}.

Definition members_level (ac : option IAccessControl.t) : AccessRequired.t :=
  optional_chain ac IAccessControl.members ?? AccessRequired.UNKNOWN.

(** Delete members: the target is given, the access rule allows the
    deletion, and the target is an active member of [s]. *)
Definition deleteMember_accepts (s : IGroup.t) (auth : option (obj IMember.t))
    (ac : option IAccessControl.t) (x : DeleteMemberAction.t) : bool :=
  match DeleteMemberAction.deletedUserId x with
  | Some uid =>
      access_allowed auth (members_level ac) (Some uid) &&
      UuidCiphertext_check uid &&
      is_some (find_member s uid)
  | None => false
  end.

(** Add pending members: the entry carries an identity and a role, and the
    access rule allows the addition; no snapshot is consulted. *)
Definition addPendingMember_accepts (auth : option (obj IMember.t))
    (ac : option IAccessControl.t) (x : AddMemberPendingProfileKeyAction.t)
    : bool :=
  match optional_chain (AddMemberPendingProfileKeyAction.added x)
          IMemberPendingProfileKey.member with
  | Some member =>
      is_some (IMember.userId member) &&
      match IMember.role member with
      | Some r => Role.truthy r
      | None => false
      end &&
      access_allowed auth (members_level ac) None
  | None => false
  end.

(** Delete pending members: the target is one of the two identities of the
    caller and is pending in [s]. *)
Definition deletePendingMember_accepts (s : IGroup.t) (aci pni : bytes)
    (x : DeleteMemberPendingProfileKeyAction.t) : bool :=
  match DeleteMemberPendingProfileKeyAction.deletedUserId x with
  | Some uid =>
      (Buffer_equals uid aci || Buffer_equals uid pni) &&
      UuidCiphertext_check uid &&
      is_some (find_pending s uid)
  | None => false
  end.

(** A presentation that is given, well formed and verified. *)
Definition verified (params : bytes) (presentation : option bytes) : bool :=
  match presentation with
  | Some p =>
      ProfileKeyCredentialPresentation_check p &&
      verifyProfileKeyCredentialPresentation_check params p
  | None => false
  end.

(** Promote pending members: the presentation verifies, its identity is the
    caller's, is pending in [s] and is not an active member of [s]. *)
Definition promotePendingMember_accepts (s : IGroup.t) (params aci : bytes)
    (x : PromoteMemberPendingProfileKeyAction.t) : bool :=
  match PromoteMemberPendingProfileKeyAction.presentation x with
  | Some p =>
      verified params (Some p) &&
      Buffer_equals (getUuidCiphertext p) aci &&
      is_some (find_pending s (getUuidCiphertext p)) &&
      negb (is_some (find_member s (getUuidCiphertext p)))
  | None => false
  end.

(** Promote across the identity spaces: the pending entry is the one of
    the secondary identity of the caller. *)
Definition promotePNIMember_accepts (s : IGroup.t) (params aci pni : bytes)
    (x : PromoteMemberPendingPniAciProfileKeyAction.t) : bool :=
  match PromoteMemberPendingPniAciProfileKeyAction.presentation x with
  | Some p =>
      verified params (Some p) &&
      Buffer_equals (getUuidCiphertext p) aci &&
      is_some (find_pending s pni) &&
      negb (is_some (find_member s (getUuidCiphertext p)))
  | None => false
  end.

(** The member that a promotion adds. *)
Definition promoted (a : nat) (p : bytes) : obj IMember.t :=
  Obj a (IMember.Build (Some Role.DEFAULT) (Some (getUuidCiphertext p))
                       (Some (getProfileKeyCiphertext p)) None).

Lemma modify_modifyTitle_Normal_inv auth ac actions w h w' h' :
  modify_modifyTitle auth ac actions w h = (Normal w', h') ->
  (newState w' = newState w \/
   exists t, newState w' = IGroup.with_title t (newState w)) /\
  changeEpoch w' = changeEpoch w /\ h' = h.
Proof.
  unfold modify_modifyTitle. run_body; intros Hrun; inversion Hrun; subst;
    simpl; eauto.
Qed.

Lemma modify_deleteMember_accepts auth ac w x h s :
  snapshot (this h) = Normal s ->
  is_normal (fst (modify_deleteMember auth ac w x h)) =
    deleteMember_accepts s auth ac x.
Proof.
  intros Hs. unfold modify_deleteMember, deleteMember_accepts.
  fold (members_level ac). run_body;
    repeat match goal with H : _ = _ |- _ => rewrite H end; reflexivity.
Qed.

Lemma modify_deleteMember_Normal_inv auth ac w x h w' h' :
  modify_deleteMember auth ac w x h = (Normal w', h') ->
  exists uid s member,
    DeleteMemberAction.deletedUserId x = Some uid /\
    snapshot (this h) = Normal s /\
    find_member s uid = Some member /\
    newState w' =
      IGroup.with_members
        (Some (without member (IGroup.members (newState w) ?? [])))
        (newState w) /\
    changeEpoch w' = changeEpoch w /\
    h' = h.
Proof.
  unfold modify_deleteMember. run_body; intros Hrun; inversion Hrun; subst.
  repeat eexists; eauto.
Qed.

Lemma modify_addPendingMember_accepts aci auth ac ts w x h :
  is_normal (fst (modify_addPendingMember aci auth ac ts w x h)) =
    addPendingMember_accepts auth ac x.
Proof.
  unfold modify_addPendingMember, addPendingMember_accepts.
  fold (members_level ac). unfold optional_chain. run_body;
    repeat match goal with H : _ = _ |- _ => rewrite H end;
    simpl; rewrite ?andb_false_r; reflexivity.
Qed.

Lemma modify_addPendingMember_Normal_inv aci auth ac ts w x h w' h' :
  modify_addPendingMember aci auth ac ts w x h = (Normal w', h') ->
  exists userId role,
    optional_chain
      (optional_chain (AddMemberPendingProfileKeyAction.added x)
                      IMemberPendingProfileKey.member)
      IMember.userId = Some userId /\
    newState w' =
      IGroup.with_membersPendingProfileKey
        (Some ((IGroup.membersPendingProfileKey (newState w) ?? []) ++
               [ Obj (next_addr h)
                   (IMemberPendingProfileKey.Build
                      (Some (IMember.Build role (Some userId) None None))
                      (Some aci) (Some ts)) ]))
        (newState w) /\
    changeEpoch w' = changeEpoch w /\
    h' = allocated h.
Proof.
  unfold modify_addPendingMember. run_body; intros Hrun; inversion Hrun; subst.
  unfold optional_chain.
  repeat match goal with H : _ = Some _ |- _ => rewrite H end.
  do 2 eexists; repeat split; eauto.
Qed.

Lemma modify_deletePendingMember_accepts aci pni w x h s :
  snapshot (this h) = Normal s ->
  is_normal (fst (modify_deletePendingMember aci pni w x h)) =
    deletePendingMember_accepts s aci pni x.
Proof.
  intros Hs. unfold modify_deletePendingMember, deletePendingMember_accepts.
  run_body;
    repeat match goal with H : _ = _ |- _ => rewrite H end; reflexivity.
Qed.

Lemma modify_deletePendingMember_Normal_inv aci pni w x h w' h' :
  modify_deletePendingMember aci pni w x h = (Normal w', h') ->
  exists uid s entry,
    DeleteMemberPendingProfileKeyAction.deletedUserId x = Some uid /\
    snapshot (this h) = Normal s /\
    find_pending s uid = Some entry /\
    newState w' =
      IGroup.with_membersPendingProfileKey
        (Some (without entry
                 (IGroup.membersPendingProfileKey (newState w) ?? [])))
        (newState w) /\
    changeEpoch w' = changeEpoch w /\
    h' = h.
Proof.
  unfold modify_deletePendingMember. run_body; intros Hrun; inversion Hrun; subst.
  repeat eexists; eauto.
Qed.

Lemma modify_promotePendingMember_accepts aci w x h s params :
  snapshot (this h) = Normal s ->
  privPublicParams (this h) = Some params ->
  is_normal (fst (modify_promotePendingMember aci w x h)) =
    promotePendingMember_accepts s params aci x.
Proof.
  intros Hs Hp.
  unfold modify_promotePendingMember, promotePendingMember_accepts, verified.
  run_body;
    repeat match goal with H : _ = _ |- _ => rewrite H end; reflexivity.
Qed.

Lemma modify_promotePendingMember_Normal_inv aci w x h w' h' :
  modify_promotePendingMember aci w x h = (Normal w', h') ->
  exists p s entry,
    PromoteMemberPendingProfileKeyAction.presentation x = Some p /\
    snapshot (this h) = Normal s /\
    find_pending s (getUuidCiphertext p) = Some entry /\
    newState w' =
      IGroup.with_members
        (Some ((IGroup.members (newState w) ?? []) ++
               [ promoted (next_addr h) p ]))
        (IGroup.with_membersPendingProfileKey
           (Some (without entry
                    (IGroup.membersPendingProfileKey (newState w) ?? [])))
           (newState w)) /\
    h' = allocated h.
Proof.
  unfold modify_promotePendingMember. run_body; intros Hrun; inversion Hrun; subst.
  repeat eexists; eauto.
Qed.

Lemma modify_promotePNIMember_accepts aci pni w x h s params :
  snapshot (this h) = Normal s ->
  privPublicParams (this h) = Some params ->
  is_normal (fst (modify_promotePNIMember aci pni w x h)) =
    promotePNIMember_accepts s params aci pni x.
Proof.
  intros Hs Hp.
  unfold modify_promotePNIMember, promotePNIMember_accepts, verified.
  run_body;
    repeat match goal with H : _ = _ |- _ => rewrite H end; reflexivity.
Qed.

Lemma modify_promotePNIMember_Normal_inv aci pni w x h w' h' :
  modify_promotePNIMember aci pni w x h = (Normal w', h') ->
  exists p s entry,
    PromoteMemberPendingPniAciProfileKeyAction.presentation x = Some p /\
    snapshot (this h) = Normal s /\
    find_pending s pni = Some entry /\
    newState w' =
      IGroup.with_members
        (Some ((IGroup.members (newState w) ?? []) ++
               [ promoted (next_addr h) p ]))
        (IGroup.with_membersPendingProfileKey
           (Some (without entry
                    (IGroup.membersPendingProfileKey (newState w) ?? [])))
           (newState w)) /\
    h' = allocated h.
Proof.
  unfold modify_promotePNIMember. run_body; intros Hrun; inversion Hrun; subst.
  repeat eexists; eauto.
Qed.

End SubActions.

(** ** The walk over the sub-actions *)

Lemma frames_run {A : Type} (m : M A) (h : Heap) (r : completion A)
    (h' : Heap) :
  frames m -> m h = (r, h') -> this h' = this h.
Proof. intros Hf Hrun. specialize (Hf h). now rewrite Hrun in Hf. Qed.

Lemma for_of_In_this {A S : Type} (body : S -> A -> M S) (x : A)
    (l : list A) :
  In x l ->
  (forall s y, frames (body s y)) ->
  forall s h s' h', for_of body l s h = (Normal s', h') ->
  exists s1 h1 s2 h2 l2,
    this h1 = this h /\
    body s1 x h1 = (Normal s2, h2) /\
    for_of body l2 s2 h2 = (Normal s', h').
Proof.
  intros Hin Hfr s h s' h' Hrun.
  destruct (for_of_In body x l Hin s h s' h' Hrun)
    as (l1 & l2 & s1 & h1 & s2 & h2 & _ & Ha & Hb & Hc).
  exists s1, h1, s2, h2, l2. repeat split; try assumption.
  eapply frames_run; [|exact Ha]. now apply frames_for_of.
Qed.

Section Walk.

Context {zk : ZkGroup}.

(** The local variables at the entry of the first loop. *)
Definition initial_working (actions : IActions.t) (aci : bytes)
    (s : IGroup.t) : Working :=
  {| newState := IGroup.with_version (IActions.version actions) s;
     appliedActions :=
       IActions.Build (IActions.version actions) (Some aci)
                      None None None None None None;
     changeEpoch := 1 |}.

(** A normal run of the first part of [modify], stage by stage; no stage
    changes the instance. *)
Lemma modify_prepare_Normal_inv aci pni actions now h w h' :
  modify_prepare aci pni actions now h = (Normal w, h') ->
  exists s w0 h0 w1 h1 w2 h2 w3 h3 w4 h4,
    truthy_number (IActions.version actions) = true /\
    snapshot (this h) = Normal s /\
    modify_modifyTitle (find_member s aci) (IGroup.accessControl s) actions
      (initial_working actions aci s) h = (Normal w0, h0) /\
    for_of (modify_deleteMember (find_member s aci) (IGroup.accessControl s))
      (IActions.deleteMembers actions ?? []) w0 h0 = (Normal w1, h1) /\
    for_of (modify_addPendingMember aci (find_member s aci)
              (IGroup.accessControl s) now)
      (IActions.addPendingMembers actions ?? []) w1 h1 = (Normal w2, h2) /\
    for_of (modify_deletePendingMember aci pni)
      (IActions.deletePendingMembers actions ?? []) w2 h2 = (Normal w3, h3) /\
    for_of (modify_promotePendingMember aci)
      (IActions.promotePendingMembers actions ?? []) w3 h3 = (Normal w4, h4) /\
    for_of (modify_promotePNIMember aci pni)
      (IActions.promoteMembersPendingPniAciProfileKey actions ?? []) w4 h4 =
      (Normal w, h') /\
    this h0 = this h /\ this h1 = this h /\ this h2 = this h /\
    this h3 = this h /\ this h4 = this h /\ this h' = this h.
Proof.
  unfold modify_prepare. intros Hrun.
  destruct (truthy_number (IActions.version actions)) eqn:Hv; [|discriminate].
  simpl assert_ok in Hrun. rewrite (bind_Normal _ _ h tt h eq_refl) in Hrun.
  unfold bind at 1 in Hrun. rewrite state_run in Hrun.
  destruct (snapshot (this h)) as [s|] eqn:Hs; [|discriminate].
  unfold bind at 1 in Hrun. rewrite getMember_run, Hs in Hrun.
  apply bind_Normal_inv in Hrun as (w0 & h0 & H0 & Hrun).
  apply bind_Normal_inv in Hrun as (w1 & h1 & H1 & Hrun).
  apply bind_Normal_inv in Hrun as (w2 & h2 & H2 & Hrun).
  apply bind_Normal_inv in Hrun as (w3 & h3 & H3 & Hrun).
  apply bind_Normal_inv in Hrun as (w4 & h4 & H4 & Hrun).
  pose proof (frames_run _ _ _ _ (frames_modifyTitle _ _ _ _) H0) as E0.
  pose proof (frames_run _ _ _ _
    (frames_for_of _ _ (frames_deleteMember _ _) _) H1) as E1.
  pose proof (frames_run _ _ _ _
    (frames_for_of _ _ (frames_addPendingMember _ _ _ _) _) H2) as E2.
  pose proof (frames_run _ _ _ _
    (frames_for_of _ _ (frames_deletePendingMember _ _) _) H3) as E3.
  pose proof (frames_run _ _ _ _
    (frames_for_of _ _ (frames_promotePendingMember _) _) H4) as E4.
  pose proof (frames_run _ _ _ _
    (frames_for_of _ _ (frames_promotePNIMember _ _) _) Hrun) as E5.
  exists s, w0, h0, w1, h1, w2, h2, w3, h3, w4, h4.
  repeat split; try assumption; congruence.
Qed.

(** No sub-action touches the version of the working copy. *)
Lemma modify_prepare_version aci pni actions now h w h' :
  modify_prepare aci pni actions now h = (Normal w, h') ->
  IGroup.version (newState w) = IActions.version actions.
Proof.
  intros Hrun. apply modify_prepare_Normal_inv in Hrun
    as (s & w0 & h0 & w1 & h1 & w2 & h2 & w3 & h3 & w4 & h4 & _ & _ &
        H0 & H1 & H2 & H3 & H4 & H5 & _).
  set (I := fun w : Working =>
              IGroup.version (newState w) = IActions.version actions).
  assert (I0 : I w0).
  { apply modify_modifyTitle_Normal_inv in H0 as ([E|[t E]] & _);
      unfold I; rewrite E; reflexivity. }
  assert (I1 : I w1).
  { eapply (for_of_invariant _ I); [|exact I0|exact H1].
    intros a x hh a' hh' Ia Hb.
    apply modify_deleteMember_Normal_inv in Hb
      as (? & ? & ? & _ & _ & _ & E & _).
    unfold I in *; rewrite E; exact Ia. }
  assert (I2 : I w2).
  { eapply (for_of_invariant _ I); [|exact I1|exact H2].
    intros a x hh a' hh' Ia Hb.
    apply modify_addPendingMember_Normal_inv in Hb as (? & ? & _ & E & _).
    unfold I in *; rewrite E; exact Ia. }
  assert (I3 : I w3).
  { eapply (for_of_invariant _ I); [|exact I2|exact H3].
    intros a x hh a' hh' Ia Hb.
    apply modify_deletePendingMember_Normal_inv in Hb
      as (? & ? & ? & _ & _ & _ & E & _).
    unfold I in *; rewrite E; exact Ia. }
  assert (I4 : I w4).
  { eapply (for_of_invariant _ I); [|exact I3|exact H4].
    intros a x hh a' hh' Ia Hb.
    apply modify_promotePendingMember_Normal_inv in Hb
      as (? & ? & ? & _ & _ & _ & E & _).
    unfold I in *; rewrite E; exact Ia. }
  change (I w). eapply (for_of_invariant _ I); [|exact I4|exact H5].
  intros a x hh a' hh' Ia Hb.
  apply modify_promotePNIMember_Normal_inv in Hb
    as (? & ? & ? & _ & _ & _ & E & _).
  unfold I in *; rewrite E; exact Ia.
Qed.

(** The three ways in which a call to [modify] ends. *)
Lemma modify_cases aci pni actions now h :
  (exists e h', modify aci pni actions now h = (Throw e, h') /\
                this h' = this h) \/
  (exists w h' s v,
     modify_prepare aci pni actions now h = (Normal w, h') /\
     modify aci pni actions now h = (Normal conflict_result, h') /\
     snapshot (this h) = Normal s /\ IGroup.version s = Some v /\
     IActions.version actions <> Some (v + 1) /\
     this h' = this h) \/
  (exists w h1 h' s v,
     modify_prepare aci pni actions now h = (Normal w, h1) /\
     modify aci pni actions now h = (Normal (applied_result w), h') /\
     snapshot (this h) = Normal s /\ IGroup.version s = Some v /\
     IActions.version actions = Some (v + 1) /\
     this h1 = this h /\
     this h' =
       {| privChanges :=
            Some (IGroupChanges.Build
                    (Some (change_log (this h) ++ [ committed_entry w ])));
          privPublicParams := privPublicParams (this h) |}).
Proof.
  unfold modify, bind.
  pose proof (modify_prepare_this aci pni actions now h) as Hfr.
  destruct (modify_prepare aci pni actions now h) as [[w|e] h1]; simpl in Hfr.
  - pose proof (modify_commit_cases actions w h1) as Hc.
    destruct (modify_commit actions w h1) as [[result|e] h2].
    + destruct Hc as (s & v & Hs & Hv & Hc). rewrite Hfr in Hs.
      destruct (conflict result) eqn:Hconf.
      * destruct Hc as (Hne & -> & ->). right; left.
        exists w, h1, s, v. repeat split; assumption || reflexivity.
      * destruct Hc as (Heq & -> & Hlog & Hpp). right; right.
        exists w, h1, h2, s, v. repeat split; try assumption; try reflexivity.
        rewrite Hfr in Hlog, Hpp. destruct (this h2); simpl in *.
        congruence.
    + subst h2. left. eauto.
  - left. eauto.
Qed.

End Walk.

(** ** Reachable instances *)

Section Reachable.

Context {zk : ZkGroup}.

(** The heaps that hold an instance: the one that [new ServerGroup] makes
    and those that follow it by calls to [modify], however they end. *)
Inductive reachable : Heap -> Prop :=
| reachable_new state h :
    new_ServerGroup state = Normal h -> reachable h
| reachable_modify h aci pni actions now :
    reachable h -> reachable (snd (modify aci pni actions now h)).

(** The entry at index [i] holds a state of version [i]. *)
Definition versioned (l : list IGroupChangeState.t) : Prop :=
  forall i entry,
    nth_error l i = Some entry ->
    exists s, IGroupChangeState.groupState entry = Some s /\
              IGroup.version s = Some (Z.of_nat i).

(** Both fields are set and the log is a non-empty versioned list. *)
Definition constructed (T : ServerGroup) : Prop :=
  exists l,
    privChanges T = Some (IGroupChanges.Build (Some l)) /\
    l <> [] /\ versioned l /\ is_some (privPublicParams T) = true.

Lemma constructed_snapshot T :
  constructed T ->
  exists l entry s,
    change_log T = l ++ [entry] /\
    IGroupChangeState.groupState entry = Some s /\
    IGroup.version s = Some (Z.of_nat (List.length l)) /\
    snapshot T = Normal s.
Proof.
  intros (l & Hl & Hne & Hv & _).
  destruct (exists_last Hne) as (l0 & entry & ->).
  destruct (Hv (List.length l0) entry) as (s & Hs & Hvs).
  { rewrite nth_error_app2 by lia. now rewrite Nat.sub_diag. }
  exists l0, entry, s. unfold change_log. rewrite Hl. simpl.
  repeat split; try assumption.
  destruct T as [c p]; simpl in *; subst c. now apply snapshot_push.
Qed.

Lemma new_ServerGroup_inv state h :
  new_ServerGroup state = Normal h ->
  exists publicKey accessControl members unrolled,
    IGroup.publicKey state = Some publicKey /\
    IGroup.version state = Some 0 /\
    IGroup.accessControl state = Some accessControl /\
    configured accessControl = true /\
    IGroup.members state = Some members /\
    members <> [] /\
    Forall2 (fun input output =>
               presentation_verifies publicKey (val input) = true /\
               unrolled_from (val input) (val output))
            members unrolled /\
    this h =
      {| privChanges :=
           Some (IGroupChanges.Build
                   (Some [ IGroupChangeState.Build None
                             (Some (IGroup.with_members (Some unrolled)
                                                        state)) ]));
         privPublicParams := Some publicKey |}.
Proof.
  unfold new_ServerGroup.
  destruct (constructor state _) as [[[]|e] h1] eqn:Hrun; [|discriminate].
  intros H; inversion H; subst h1. eapply constructor_Normal_inv; eassumption.
Qed.

Lemma new_ServerGroup_constructed state h :
  new_ServerGroup state = Normal h -> constructed (this h).
Proof.
  intros Hnew. apply new_ServerGroup_inv in Hnew
    as (pk & ac & ms & unrolled & _ & Hv & _ & _ & _ & _ & _ & ->).
  eexists. split; [reflexivity|]. split; [discriminate|].
  split; [|reflexivity].
  intros [|[|i]] entry Hnth; simpl in Hnth; try discriminate.
  inversion Hnth; subst. eexists; split; [reflexivity|]. exact Hv.
Qed.

Lemma versioned_snoc l entry s :
  versioned l ->
  IGroupChangeState.groupState entry = Some s ->
  IGroup.version s = Some (Z.of_nat (List.length l)) ->
  versioned (l ++ [entry]).
Proof.
  intros Hl Hs Hv i e Hnth.
  destruct (Nat.lt_ge_cases i (List.length l)) as [Hlt|Hge].
  - rewrite nth_error_app1 in Hnth by assumption. now apply Hl.
  - rewrite nth_error_app2 in Hnth by assumption.
    destruct (i - List.length l)%nat as [|k] eqn:Hk; simpl in Hnth.
    + inversion Hnth; subst e. exists s. split; [assumption|].
      rewrite Hv. do 2 f_equal. lia.
    + destruct k; discriminate.
Qed.

Lemma modify_constructed aci pni actions now h :
  constructed (this h) ->
  constructed (this (snd (modify aci pni actions now h))).
Proof.
  intros Hc.
  destruct (modify_cases aci pni actions now h)
    as [(e & h' & -> & Hh)|[(w & h' & s & v & _ & -> & _ & _ & _ & Hh)|
        (w & h1 & h' & s & v & Hprep & -> & Hs & Hv & Hnext & _ & Hh)]];
    simpl; try (rewrite Hh; exact Hc).
  destruct (constructed_snapshot _ Hc) as (l0 & entry & s0 & Hlog & _ & Hv0 & Hs0).
  destruct Hc as (l & Hl & Hne & Hver & Hpp).
  rewrite Hh. exists (change_log (this h) ++ [committed_entry w]).
  repeat split; simpl; try assumption.
  - intros Hnil. apply app_eq_nil in Hnil as [_ Hnil]. discriminate.
  - assert (Hll : change_log (this h) = l)
      by (unfold change_log; rewrite Hl; reflexivity).
    rewrite Hll. eapply versioned_snoc; [assumption|reflexivity|].
    rewrite (modify_prepare_version _ _ _ _ _ _ _ Hprep), Hnext.
    rewrite Hs0 in Hs. inversion Hs; subst s0. rewrite Hv0 in Hv.
    inversion Hv; subst v. f_equal.
    rewrite <- Hll, Hlog, length_app. simpl. lia.
Qed.

Lemma reachable_constructed h : reachable h -> constructed (this h).
Proof.
  induction 1 as [state h Hnew|h aci pni actions now _ IH].
  - eapply new_ServerGroup_constructed; eassumption.
  - now apply modify_constructed.
Qed.

End Reachable.

(** * The claims *)

Section Claims.

Context {zk : ZkGroup}.

(** The bundle names no sub-action of any kind. *)
Definition no_subaction (actions : IActions.t) : Prop :=
  IActions.modifyTitle actions = None /\
  IActions.deleteMembers actions ?? [] = [] /\
  IActions.addPendingMembers actions ?? [] = [] /\
  IActions.deletePendingMembers actions ?? [] = [] /\
  IActions.promotePendingMembers actions ?? [] = [] /\
  IActions.promoteMembersPendingPniAciProfileKey actions ?? [] = [].

(** C1, as the code has it.  On a group whose committed version is [v], a
    call to [modify] whose bundle declares another version than [v + 1]
    never commits: the instance, hence the change log and the committed
    snapshot, is the same after the call.  The call returns the Conflict
    result as a normal value exactly when the walk over the sub-actions
    that precedes the version check ends normally, and it throws the
    exception of that walk otherwise; with a non-zero version and no
    sub-action the walk ends normally, so the result is Conflict. *)
Theorem modify_version_mismatch aci pni actions now h s v :
  snapshot (this h) = Normal s ->
  IGroup.version s = Some v ->
  IActions.version actions <> Some (v + 1) ->
  this (snd (modify aci pni actions now h)) = this h /\
  fst (modify aci pni actions now h) =
    match fst (modify_prepare aci pni actions now h) with
    | Normal _ => Normal conflict_result
    | Throw e => Throw e
    end /\
  (truthy_number (IActions.version actions) = true ->
   no_subaction actions ->
   fst (modify aci pni actions now h) = Normal conflict_result).
Proof.
  intros Hs Hv Hne.
  assert (Hrun :
    this (snd (modify aci pni actions now h)) = this h /\
    fst (modify aci pni actions now h) =
      match fst (modify_prepare aci pni actions now h) with
      | Normal _ => Normal conflict_result
      | Throw e => Throw e
      end).
  { unfold modify, bind.
    pose proof (modify_prepare_this aci pni actions now h) as Hfr.
    destruct (modify_prepare aci pni actions now h) as [[w|e] h1];
      simpl in Hfr |- *; [|auto].
    rewrite <- Hfr in Hs. rewrite (modify_commit_run _ _ _ _ _ Hs Hv).
    unfold next_version.
    destruct (IActions.version actions) as [v'|]; [|simpl; auto].
    destruct (Z.eqb_spec v' (v + 1)) as [->|_]; [congruence|simpl; auto]. }
  destruct Hrun as [Hthis Hres]. repeat split; try assumption.
  intros Htruthy (Ht & H1 & H2 & H3 & H4 & H5).
  destruct (modify_prepare_no_subactions aci pni actions now h s
              Hs Htruthy Ht H1 H2 H3 H4 H5) as [w Hw].
  rewrite Hres, Hw. reflexivity.
Qed.

(** C2.  A call to [modify] that does not commit, whether it throws (a
    failed validation, a denied access, a failed verification of a
    credential) or returns the Conflict result, leaves the instance as it
    was: the same change log, hence the same committed snapshot.  A call
    that commits changes the instance by one append at the end of the
    change log and by nothing else. *)
Theorem modify_frame aci pni actions now h :
  match modify aci pni actions now h with
  | (Normal result, h') =>
      if conflict result
      then this h' = this h
      else exists entry,
             privChanges (this h') =
               Some (IGroupChanges.Build
                       (Some (change_log (this h) ++ [ entry ]))) /\
             privPublicParams (this h') = privPublicParams (this h)
  | (Throw _, h') => this h' = this h
  end.
Proof.
  destruct (modify_cases aci pni actions now h)
    as [(e & h' & -> & Hh)|[(w & h' & s & v & _ & -> & _ & _ & _ & Hh)|
        (w & h1 & h' & s & v & _ & -> & _ & _ & _ & _ & Hh)]];
    simpl; try assumption.
  exists (committed_entry w). rewrite Hh. simpl. split; reflexivity.
Qed.

(** C6.  [verifyAccess] allows whenever an affected identity is given and
    is the identity of the acting member, whatever the required level.
    Otherwise it allows under ANY, allows under MEMBER exactly when there
    is an acting member, allows under ADMINISTRATOR exactly when the role
    of the acting member is ADMINISTRATOR, and throws under UNSATISFIABLE
    and under UNKNOWN.  In every case the heap is the same afterwards. *)
Theorem verifyAccess_rule attribute member access affected h :
  let self_target :=
    exists m u, member = Some m /\ IMember.userId (val m) = Some u /\
                affected = Some u in
  let allows :=
    fst (verifyAccess attribute member access affected h) = Normal tt in
  let denies :=
    exists e, fst (verifyAccess attribute member access affected h) = Throw e in
  snd (verifyAccess attribute member access affected h) = h /\
  (self_target -> allows) /\
  (~ self_target ->
   match access with
   | AccessRequired.ANY => allows
   | AccessRequired.MEMBER => allows <-> member <> None
   | AccessRequired.ADMINISTRATOR =>
       allows <->
       optional_chain member (fun m => IMember.role (val m)) =
         Some Role.ADMINISTRATOR
   | AccessRequired.UNSATISFIABLE => denies
   | AccessRequired.UNKNOWN => denies
   end).
Proof.
  intros self_target allows denies.
  destruct (verifyAccess_run attribute member access affected h) as [Hh Hn].
  assert (Hself : affects_self member affected = true <-> self_target).
  { unfold affects_self, self_target, optional_chain. split.
    - destruct member as [m|]; [|discriminate].
      destruct (IMember.userId (val m)) as [u|] eqn:Hu; [|discriminate].
      destruct affected as [a|]; [|discriminate].
      intros H. apply Buffer_equals_eq in H. subst a. eauto.
    - intros (m & u & -> & Hu & ->). rewrite Hu. apply Buffer_equals_refl. }
  assert (Hallows : allows <-> access_allowed member access affected = true).
  { unfold allows. rewrite <- Hn.
    destruct (fst (verifyAccess attribute member access affected h)) as [[]|e];
      simpl; split; congruence. }
  assert (Hdenies : access_allowed member access affected = false -> denies).
  { unfold denies. rewrite <- Hn.
    destruct (fst (verifyAccess attribute member access affected h)) as [[]|e];
      simpl; [discriminate|eauto]. }
  split; [assumption|]. split.
  - intros Hs. apply Hallows. unfold access_allowed.
    apply Hself in Hs. rewrite Hs. reflexivity.
  - intros Hns.
    assert (Hf : affects_self member affected = false).
    { destruct (affects_self member affected); [|reflexivity].
      exfalso. apply Hns, Hself. reflexivity. }
    unfold access_allowed in Hallows, Hdenies. rewrite Hf in Hallows, Hdenies.
    simpl in Hallows, Hdenies.
    destruct access; try (apply Hdenies; reflexivity).
    + apply Hallows; reflexivity.
    + rewrite Hallows. destruct member; simpl; split; congruence.
    + rewrite Hallows. unfold is_administrator.
      destruct (optional_chain member (fun m => IMember.role (val m)))
        as [[]|]; simpl; split; congruence.
Qed.

End Claims.

Lemma Forall2_In_l {A B : Type} (R : A -> B -> Prop) (l : list A)
    (l' : list B) (x : A) :
  Forall2 R l l' -> In x l -> exists y, In y l' /\ R x y.
Proof.
  induction 1 as [|a b l l' Hab _ IH]; intros Hin; [destruct Hin|].
  destruct Hin as [->|Hin].
  - exists b. split; [left; reflexivity|assumption].
  - destruct (IH Hin) as (y & Hy & Hxy). exists y. split; [right|]; assumption.
Qed.

Section LogClaims.

Context {zk : ZkGroup}.

(** C8.  In every reachable instance the entry at index [i] of the change
    log holds a state whose version is [i].  A call to [modify] that
    commits appends one entry, whose state has the committed version plus
    one; any other call leaves the log as it is; so the entries that are
    in the log stay in it, at their index, unchanged. *)
Theorem change_log_versions h :
  reachable h ->
  (forall i entry,
     nth_error (change_log (this h)) i = Some entry ->
     exists s, IGroupChangeState.groupState entry = Some s /\
               IGroup.version s = Some (Z.of_nat i)) /\
  (forall aci pni actions now,
     match modify aci pni actions now h with
     | (Normal result, h') =>
         if conflict result
         then change_log (this h') = change_log (this h)
         else exists entry s' s v,
                change_log (this h') = change_log (this h) ++ [ entry ] /\
                IGroupChangeState.groupState entry = Some s' /\
                snapshot (this h) = Normal s /\
                IGroup.version s = Some v /\
                IGroup.version s' = Some (v + 1)
     | (Throw _, h') => change_log (this h') = change_log (this h)
     end).
Proof.
  intros Hr. split.
  - destruct (reachable_constructed h Hr) as (l & Hl & _ & Hv & _).
    unfold change_log. rewrite Hl. exact Hv.
  - intros aci pni actions now.
    destruct (modify_cases aci pni actions now h)
      as [(e & h' & -> & Hh)|[(w & h' & s & v & _ & -> & _ & _ & _ & Hh)|
          (w & h1 & h' & s & v & Hprep & -> & Hs & Hv & Hnext & _ & Hh)]];
      simpl; try (rewrite Hh; reflexivity).
    exists (committed_entry w), (newState w), s, v.
    rewrite Hh. unfold change_log at 1. simpl.
    repeat split; try assumption.
    rewrite (modify_prepare_version _ _ _ _ _ _ _ Hprep). exact Hnext.
Qed.

(** C9.  Construction throws, so that there is no instance, for an initial
    state whose version is not 0, or without a public key, or without an
    access control or with one that lacks one of its three levels, or with
    no member, or with a member whose presentation is absent, malformed or
    rejected by the verification.  When it succeeds, the members of the
    committed state are, one for one, those of the initial state, each with
    the identity and the profile key extracted from its own verified
    presentation. *)
Theorem construction state :
  (IGroup.version state <> Some 0 \/
   IGroup.publicKey state = None \/
   match IGroup.accessControl state with
   | Some ac =>
       IAccessControl.attributes ac = None \/
       IAccessControl.members ac = None \/
       IAccessControl.addFromInviteLink ac = None
   | None => True
   end \/
   IGroup.members state ?? [] = [] \/
   (exists publicKey m,
      IGroup.publicKey state = Some publicKey /\
      In m (IGroup.members state ?? []) /\
      presentation_verifies publicKey (val m) = false) ->
   exists e, new_ServerGroup state = Throw e) /\
  (forall h,
     new_ServerGroup state = Normal h ->
     exists publicKey s unrolled,
       IGroup.publicKey state = Some publicKey /\
       snapshot (this h) = Normal s /\
       IGroup.members s = Some unrolled /\
       Forall2 (fun input output =>
                  presentation_verifies publicKey (val input) = true /\
                  unrolled_from (val input) (val output))
               (IGroup.members state ?? []) unrolled).
Proof.
  split.
  - intros Hbad. destruct (new_ServerGroup state) as [h|e] eqn:Hnew; [|eauto].
    exfalso. apply new_ServerGroup_inv in Hnew
      as (pk & ac & ms & unrolled & Hpk & Hv & Hac & Hconf & Hms & Hne & Hall & _).
    destruct Hbad as [H|[H|[H|[H|(pk' & m & Hpk' & Hin & Hbad)]]]].
    + congruence.
    + congruence.
    + rewrite Hac in H. unfold configured in Hconf.
      destruct H as [H|[H|H]]; rewrite H in Hconf; simpl in Hconf;
        rewrite ?andb_false_r in Hconf; discriminate.
    + rewrite Hms in H. simpl in H. contradiction.
    + rewrite Hms in Hin. simpl in Hin.
      destruct (Forall2_In_l _ _ _ _ Hall Hin) as (y & _ & Hy & _).
      congruence.
  - intros h Hnew. apply new_ServerGroup_inv in Hnew
      as (pk & ac & ms & unrolled & Hpk & Hv & Hac & Hconf & Hms & Hne & Hall & ->).
    exists pk, (IGroup.with_members (Some unrolled) state), unrolled.
    rewrite Hms. simpl. repeat split; assumption || reflexivity.
Qed.

(** C10.  In every reachable instance the [state] accessor returns the
    state held by the last entry of the change log.  The constructor
    leaves a log of one entry, which holds the initial state with its
    verified members; a call to [modify] that commits puts its new
    snapshot at the tail, and that snapshot is what the accessor returns
    next. *)
Theorem state_is_log_tail h :
  reachable h ->
  (exists l entry s,
     change_log (this h) = l ++ [ entry ] /\
     IGroupChangeState.groupState entry = Some s /\
     state h = (Normal s, h)) /\
  (forall initial,
     new_ServerGroup initial = Normal h ->
     exists publicKey unrolled,
       IGroup.publicKey initial = Some publicKey /\
       Forall2 (fun input output =>
                  presentation_verifies publicKey (val input) = true /\
                  unrolled_from (val input) (val output))
               (IGroup.members initial ?? []) unrolled /\
       change_log (this h) =
         [ IGroupChangeState.Build None
             (Some (IGroup.with_members (Some unrolled) initial)) ]) /\
  (forall aci pni actions now,
     match modify aci pni actions now h with
     | (Normal result, h') =>
         conflict result = false ->
         exists entry s',
           change_log (this h') = change_log (this h) ++ [ entry ] /\
           IGroupChangeState.groupState entry = Some s' /\
           state h' = (Normal s', h')
     | (Throw _, _) => True
     end).
Proof.
  intros Hr. split; [|split].
  - destruct (constructed_snapshot _ (reachable_constructed h Hr))
      as (l & entry & s & Hlog & Hs & _ & Hsnap).
    exists l, entry, s. rewrite state_run, Hsnap. auto.
  - intros initial Hnew. apply new_ServerGroup_inv in Hnew
      as (pk & ac & ms & unrolled & Hpk & _ & _ & _ & Hms & _ & Hall & Hh).
    exists pk, unrolled. rewrite Hh, Hms. simpl. auto.
  - intros aci pni actions now.
    destruct (modify_cases aci pni actions now h)
      as [(e & h' & -> & Hh)|[(w & h' & s & v & _ & -> & _ & _ & _ & Hh)|
          (w & h1 & h' & s & v & Hprep & -> & Hs & Hv & Hnext & _ & Hh)]];
      simpl; [exact I|discriminate|].
    intros _. exists (committed_entry w), (newState w).
    rewrite state_run, Hh. unfold change_log at 1. simpl.
    repeat split.
    rewrite (snapshot_push _ _ _ (newState w)) by reflexivity. reflexivity.
Qed.

End LogClaims.

(** ** What a call that does not throw has checked *)

Section Accepted.

Context {zk : ZkGroup}.

Lemma affects_self_iff member affected :
  affects_self member affected = true <->
  exists m u, member = Some m /\ IMember.userId (val m) = Some u /\
              affected = Some u.
Proof.
  unfold affects_self, optional_chain. split.
  - destruct member as [m|]; [|discriminate].
    destruct (IMember.userId (val m)) as [u|] eqn:Hu; [|discriminate].
    destruct affected as [a|]; [|discriminate].
    intros H. apply Buffer_equals_eq in H. subst a. eauto.
  - intros (m & u & -> & Hu & ->). rewrite Hu. apply Buffer_equals_refl.
Qed.

Lemma throws_modify_of_prepare aci pni actions now h :
  throws (modify_prepare aci pni actions now) h ->
  throws (modify aci pni actions now) h.
Proof. apply throws_bind_l. Qed.

Lemma accepted_of_Normal {A S : Type} (body : S -> A -> M S)
    (accepts : A -> bool) (T : ServerGroup) (l : list A) :
  (forall s y, frames (body s y)) ->
  (forall s y h, this h = T -> is_normal (fst (body s y h)) = accepts y) ->
  forall s h s' h',
    this h = T -> for_of body l s h = (Normal s', h') ->
    forall x, In x l -> accepts x = true.
Proof.
  intros Hfr Hacc s h s' h' Hh Hrun x Hin.
  destruct (for_of_In_this body x l Hin Hfr s h s' h' Hrun)
    as (s1 & h1 & s2 & h2 & l2 & Hh1 & Hb & _).
  rewrite <- (Hacc s1 x h1) by congruence. rewrite Hb. reflexivity.
Qed.

(** After a normal walk, every delete-members sub-action of the bundle has
    passed its check against the committed snapshot. *)
Lemma prepare_deleteMember_accepts aci pni actions now h w h' s x :
  modify_prepare aci pni actions now h = (Normal w, h') ->
  snapshot (this h) = Normal s ->
  In x (IActions.deleteMembers actions ?? []) ->
  deleteMember_accepts s (find_member s aci) (IGroup.accessControl s) x = true.
Proof.
  intros Hrun Hs Hin. apply modify_prepare_Normal_inv in Hrun
    as (s' & w0 & h0 & w1 & h1 & w2 & h2 & w3 & h3 & w4 & h4 & _ & Hs' &
        _ & H1 & _ & _ & _ & _ & E0 & _).
  rewrite Hs in Hs'. inversion Hs'; subst s'.
  eapply (accepted_of_Normal _ _ (this h)); [| |exact E0|exact H1|exact Hin].
  - intros; apply frames_deleteMember.
  - intros a y hh Hhh. apply modify_deleteMember_accepts. now rewrite Hhh.
Qed.

Lemma prepare_addPendingMember_accepts aci pni actions now h w h' s x :
  modify_prepare aci pni actions now h = (Normal w, h') ->
  snapshot (this h) = Normal s ->
  In x (IActions.addPendingMembers actions ?? []) ->
  addPendingMember_accepts (find_member s aci) (IGroup.accessControl s) x =
    true.
Proof.
  intros Hrun Hs Hin. apply modify_prepare_Normal_inv in Hrun
    as (s' & w0 & h0 & w1 & h1 & w2 & h2 & w3 & h3 & w4 & h4 & _ & Hs' &
        _ & _ & H2 & _ & _ & _ & _ & E1 & _).
  rewrite Hs in Hs'. inversion Hs'; subst s'.
  eapply (accepted_of_Normal _ _ (this h)); [| |exact E1|exact H2|exact Hin].
  - intros; apply frames_addPendingMember.
  - intros a y hh Hhh. apply modify_addPendingMember_accepts.
Qed.

Lemma prepare_promotePendingMember_accepts aci pni actions now h w h' s
    params x :
  modify_prepare aci pni actions now h = (Normal w, h') ->
  snapshot (this h) = Normal s ->
  privPublicParams (this h) = Some params ->
  In x (IActions.promotePendingMembers actions ?? []) ->
  promotePendingMember_accepts s params aci x = true.
Proof.
  intros Hrun Hs Hp Hin. apply modify_prepare_Normal_inv in Hrun
    as (s' & w0 & h0 & w1 & h1 & w2 & h2 & w3 & h3 & w4 & h4 & _ & Hs' &
        _ & _ & _ & _ & H4 & _ & _ & _ & _ & E3 & _).
  eapply (accepted_of_Normal _ _ (this h)); [| |exact E3|exact H4|exact Hin].
  - intros; apply frames_promotePendingMember.
  - intros a y hh Hhh. apply modify_promotePendingMember_accepts;
      now rewrite Hhh.
Qed.

(** A call that does not throw went through the whole walk. *)
Lemma modify_Normal_prepare aci pni actions now h :
  ~ throws (modify aci pni actions now) h ->
  exists w h', modify_prepare aci pni actions now h = (Normal w, h').
Proof.
  intros Hnot.
  destruct (modify_prepare aci pni actions now h) as [[w|e] h1] eqn:Hrun;
    [eauto|].
  exfalso. apply Hnot, throws_modify_of_prepare. exists e.
  rewrite Hrun. reflexivity.
Qed.

Lemma throws_dec {A : Type} (m : M A) (h : Heap) :
  throws m h \/ ~ throws m h.
Proof.
  unfold throws. destruct (fst (m h)) as [a|e]; [right|left; eauto].
  intros [e He]; discriminate.
Qed.

End Accepted.

Section MemberClaims.

Context {zk : ZkGroup}.

(** C5, as the code has it.  When the members access level of the
    committed snapshot is UNSATISFIABLE, a call to [modify] throws if its
    bundle has an add-pending-member sub-action, and it throws if its
    bundle has a delete-member sub-action whose target is not the identity
    of the acting member; this holds for every caller, administrators
    included.  (A delete-member sub-action whose target is the acting
    member's own identity is let through by [verifyAccess].) *)
Theorem unsatisfiable_members aci pni actions now h s :
  snapshot (this h) = Normal s ->
  optional_chain (IGroup.accessControl s) IAccessControl.members =
    Some AccessRequired.UNSATISFIABLE ->
  (IActions.addPendingMembers actions ?? [] <> [] ->
   throws (modify aci pni actions now) h) /\
  (forall x,
     In x (IActions.deleteMembers actions ?? []) ->
     ~ (exists m u,
          find_member s aci = Some m /\ IMember.userId (val m) = Some u /\
          DeleteMemberAction.deletedUserId x = Some u) ->
     throws (modify aci pni actions now) h).
Proof.
  intros Hs Hlevel.
  assert (Hl : members_level (IGroup.accessControl s) =
               AccessRequired.UNSATISFIABLE)
    by (unfold members_level; rewrite Hlevel; reflexivity).
  split.
  - intros Hne.
    destruct (throws_dec (modify aci pni actions now) h) as [Ht|Hn];
      [assumption|exfalso].
    destruct (modify_Normal_prepare _ _ _ _ _ Hn) as (w & h' & Hrun).
    destruct (IActions.addPendingMembers actions ?? []) as [|x l] eqn:Hl';
      [contradiction|].
    assert (Hin : In x (IActions.addPendingMembers actions ?? []))
      by (rewrite Hl'; left; reflexivity).
    pose proof (prepare_addPendingMember_accepts _ _ _ _ _ _ _ _ _
                  Hrun Hs Hin) as Hacc.
    unfold addPendingMember_accepts in Hacc. rewrite Hl in Hacc.
    destruct (optional_chain (AddMemberPendingProfileKeyAction.added x)
                IMemberPendingProfileKey.member); [|discriminate].
    unfold access_allowed, affects_self in Hacc.
    destruct (optional_chain (find_member s aci)
                (fun m => IMember.userId (val m)));
      simpl in Hacc; rewrite andb_false_r in Hacc; discriminate.
  - intros x Hin Hnself.
    destruct (throws_dec (modify aci pni actions now) h) as [Ht|Hn];
      [assumption|exfalso].
    destruct (modify_Normal_prepare _ _ _ _ _ Hn) as (w & h' & Hrun).
    pose proof (prepare_deleteMember_accepts _ _ _ _ _ _ _ _ _
                  Hrun Hs Hin) as Hacc.
    unfold deleteMember_accepts in Hacc. rewrite Hl in Hacc.
    destruct (DeleteMemberAction.deletedUserId x) as [uid|] eqn:Huid;
      [|discriminate].
    apply andb_true_iff in Hacc as [Hacc _].
    apply andb_true_iff in Hacc as [Hacc _].
    unfold access_allowed in Hacc. rewrite orb_false_r in Hacc.
    apply affects_self_iff in Hacc as (m & u & Hm & Hu & Haff).
    apply Hnself. exists m, u. repeat split; congruence.
Qed.

(** The member with role DEFAULT and the identity and profile key of the
    presentation [p] is among the active members of [s]. *)
Definition promoted_in (p : bytes) (s : IGroup.t) : Prop :=
  exists a, In (promoted a p) (IGroup.members s ?? []).

(** The object [entry] is not among the pending members of [s]. *)
Definition not_pending_in (entry : obj IMemberPendingProfileKey.t)
    (s : IGroup.t) : Prop :=
  forall e, In e (IGroup.membersPendingProfileKey s ?? []) ->
            same_object e entry = false.

Lemma filter_without {A : Type} (x : obj A) (l : list (obj A)) (e : obj A) :
  In e (without x l) -> In e l /\ same_object e x = false.
Proof.
  unfold without. rewrite filter_In. intros [Hin Hneq].
  split; [assumption|]. now apply negb_true_iff.
Qed.

(** What a promotion establishes, promotions keep. *)
Lemma promotion_keeps p entry (m : obj IMember.t)
    (e' : obj IMemberPendingProfileKey.t) (s s' : IGroup.t) :
  s' = IGroup.with_members
         (Some ((IGroup.members s ?? []) ++ [ m ]))
         (IGroup.with_membersPendingProfileKey
            (Some (without e' (IGroup.membersPendingProfileKey s ?? [])))
            s) ->
  promoted_in p s /\ not_pending_in entry s ->
  promoted_in p s' /\ not_pending_in entry s'.
Proof.
  intros -> [[a Ha] Hnp]. split.
  - exists a. simpl. apply in_or_app. left. exact Ha.
  - intros e He. simpl in He. apply filter_without in He as [He _]. auto.
Qed.

(** The promote-pending-member sub-action, object by object.  On a
    constructed group, a bundle with such a sub-action makes [modify]
    throw if the presentation is absent, malformed or rejected by the
    verification, if the identity extracted from it is an active member
    of the committed snapshot, or if that identity is not pending in the
    committed snapshot.  When the call commits, the one pending object
    that the lookup found for that identity is no longer in the pending
    list of the new snapshot, and the active members of the new snapshot
    include a member with role DEFAULT, that identity, and the profile
    key extracted from the presentation.  Nothing is said here of another
    pending object with the same identity. *)
Theorem promote_pending_member aci pni actions now h s params x :
  snapshot (this h) = Normal s ->
  privPublicParams (this h) = Some params ->
  In x (IActions.promotePendingMembers actions ?? []) ->
  (verified params (PromoteMemberPendingProfileKeyAction.presentation x) =
     false ->
   throws (modify aci pni actions now) h) /\
  (forall p m,
     PromoteMemberPendingProfileKeyAction.presentation x = Some p ->
     find_member s (getUuidCiphertext p) = Some m ->
     throws (modify aci pni actions now) h) /\
  (forall p,
     PromoteMemberPendingProfileKeyAction.presentation x = Some p ->
     find_pending s (getUuidCiphertext p) = None ->
     throws (modify aci pni actions now) h) /\
  (forall result h',
     modify aci pni actions now h = (Normal result, h') ->
     conflict result = false ->
     exists p entry s',
       PromoteMemberPendingProfileKeyAction.presentation x = Some p /\
       verified params (Some p) = true /\
       find_pending s (getUuidCiphertext p) = Some entry /\
       snapshot (this h') = Normal s' /\
       not_pending_in entry s' /\
       promoted_in p s').
Proof.
  intros Hs Hp Hin.
  assert (Hacc : ~ throws (modify aci pni actions now) h ->
                 promotePendingMember_accepts s params aci x = true).
  { intros Hn. destruct (modify_Normal_prepare _ _ _ _ _ Hn) as (w & h' & Hrun).
    eapply prepare_promotePendingMember_accepts; eassumption. }
  repeat split.
  - intros Hbad.
    destruct (throws_dec (modify aci pni actions now) h) as [Ht|Hn];
      [assumption|exfalso].
    apply Hacc in Hn. unfold promotePendingMember_accepts in Hn.
    destruct (PromoteMemberPendingProfileKeyAction.presentation x) as [p|];
      [|discriminate].
    rewrite Hbad in Hn. discriminate.
  - intros p m Hpres Hm.
    destruct (throws_dec (modify aci pni actions now) h) as [Ht|Hn];
      [assumption|exfalso].
    apply Hacc in Hn. unfold promotePendingMember_accepts in Hn.
    rewrite Hpres, Hm in Hn. simpl in Hn. rewrite andb_false_r in Hn.
    discriminate.
  - intros p Hpres Hnone.
    destruct (throws_dec (modify aci pni actions now) h) as [Ht|Hn];
      [assumption|exfalso].
    apply Hacc in Hn. unfold promotePendingMember_accepts in Hn.
    rewrite Hpres, Hnone in Hn. simpl in Hn.
    rewrite andb_false_r in Hn. discriminate.
  - intros result h' Hrun Hconf.
    destruct (modify_cases aci pni actions now h)
      as [(e & h2 & He & _)|[(w & h2 & s2 & v & _ & He & _)|
          (w & h1 & h2 & s2 & v & Hprep & He & _ & _ & _ & _ & Hh)]];
      rewrite He in Hrun; inversion Hrun; subst; try discriminate.
    clear Hrun He Hconf.
    pose proof (prepare_promotePendingMember_accepts _ _ _ _ _ _ _ _ _ _
                  Hprep Hs Hp Hin) as Haccx.
    apply modify_prepare_Normal_inv in Hprep
      as (s' & w0 & h0 & w1 & hh1 & w2 & hh2 & w3 & h3 & w4 & h4 & _ & Hs' &
          _ & _ & _ & _ & H4 & H5 & _ & _ & _ & E3 & _).
    destruct (for_of_In_this _ x _ Hin
                (fun a y => frames_promotePendingMember aci a y)
                _ _ _ _ H4)
      as (a1 & g1 & a2 & g2 & l2 & Hg1 & Hbody & Hrest).
    apply modify_promotePendingMember_Normal_inv in Hbody
      as (p & sb & entry & Hpres & Hsb & Hentry & Hnew & _).
    rewrite Hg1, E3, Hs in Hsb. inversion Hsb; subst sb.
    set (P := fun w : Working =>
                promoted_in p (newState w) /\ not_pending_in entry (newState w)).
    assert (P2 : P a2).
    { unfold P. rewrite Hnew. split.
      - exists (next_addr g1). simpl. apply in_or_app. right. left. reflexivity.
      - intros e He. simpl in He. now apply filter_without in He as [_ He]. }
    assert (P4 : P w4).
    { eapply (for_of_invariant _ P); [|exact P2|exact Hrest].
      intros a y g a' g' Pa Hb.
      apply modify_promotePendingMember_Normal_inv in Hb
        as (? & ? & ? & _ & _ & _ & E & _).
      eapply promotion_keeps; [exact E|exact Pa]. }
    assert (Pw : P w).
    { eapply (for_of_invariant _ P); [|exact P4|exact H5].
      intros a y g a' g' Pa Hb.
      apply modify_promotePNIMember_Normal_inv in Hb
        as (? & ? & ? & _ & _ & _ & E & _).
      eapply promotion_keeps; [exact E|exact Pa]. }
    exists p, entry, (newState w). rewrite Hh.
    unfold promotePendingMember_accepts in Haccx. rewrite Hpres in Haccx.
    do 3 (apply andb_true_iff in Haccx as [Haccx _]).
    destruct Pw as [Pm Pp].
    repeat split; try assumption.
    now apply snapshot_push.
Qed.

End MemberClaims.

Section WorkingCopyClaims.

Context {zk : ZkGroup}.


End WorkingCopyClaims.

(** ** Allocation

    An object literal takes the address [next_addr], which is above the
    address of every object that the committed snapshot holds: a new
    object is never confused with one of them by [same_object]. *)

(** A computation after which no address has been given back. *)
Definition grows {A : Type} (m : M A) : Prop :=
  forall h, (next_addr h <= next_addr (snd (m h)))%nat.

(** Every object of the two lists of [s] has an address below
    [next_addr h]. *)
Definition allocated_in (h : Heap) (s : IGroup.t) : Prop :=
  Forall (fun o => (addr o < next_addr h)%nat) (IGroup.members s ?? []) /\
  Forall (fun o => (addr o < next_addr h)%nat)
         (IGroup.membersPendingProfileKey s ?? []).

Lemma grows_ret {A : Type} (a : A) : grows (ret a).
Proof. intros h; apply Nat.le_refl. Qed.

Lemma grows_throw {A : Type} (e : exn) : grows (@throw A e).
Proof. intros h; apply Nat.le_refl. Qed.

Lemma grows_bind {A B : Type} (m : M A) (f : A -> M B) :
  grows m -> (forall a, grows (f a)) -> grows (bind m f).
Proof.
  intros Hm Hf h. unfold bind. specialize (Hm h).
  destruct (m h) as [[a|e] h1]; simpl in *; [|assumption].
  eapply Nat.le_trans; [exact Hm|apply Hf].
Qed.

Lemma grows_assert_ok (b : bool) (msg : string) : grows (assert_ok b msg).
Proof. intros h; destruct b; apply Nat.le_refl. Qed.

Lemma grows_assert_present {A : Type} (o : option A) (msg : string) :
  grows (assert_present o msg).
Proof. intros h; destruct o; apply Nat.le_refl. Qed.

Lemma grows_new_object {A : Type} (v : A) : grows (new_object v).
Proof. intros h; simpl; apply Nat.le_succ_diag_r. Qed.

Lemma grows_state : grows state.
Proof. intros h; rewrite state_run; apply Nat.le_refl. Qed.

Lemma grows_publicParams : grows publicParams.
Proof. intros h; rewrite publicParams_run; apply Nat.le_refl. Qed.

Lemma grows_getMember (u : bytes) : grows (getMember u).
Proof. intros h; rewrite getMember_run; apply Nat.le_refl. Qed.

Lemma grows_getPendingMember (u : bytes) : grows (getPendingMember u).
Proof. intros h; rewrite getPendingMember_run; apply Nat.le_refl. Qed.

Lemma grows_for_of {A S : Type} (body : S -> A -> M S) (l : list A) :
  (forall s x, grows (body s x)) -> forall s, grows (for_of body l s).
Proof.
  intros Hb; induction l as [|x l IH]; intros s; simpl.
  - apply grows_ret.
  - apply grows_bind; auto.
Qed.

Create HintDb grows.

#[local] Hint Resolve grows_ret grows_throw grows_assert_ok
  grows_assert_present grows_new_object grows_state grows_publicParams
  grows_getMember grows_getPendingMember : grows.

Ltac grows_auto :=
  repeat first
    [ solve [ auto with grows ]
    | apply grows_bind; [ | intros ? ]
    | apply grows_for_of; intros ? ?
    | match goal with
      | |- grows (if ?b then _ else _) => destruct b
      | |- grows (match ?x with _ => _ end) => destruct x
      end ].

Lemma for_of_invariant_heap {A S : Type} (body : S -> A -> M S)
    (J : S -> Heap -> Prop) (l : list A) :
  (forall s x h s' h', J s h -> body s x h = (Normal s', h') -> J s' h') ->
  forall s h s' h', J s h -> for_of body l s h = (Normal s', h') -> J s' h'.
Proof.
  intros Hb. induction l as [|x l IH]; intros s h s' h' Hs Hrun; simpl in Hrun.
  - inversion Hrun; subst; assumption.
  - apply bind_Normal_inv in Hrun as (s1 & h1 & H1 & H2). eauto.
Qed.

Lemma allocated_in_allocated h s :
  allocated_in h s -> allocated_in (allocated h) s.
Proof.
  intros [Hm Hp]. split; eapply Forall_impl; try eassumption;
    simpl; intros o Ho; apply Nat.lt_lt_succ_r, Ho.
Qed.

Lemma allocated_in_le h h' s :
  (next_addr h <= next_addr h')%nat -> allocated_in h s -> allocated_in h' s.
Proof.
  intros Hle [Hm Hp]. split; eapply Forall_impl; try eassumption;
    simpl; intros o Ho; eapply Nat.lt_le_trans; eassumption.
Qed.

Lemma Forall_without {A : Type} (P : obj A -> Prop) (x : obj A)
    (l : list (obj A)) :
  Forall P l -> Forall P (without x l).
Proof.
  intros Hl. apply Forall_forall. intros o Ho.
  apply filter_without in Ho as [Ho _].
  now apply (proj1 (Forall_forall P l) Hl).
Qed.

Lemma Forall_snoc {A : Type} (P : A -> Prop) (l : list A) (x : A) :
  Forall P l -> P x -> Forall P (l ++ [x]).
Proof. intros Hl Hx. apply Forall_app. split; [assumption|]. now constructor. Qed.

Section Allocation.

Context {zk : ZkGroup}.

Lemma grows_modify_prepare aci pni actions now :
  grows (modify_prepare aci pni actions now).
Proof.
  unfold modify_prepare, modify_modifyTitle, modify_deleteMember,
    modify_addPendingMember, modify_deletePendingMember,
    modify_promotePendingMember, modify_promotePNIMember, verifyAccess,
    new_UuidCiphertext, new_ProfileKeyCredentialPresentation,
    verifyProfileKeyCredentialPresentation.
  grows_auto.
Qed.

Lemma modify_commit_next_addr actions w h :
  next_addr (snd (modify_commit actions w h)) = next_addr h.
Proof.
  unfold modify_commit, push_groupChange. run_body; reflexivity.
Qed.

Lemma grows_modify aci pni actions now :
  grows (modify aci pni actions now).
Proof.
  intros h. unfold modify, bind.
  pose proof (grows_modify_prepare aci pni actions now h) as Hg.
  destruct (modify_prepare aci pni actions now h) as [[w|e] h1];
    simpl in *; [|assumption].
  now rewrite modify_commit_next_addr.
Qed.

(** The working copy that [modify] builds holds allocated objects only. *)
Lemma modify_prepare_allocated aci pni actions now h w h' s :
  snapshot (this h) = Normal s ->
  allocated_in h s ->
  modify_prepare aci pni actions now h = (Normal w, h') ->
  allocated_in h' (newState w).
Proof.
  intros Hs Hal Hrun. apply modify_prepare_Normal_inv in Hrun
    as (s' & w0 & h0 & w1 & h1 & w2 & h2 & w3 & h3 & w4 & h4 & _ & Hs' &
        H0 & H1 & H2 & H3 & H4 & H5 & _).
  rewrite Hs in Hs'. inversion Hs'; subst s'.
  set (J := fun (w : Working) (h : Heap) => allocated_in h (newState w)).
  assert (J0 : J w0 h0).
  { apply modify_modifyTitle_Normal_inv in H0 as ([E|[t E]] & _ & ->);
      unfold J; rewrite E; exact Hal. }
  assert (J1 : J w1 h1).
  { eapply (for_of_invariant_heap _ J); [|exact J0|exact H1].
    intros a x g a' g' [Jm Jp] Hb.
    apply modify_deleteMember_Normal_inv in Hb
      as (? & ? & ? & _ & _ & _ & E & _ & ->).
    unfold J; rewrite E. split; simpl; [now apply Forall_without|exact Jp]. }
  assert (J2 : J w2 h2).
  { eapply (for_of_invariant_heap _ J); [|exact J1|exact H2].
    intros a x g a' g' Ja Hb.
    apply modify_addPendingMember_Normal_inv in Hb as (? & ? & _ & E & _ & ->).
    apply allocated_in_allocated in Ja as [Jm Jp].
    unfold J; rewrite E. split; simpl; [exact Jm|].
    apply Forall_snoc; [exact Jp|]. simpl. apply Nat.lt_succ_diag_r. }
  assert (J3 : J w3 h3).
  { eapply (for_of_invariant_heap _ J); [|exact J2|exact H3].
    intros a x g a' g' [Jm Jp] Hb.
    apply modify_deletePendingMember_Normal_inv in Hb
      as (? & ? & ? & _ & _ & _ & E & _ & ->).
    unfold J; rewrite E. split; simpl; [exact Jm|now apply Forall_without]. }
  assert (J4 : J w4 h4).
  { eapply (for_of_invariant_heap _ J); [|exact J3|exact H4].
    intros a x g a' g' Ja Hb.
    apply modify_promotePendingMember_Normal_inv in Hb
      as (? & ? & ? & _ & _ & _ & E & ->).
    apply allocated_in_allocated in Ja as [Jm Jp].
    unfold J; rewrite E. split; simpl.
    - apply Forall_snoc; [exact Jm|]. simpl. apply Nat.lt_succ_diag_r.
    - now apply Forall_without. }
  change (J w h'). eapply (for_of_invariant_heap _ J); [|exact J4|exact H5].
  intros a x g a' g' Ja Hb.
  apply modify_promotePNIMember_Normal_inv in Hb
    as (? & ? & ? & _ & _ & _ & E & ->).
  apply allocated_in_allocated in Ja as [Jm Jp].
  unfold J; rewrite E. split; simpl.
  - apply Forall_snoc; [exact Jm|]. simpl. apply Nat.lt_succ_diag_r.
  - now apply Forall_without.
Qed.

Lemma unrollMember_allocates m h y h' :
  unrollMember m h = (Normal y, h') ->
  addr y = next_addr h /\ h' = allocated h.
Proof.
  unfold unrollMember. run_body; intros Hrun; inversion Hrun; subst.
  split; reflexivity.
Qed.

Lemma array_map_unrollMember_allocates (l : list (obj IMember.t)) h ys h' :
  array_map (fun member => unrollMember (val member)) l h = (Normal ys, h') ->
  (next_addr h <= next_addr h')%nat /\
  Forall (fun o => (addr o < next_addr h')%nat) ys.
Proof.
  revert h ys h'. induction l as [|x l IH]; intros h ys h' Hrun; simpl in Hrun.
  - inversion Hrun; subst. split; [apply Nat.le_refl|constructor].
  - apply bind_Normal_inv in Hrun as (y & h1 & Hy & Hrun).
    apply bind_Normal_inv in Hrun as (ys' & h2 & Hys & Hret).
    inversion Hret; subst. apply unrollMember_allocates in Hy as [Hy ->].
    apply IH in Hys as [Hle Hall]. simpl in Hle. split; [lia|].
    constructor; [lia|assumption].
Qed.

Lemma addr_bound_above state :
  Forall (fun o => (addr o < addr_bound state)%nat)
         (IGroup.membersPendingProfileKey state ?? []).
Proof.
  unfold addr_bound. apply Forall_forall. intros o Ho.
  apply Nat.lt_succ_r.
  match goal with
  | |- (_ <= list_max ?l)%nat =>
      pose proof (proj1 (list_max_le l (list_max l)) (Nat.le_refl _)) as Hmax
  end.
  apply (proj1 (Forall_forall _ _) Hmax).
  apply in_or_app. right. now apply in_map.
Qed.

Lemma new_ServerGroup_allocated initial h s :
  new_ServerGroup initial = Normal h ->
  snapshot (this h) = Normal s ->
  allocated_in h s.
Proof.
  unfold new_ServerGroup.
  destruct (constructor initial _) as [[[]|e] h1] eqn:Hrun; [|discriminate].
  intros Hh; inversion Hh; subst h1; clear Hh.
  pose proof (addr_bound_above initial) as Hpending.
  revert Hrun. unfold constructor, new_GroupPublicParams, set_privPublicParams,
    set_privChanges.
  run_body; intros Hrun; inversion Hrun; subst; clear Hrun.
  unfold snapshot, state, changes, bind; simpl. intros Hs; inversion Hs; subst s.
  match goal with
  | H : array_map _ _ _ = _ |- _ =>
      apply array_map_unrollMember_allocates in H as [Hle Hall]
  end.
  split; simpl in *; [exact Hall|].
  eapply Forall_impl; [|exact Hpending].
  simpl. intros pending Hbelow. lia.
Qed.

(** In every reachable instance, the objects of the committed snapshot
    have addresses below [next_addr]. *)
Lemma reachable_allocated h s :
  reachable h -> snapshot (this h) = Normal s -> allocated_in h s.
Proof.
  intros Hr. revert s.
  induction Hr as [state h Hnew|h aci pni actions now Hr IH]; intros s Hs.
  - eapply new_ServerGroup_allocated; eassumption.
  - destruct (constructed_snapshot _ (reachable_constructed h Hr))
      as (_ & _ & s0 & _ & _ & _ & Hs0).
    specialize (IH s0 Hs0).
    pose proof (grows_modify aci pni actions now h) as Hg.
    destruct (modify_cases aci pni actions now h)
      as [(e & h' & He & Hh)|[(w & h' & s1 & v & _ & He & _ & _ & _ & Hh)|
          (w & h1 & h' & s1 & v & Hprep & He & _ & _ & _ & _ & Hh)]];
      rewrite He in Hs, Hg |- *; simpl in Hs, Hg |- *.
    + rewrite Hh, Hs0 in Hs. inversion Hs; subst s.
      eapply allocated_in_le; eassumption.
    + rewrite Hh, Hs0 in Hs. inversion Hs; subst s.
      eapply allocated_in_le; eassumption.
    + rewrite Hh in Hs.
      rewrite (snapshot_push _ _ _ (newState w)) in Hs by reflexivity.
      inversion Hs; subst s.
      pose proof (modify_prepare_allocated _ _ _ _ _ _ _ _ Hs0 IH Hprep) as Hw.
      eapply allocated_in_le; [|exact Hw].
      assert (E : next_addr h' = next_addr h1).
      { pose proof (modify_commit_next_addr actions w h1) as Hc.
        unfold modify, bind in He. rewrite Hprep in He. rewrite He in Hc.
        exact Hc. }
      rewrite E. apply Nat.le_refl.
Qed.

End Allocation.

(** * Runs on the sample group *)

Import Sample.

Lemma reachable_sample_group level : reachable (group level).
Proof.
  apply (reachable_new (initial level)). destruct level; reflexivity.
Qed.

Lemma reachable_group_with_alice_pending : reachable group_with_alice_pending.
Proof. apply reachable_modify, reachable_sample_group. Qed.

Lemma reachable_group_with_bob_pending : reachable group_with_bob_pending.
Proof. apply reachable_modify, reachable_sample_group. Qed.

(** C1 does not hold as the specification states it.  The committed
    version of the sample group is 0.  A bundle that declares version 0
    makes [modify] throw at its first assertion, and a bundle that declares
    version 5 and deletes Bob, who is not a member, makes it throw in the
    delete loop: neither call returns the Conflict result. *)
Lemma version_mismatch_throws :
  IGroup.version (committed admin_group) = Some 0 /\
  IActions.version (no_actions 0) <> Some (0 + 1) /\
  fst (modify alice alice (no_actions 0) 1000 admin_group) =
    Throw (AssertionError "Actions should have a new version") /\
  IActions.version (delete_member bob 5) <> Some (0 + 1) /\
  fst (modify alice alice (delete_member bob 5) 1000 admin_group) =
    Throw (AssertionError "Pending member not found for deletion").
Proof. repeat split; try reflexivity; discriminate. Qed.

(** On the sample group, at version 0, a bundle that declares version 5
    and has no sub-action gets the Conflict result and changes nothing. *)
Lemma modify_version_mismatch_witness :
  snapshot (this admin_group) = Normal (committed admin_group) /\
  IGroup.version (committed admin_group) = Some 0 /\
  IActions.version (no_actions 5) <> Some (0 + 1) /\
  this (snd (modify alice alice (no_actions 5) 1000 admin_group)) =
    this admin_group /\
  fst (modify alice alice (no_actions 5) 1000 admin_group) =
    Normal conflict_result.
Proof.
  assert (H1 : snapshot (this admin_group) = Normal (committed admin_group))
    by reflexivity.
  assert (H2 : IGroup.version (committed admin_group) = Some 0) by reflexivity.
  assert (H3 : IActions.version (no_actions 5) <> Some (0 + 1))
    by discriminate.
  destruct (modify_version_mismatch alice alice (no_actions 5) 1000
              admin_group (committed admin_group) 0 H1 H2 H3)
    as (Hthis & _ & Hconflict).
  split; [exact H1|]. split; [exact H2|]. split; [exact H3|].
  split; [exact Hthis|].
  apply Hconflict; [reflexivity|repeat split; reflexivity].
Defined.

(** C3 is broken by the code.  Alice, the administrator and only member
    of the sample group, puts her own identity among the pending members;
    the call commits, and in the committed snapshot her identity is both
    an active member and a pending member. *)
Lemma pending_and_active_after_invite :
  reachable group_with_alice_pending /\
  fst (modify alice alice (invite alice 1) 1000 admin_group) =
    Normal (applied_result
              {| newState := committed group_with_alice_pending;
                 appliedActions :=
                   IActions.with_addPendingMembers
                     (Some [ AddMemberPendingProfileKeyAction.Build
                               (Some (IMemberPendingProfileKey.Build
                                        (Some (IMember.Build
                                                 (Some Role.DEFAULT)
                                                 (Some alice) None None))
                                        (Some alice) (Some 1000))) ])
                     (IActions.with_sourceUuid (Some alice) (no_actions 1));
                 changeEpoch := 1 |}) /\
  snapshot (this group_with_alice_pending) =
    Normal (committed group_with_alice_pending) /\
  is_some (find_member (committed group_with_alice_pending) alice) = true /\
  is_some (find_pending (committed group_with_alice_pending) alice) = true.
Proof.
  split; [apply reachable_group_with_alice_pending|].
  repeat split; reflexivity.
Qed.



(** C5 does not hold as the specification states it.  In the group whose
    members level is UNSATISFIABLE, Alice deletes herself: the call
    commits, and the new snapshot has no active member at all. *)
Lemma self_delete_under_unsatisfiable :
  optional_chain (IGroup.accessControl (committed locked_group))
                 IAccessControl.members = Some AccessRequired.UNSATISFIABLE /\
  is_some (find_member (committed locked_group) alice) = true /\
  match modify alice alice (delete_member alice 1) 1000 locked_group with
  | (Normal result, h) =>
      conflict result = false /\
      snapshot (this h) = Normal (committed h) /\
      IGroup.version (committed h) = Some 1 /\
      IGroup.members (committed h) = Some []
  | (Throw _, _) => False
  end.
Proof.
  do 2 (split; [reflexivity|]). vm_compute. repeat split; reflexivity.
Qed.

(** In the group whose members level is UNSATISFIABLE, Alice cannot invite
    Bob and Bob cannot delete Alice. *)
Lemma unsatisfiable_members_witness :
  snapshot (this locked_group) = Normal (committed locked_group) /\
  optional_chain (IGroup.accessControl (committed locked_group))
                 IAccessControl.members = Some AccessRequired.UNSATISFIABLE /\
  throws (modify alice alice (invite bob 1) 1000) locked_group /\
  throws (modify bob bob (delete_member alice 1) 1000) locked_group.
Proof.
  assert (H1 : snapshot (this locked_group) = Normal (committed locked_group))
    by reflexivity.
  assert (H2 : optional_chain (IGroup.accessControl (committed locked_group))
                 IAccessControl.members = Some AccessRequired.UNSATISFIABLE)
    by reflexivity.
  split; [exact H1|]. split; [exact H2|]. split.
  - apply (proj1 (unsatisfiable_members alice alice (invite bob 1) 1000
                    locked_group (committed locked_group) H1 H2)).
    discriminate.
  - apply (proj2 (unsatisfiable_members bob bob (delete_member alice 1) 1000
                    locked_group (committed locked_group) H1 H2)
             (DeleteMemberAction.Build (Some alice))).
    + left; reflexivity.
    + intros (m & u & Hm & _). discriminate Hm.
Defined.

(** Bob, whom Alice has invited, joins with his presentation: his pending
    entry is gone and he is an active member with role DEFAULT. *)
Lemma promote_pending_member_witness :
  snapshot (this group_with_bob_pending) =
    Normal (committed group_with_bob_pending) /\
  privPublicParams (this group_with_bob_pending) = Some [ x50 ] /\
  In (promote bob_presentation)
     (IActions.promotePendingMembers (join bob_presentation 2) ?? []) /\
  exists entry s',
    find_pending (committed group_with_bob_pending) bob = Some entry /\
    snapshot (this (snd (modify bob bob (join bob_presentation 2) 2000
                                group_with_bob_pending))) = Normal s' /\
    not_pending_in entry s' /\
    promoted_in bob_presentation s'.
Proof.
  assert (H1 : snapshot (this group_with_bob_pending) =
               Normal (committed group_with_bob_pending)) by reflexivity.
  assert (H2 : privPublicParams (this group_with_bob_pending) = Some [ x50 ])
    by reflexivity.
  assert (H3 : In (promote bob_presentation)
                 (IActions.promotePendingMembers (join bob_presentation 2)
                    ?? [])) by (left; reflexivity).
  split; [exact H1|]. split; [exact H2|]. split; [exact H3|].
  destruct (promote_pending_member bob bob (join bob_presentation 2) 2000
              group_with_bob_pending (committed group_with_bob_pending)
              [ x50 ] (promote bob_presentation) H1 H2 H3)
    as (_ & _ & _ & Hcommit).
  destruct (modify bob bob (join bob_presentation 2) 2000
              group_with_bob_pending) as [[result|e] h'] eqn:Hrun;
    [|discriminate Hrun].
  destruct (Hcommit result h' eq_refl)
    as (p & entry & s' & Hp & _ & Hentry & Hs' & Hnp & Hin).
  - inversion Hrun. reflexivity.
  - inversion Hp; subst p. exists entry, s'. simpl. auto.
Defined.

(** Alice invites Bob a second time, and Bob joins. *)
Definition group_with_bob_pending_twice : Heap :=
  snd (modify alice alice (invite bob 2) 1500 group_with_bob_pending).

Definition group_with_bob_joined : Heap :=
  snd (modify bob bob (join bob_presentation 3) 3000
              group_with_bob_pending_twice).

Lemma reachable_group_with_bob_joined : reachable group_with_bob_joined.
Proof.
  apply reachable_modify, reachable_modify, reachable_group_with_bob_pending.
Qed.

(** C7 is broken by the code.  Alice invites Bob twice, in two calls that
    both commit, so that two pending objects have his identity.  Bob joins
    with his presentation: the call commits, Bob is an active member with
    role DEFAULT and the profile key of the presentation, and his identity
    is still pending, for the promotion has removed the one object that
    the lookup found.  The instance is then in the state that the
    promotion itself refuses: a second join by Bob throws 'Member is both
    pending and active'. *)
Lemma still_pending_after_promotion :
  reachable group_with_bob_joined /\
  List.length
    (IGroup.membersPendingProfileKey (committed group_with_bob_pending_twice)
       ?? []) = 2%nat /\
  match fst (modify bob bob (join bob_presentation 3) 3000
                    group_with_bob_pending_twice) with
  | Normal result => conflict result
  | Throw _ => true
  end = false /\
  snapshot (this group_with_bob_joined) =
    Normal (committed group_with_bob_joined) /\
  find_member (committed group_with_bob_joined) bob =
    Some (promoted 4 bob_presentation) /\
  is_some (find_pending (committed group_with_bob_joined) bob) = true /\
  fst (modify bob bob (join bob_presentation 4) 4000 group_with_bob_joined) =
    Throw (AssertionError "Member is both pending and active").
Proof.
  split; [apply reachable_group_with_bob_joined|].
  repeat split; reflexivity.
Qed.

(** The log of the group in which Alice has invited Bob is versioned. *)
Lemma change_log_versions_witness :
  reachable group_with_bob_pending /\
  forall i entry,
    nth_error (change_log (this group_with_bob_pending)) i = Some entry ->
    exists s, IGroupChangeState.groupState entry = Some s /\
              IGroup.version s = Some (Z.of_nat i).
Proof.
  split; [apply reachable_group_with_bob_pending|].
  apply (change_log_versions group_with_bob_pending
           reachable_group_with_bob_pending).
Defined.

(** In the group in which Alice has invited Bob, [state] returns the state
    of the last entry. *)
Lemma state_is_log_tail_witness :
  reachable group_with_bob_pending /\
  exists l entry s,
    change_log (this group_with_bob_pending) = l ++ [ entry ] /\
    IGroupChangeState.groupState entry = Some s /\
    state group_with_bob_pending = (Normal s, group_with_bob_pending).
Proof.
  split; [apply reachable_group_with_bob_pending|].
  apply (state_is_log_tail group_with_bob_pending
           reachable_group_with_bob_pending).
Defined.


(** * More of the two classes

    Properties of the parts of [Group] and [ServerGroup] that the claims
    above leave aside: the replay of the log, the lookups, the title, the
    pending members, the promotion across the identity spaces, the signed
    change, and what a call can and cannot do to the membership. *)

(** ** The replay of the log: [getChangesSince] *)

Lemma slice_suffix {A : Type} (start : Z) (l : list A) :
  exists prefix, l = prefix ++ slice start l.
Proof.
  unfold slice. eexists. symmetry. apply firstn_skipn.
Qed.

Lemma slice_nth_error {A : Type} (start : Z) (l : list A) (i : nat) :
  0 <= start ->
  nth_error (slice start l) i = nth_error l (Z.to_nat start + i).
Proof.
  intros Hs. unfold slice.
  destruct (Z.ltb_spec start 0) as [Hneg|_]; [lia|].
  rewrite nth_error_skipn.
  destruct (Z.le_gt_cases start (Z.of_nat (List.length l))) as [Hle|Hgt].
  - now rewrite Z.min_l by assumption.
  - rewrite Z.min_r by lia. rewrite Nat2Z.id.
    rewrite (proj2 (nth_error_None l (List.length l + i))) by lia.
    rewrite (proj2 (nth_error_None l (Z.to_nat start + i))) by lia.
    reflexivity.
Qed.

Lemma slice_length {A : Type} (start : Z) (l : list A) :
  Z.of_nat (List.length (slice start l)) =
  if start <? 0
  then Z.min (- start) (Z.of_nat (List.length l))
  else Z.max (Z.of_nat (List.length l) - start) 0.
Proof.
  unfold slice. rewrite length_skipn.
  destruct (Z.ltb_spec start 0); lia.
Qed.

Lemma slice_snoc {A : Type} (start : Z) (l : list A) (x : A) :
  0 <= start <= Z.of_nat (List.length l) ->
  slice start (l ++ [x]) = slice start l ++ [x].
Proof.
  intros Hs. unfold slice. rewrite length_app. simpl.
  destruct (Z.ltb_spec start 0) as [Hneg|_]; [lia|].
  rewrite !Z.min_l by lia. rewrite skipn_app.
  replace (Z.to_nat start - List.length l)%nat with 0%nat by lia.
  reflexivity.
Qed.

Section Replay.

Context {zk : ZkGroup}.

(** X1.  On a reachable instance [getChangesSince(since)] returns, without
    touching the instance, a suffix of the change log.  For [since >= 0] it
    holds the entries of the versions [since], [since + 1], ... up to the
    committed one, hence none when [since] is above the committed version;
    for [since < 0] it holds the last [- since] entries, or the whole log
    when there are fewer. *)
Theorem getChangesSince_suffix h since :
  reachable h ->
  exists result,
    getChangesSince since h =
      (Normal (IGroupChanges.Build (Some result)), h) /\
    (exists prefix, change_log (this h) = prefix ++ result) /\
    Z.of_nat (List.length result) =
      (if since <? 0
       then Z.min (- since) (Z.of_nat (List.length (change_log (this h))))
       else Z.max (Z.of_nat (List.length (change_log (this h))) - since) 0) /\
    (0 <= since ->
     forall i entry,
       nth_error result i = Some entry ->
       exists s, IGroupChangeState.groupState entry = Some s /\
                 IGroup.version s = Some (since + Z.of_nat i)).
Proof.
  intros Hr. destruct (reachable_constructed h Hr) as (l & Hl & _ & Hv & _).
  exists (slice since l).
  assert (Hlog : change_log (this h) = l)
    by (unfold change_log; rewrite Hl; reflexivity).
  rewrite Hlog. repeat split.
  - unfold getChangesSince, bind, changes. rewrite Hl. reflexivity.
  - apply slice_suffix.
  - apply slice_length.
  - intros Hs i entry Hnth. rewrite slice_nth_error in Hnth by assumption.
    destruct (Hv _ _ Hnth) as (s & Hs1 & Hs2). exists s. split; [assumption|].
    rewrite Hs2. f_equal. lia.
Qed.

(** X2.  After a call to [modify] that commits, a replay from an index of
    the old log returns what it returned before the call followed by the
    new entry; in particular the replay from the old length returns the
    new entry alone.  After any other call the replay is what it was. *)
Theorem getChangesSince_after_modify h aci pni actions now since :
  reachable h ->
  0 <= since <= Z.of_nat (List.length (change_log (this h))) ->
  exists before,
    fst (getChangesSince since h) =
      Normal (IGroupChanges.Build (Some before)) /\
    match modify aci pni actions now h with
    | (Normal result, h') =>
        if conflict result
        then fst (getChangesSince since h') =
               Normal (IGroupChanges.Build (Some before))
        else exists entry s',
               fst (getChangesSince since h') =
                 Normal (IGroupChanges.Build (Some (before ++ [ entry ]))) /\
               IGroupChangeState.groupState entry = Some s' /\
               state h' = (Normal s', h')
    | (Throw _, h') =>
        fst (getChangesSince since h') =
          Normal (IGroupChanges.Build (Some before))
    end.
Proof.
  intros Hr Hs. destruct (reachable_constructed h Hr) as (l & Hl & _ & Hv & _).
  assert (Hlog : change_log (this h) = l)
    by (unfold change_log; rewrite Hl; reflexivity).
  rewrite Hlog in Hs.
  assert (Hget : forall g, this g = this h ->
            fst (getChangesSince since g) =
              Normal (IGroupChanges.Build (Some (slice since l)))).
  { intros g Hg. unfold getChangesSince, bind, changes. rewrite Hg, Hl.
    reflexivity. }
  exists (slice since l). split; [now apply Hget|].
  destruct (modify_cases aci pni actions now h)
    as [(e & h' & -> & Hh)|[(w & h' & s & v & _ & -> & _ & _ & _ & Hh)|
        (w & h1 & h' & s & v & Hprep & -> & _ & _ & _ & _ & Hh)]];
    simpl; try now apply Hget.
  exists (committed_entry w), (newState w). repeat split.
  - unfold getChangesSince, bind, changes. rewrite Hh, Hlog. simpl.
    now rewrite slice_snoc.
  - rewrite state_run, Hh.
    rewrite (snapshot_push _ _ _ (newState w)) by reflexivity. reflexivity.
Qed.

End Replay.

(** ** Tools for the walk *)

(** A normal run of a loop keeps what each run of the body keeps; the
    body runs on elements of the list, from heaps that hold the same
    instance. *)
Lemma for_of_walk {A S : Type} (body : S -> A -> M S)
    (P : S -> Heap -> Prop) (T : ServerGroup) (l : list A) :
  (forall s y, frames (body s y)) ->
  (forall x s g s' g',
     In x l -> this g = T -> body s x g = (Normal s', g') ->
     P s g -> P s' g') ->
  forall s g s' g',
    this g = T -> for_of body l s g = (Normal s', g') -> P s g -> P s' g'.
Proof.
  intros Hfr. induction l as [|x l IH]; intros Hb s g s' g' Hg Hrun Hs;
    simpl in Hrun.
  - inversion Hrun; subst; assumption.
  - apply bind_Normal_inv in Hrun as (s1 & g1 & H1 & H2).
    eapply (IH (fun y a b a' b' Hy => Hb y a b a' b' (or_intror Hy)));
      [|exact H2|].
    + rewrite <- Hg. eapply frames_run; [apply Hfr|exact H1].
    + eapply Hb; [left; reflexivity|exact Hg|exact H1|exact Hs].
Qed.

Lemma find_member_Some s uid m :
  find_member s uid = Some m ->
  In m (IGroup.members s ?? []) /\ IMember.userId (val m) = Some uid.
Proof.
  unfold find_member. destruct (IGroup.members s) as [ms|]; [|discriminate].
  intros H. apply find_some in H as [Hin Heq]. split; [exact Hin|].
  destruct (IMember.userId (val m)) as [u|]; [|discriminate].
  apply Buffer_equals_eq in Heq. now subst.
Qed.

Lemma find_member_None s uid m :
  find_member s uid = None ->
  In m (IGroup.members s ?? []) -> IMember.userId (val m) <> Some uid.
Proof.
  unfold find_member. destruct (IGroup.members s) as [ms|]; simpl;
    [|contradiction].
  intros H Hin Hu. pose proof (find_none _ _ H m Hin) as Hf. simpl in Hf.
  rewrite Hu, Buffer_equals_refl in Hf. discriminate.
Qed.

(** The identity under which a pending entry is found. *)
Definition pending_userId (e : IMemberPendingProfileKey.t) : option bytes :=
  optional_chain (IMemberPendingProfileKey.member e) IMember.userId.

Lemma find_pending_Some s uid e :
  find_pending s uid = Some e ->
  In e (IGroup.membersPendingProfileKey s ?? []) /\
  pending_userId (val e) = Some uid.
Proof.
  unfold find_pending, pending_userId, optional_chain.
  destruct (IGroup.membersPendingProfileKey s) as [ps|]; [|discriminate].
  intros H. apply find_some in H as [Hin Heq]. split; [exact Hin|].
  destruct (IMemberPendingProfileKey.member (val e)) as [m|]; [|discriminate].
  destruct (IMember.userId m) as [u|]; [|discriminate].
  apply Buffer_equals_eq in Heq. now subst.
Qed.

Lemma find_pending_None s uid e :
  find_pending s uid = None ->
  In e (IGroup.membersPendingProfileKey s ?? []) ->
  pending_userId (val e) <> Some uid.
Proof.
  unfold find_pending, pending_userId, optional_chain.
  destruct (IGroup.membersPendingProfileKey s) as [ps|]; simpl;
    [|contradiction].
  intros H Hin Hu. pose proof (find_none _ _ H e Hin) as Hf. simpl in Hf.
  destruct (IMemberPendingProfileKey.member (val e)) as [m|]; [|discriminate].
  rewrite Hu, Buffer_equals_refl in Hf. discriminate.
Qed.

Lemma in_without {A : Type} (x e : obj A) (l : list (obj A)) :
  In e l -> same_object e x = false -> In e (without x l).
Proof.
  intros Hin Hneq. unfold without. apply filter_In. split; [exact Hin|].
  now rewrite Hneq.
Qed.

Lemma same_object_addr {A : Type} (a b : obj A) :
  same_object a b = true <-> addr a = addr b.
Proof. unfold same_object. apply Nat.eqb_eq. Qed.

Section WalkTools.

Context {zk : ZkGroup}.

(** What holds of the local variables at the entry of the walk and is kept
    by every sub-action holds at its end.  Each sub-action comes with the
    fact that it was accepted against the committed snapshot [s]. *)
Lemma modify_prepare_walk (P : Working -> Heap -> Prop)
    aci pni actions now h w h' s params :
  modify_prepare aci pni actions now h = (Normal w, h') ->
  snapshot (this h) = Normal s ->
  privPublicParams (this h) = Some params ->
  P (initial_working actions aci s) h ->
  (forall w0 g w1 g',
     modify_modifyTitle (find_member s aci) (IGroup.accessControl s) actions
       w0 g = (Normal w1, g') ->
     P w0 g -> P w1 g') ->
  (forall x w0 g w1 g',
     In x (IActions.deleteMembers actions ?? []) ->
     deleteMember_accepts s (find_member s aci) (IGroup.accessControl s) x =
       true ->
     snapshot (this g) = Normal s ->
     modify_deleteMember (find_member s aci) (IGroup.accessControl s) w0 x g =
       (Normal w1, g') ->
     P w0 g -> P w1 g') ->
  (forall x w0 g w1 g',
     In x (IActions.addPendingMembers actions ?? []) ->
     addPendingMember_accepts (find_member s aci) (IGroup.accessControl s) x =
       true ->
     modify_addPendingMember aci (find_member s aci) (IGroup.accessControl s)
       now w0 x g = (Normal w1, g') ->
     P w0 g -> P w1 g') ->
  (forall x w0 g w1 g',
     In x (IActions.deletePendingMembers actions ?? []) ->
     deletePendingMember_accepts s aci pni x = true ->
     snapshot (this g) = Normal s ->
     modify_deletePendingMember aci pni w0 x g = (Normal w1, g') ->
     P w0 g -> P w1 g') ->
  (forall x w0 g w1 g',
     In x (IActions.promotePendingMembers actions ?? []) ->
     promotePendingMember_accepts s params aci x = true ->
     snapshot (this g) = Normal s ->
     modify_promotePendingMember aci w0 x g = (Normal w1, g') ->
     P w0 g -> P w1 g') ->
  (forall x w0 g w1 g',
     In x (IActions.promoteMembersPendingPniAciProfileKey actions ?? []) ->
     promotePNIMember_accepts s params aci pni x = true ->
     snapshot (this g) = Normal s ->
     modify_promotePNIMember aci pni w0 x g = (Normal w1, g') ->
     P w0 g -> P w1 g') ->
  P w h'.
Proof.
  intros Hrun Hs Hp P0 Ht Hd Ha Hdp Hpr Hpni.
  apply modify_prepare_Normal_inv in Hrun
    as (s' & w0 & h0 & w1 & h1 & w2 & h2 & w3 & h3 & w4 & h4 & _ & Hs' &
        H0 & H1 & H2 & H3 & H4 & H5 & E0 & E1 & E2 & E3 & E4 & _).
  rewrite Hs in Hs'. inversion Hs'; subst s'. clear Hs'.
  assert (Hsnap : forall g, this g = this h -> snapshot (this g) = Normal s)
    by (intros g ->; exact Hs).
  assert (Hpar : forall g, this g = this h ->
                           privPublicParams (this g) = Some params)
    by (intros g ->; exact Hp).
  assert (Hnorm : forall (r : completion Working * Heap) a b,
            r = (Normal a, b) -> is_normal (fst r) = true)
    by (intros r a b ->; reflexivity).
  pose proof (Ht _ _ _ _ H0 P0) as P1.
  assert (P2 : P w1 h1).
  { eapply (for_of_walk _ P (this h)); [| |exact E0|exact H1|exact P1].
    - intros; apply frames_deleteMember.
    - intros x a g a' g' Hin Hg Hb Pa.
      apply (Hd x a g a' g' Hin); [|exact (Hsnap g Hg)|exact Hb|exact Pa].
      rewrite <- (modify_deleteMember_accepts _ _ a x g s (Hsnap g Hg)).
      eapply Hnorm; exact Hb. }
  assert (P3 : P w2 h2).
  { eapply (for_of_walk _ P (this h)); [| |exact E1|exact H2|exact P2].
    - intros; apply frames_addPendingMember.
    - intros x a g a' g' Hin Hg Hb Pa.
      apply (Ha x a g a' g' Hin); [|exact Hb|exact Pa].
      rewrite <- (modify_addPendingMember_accepts aci _ _ now a x g).
      eapply Hnorm; exact Hb. }
  assert (P4 : P w3 h3).
  { eapply (for_of_walk _ P (this h)); [| |exact E2|exact H3|exact P3].
    - intros; apply frames_deletePendingMember.
    - intros x a g a' g' Hin Hg Hb Pa.
      apply (Hdp x a g a' g' Hin); [|exact (Hsnap g Hg)|exact Hb|exact Pa].
      rewrite <- (modify_deletePendingMember_accepts _ _ a x g s (Hsnap g Hg)).
      eapply Hnorm; exact Hb. }
  assert (P5 : P w4 h4).
  { eapply (for_of_walk _ P (this h)); [| |exact E3|exact H4|exact P4].
    - intros; apply frames_promotePendingMember.
    - intros x a g a' g' Hin Hg Hb Pa.
      apply (Hpr x a g a' g' Hin); [|exact (Hsnap g Hg)|exact Hb|exact Pa].
      rewrite <- (modify_promotePendingMember_accepts _ a x g s params
                    (Hsnap g Hg) (Hpar g Hg)).
      eapply Hnorm; exact Hb. }
  eapply (for_of_walk _ P (this h)); [| |exact E4|exact H5|exact P5].
  - intros; apply frames_promotePNIMember.
  - intros x a g a' g' Hin Hg Hb Pa.
    apply (Hpni x a g a' g' Hin); [|exact (Hsnap g Hg)|exact Hb|exact Pa].
    rewrite <- (modify_promotePNIMember_accepts _ _ a x g s params
                  (Hsnap g Hg) (Hpar g Hg)).
    eapply Hnorm; exact Hb.
Qed.

(** A call that commits: the walk it went through and the heap it leaves. *)
Lemma modify_commit_inv aci pni actions now h result h' :
  modify aci pni actions now h = (Normal result, h') ->
  conflict result = false ->
  exists w h1 s v,
    modify_prepare aci pni actions now h = (Normal w, h1) /\
    result = applied_result w /\
    snapshot (this h) = Normal s /\
    IGroup.version s = Some v /\
    IActions.version actions = Some (v + 1) /\
    change_log (this h') = change_log (this h) ++ [ committed_entry w ] /\
    privPublicParams (this h') = privPublicParams (this h) /\
    snapshot (this h') = Normal (newState w) /\
    next_addr h' = next_addr h1.
Proof.
  intros Hrun Hconf.
  destruct (modify_cases aci pni actions now h)
    as [(e & h2 & He & _)|[(w & h2 & s & v & _ & He & _)|
        (w & h1 & h2 & s & v & Hprep & He & Hs & Hv & Hnext & _ & Hh)]];
    rewrite He in Hrun; inversion Hrun; subst; try discriminate.
  exists w, h1, s, v. rewrite Hh. unfold change_log at 1. simpl.
  repeat split; try assumption.
  - now apply snapshot_push.
  - pose proof (modify_commit_next_addr actions w h1) as Hc.
    unfold modify, bind in He. rewrite Hprep in He. rewrite He in Hc.
    exact Hc.
Qed.

End WalkTools.

(** ** Who is in the group after a call *)

(** In the list [l] an address belongs to one object. *)
Definition addresses_identify {A : Type} (l : list (obj A)) : Prop :=
  forall a b, In a l -> In b l -> addr a = addr b -> a = b.

Lemma addresses_identify_without {A : Type} (x : obj A) (l : list (obj A)) :
  addresses_identify l -> addresses_identify (without x l).
Proof.
  intros Hl a b Ha Hb. apply filter_without in Ha as [Ha _].
  apply filter_without in Hb as [Hb _]. now apply Hl.
Qed.

Lemma addresses_identify_snoc {A : Type} (l : list (obj A)) (x : obj A)
    (n : nat) :
  addresses_identify l ->
  Forall (fun o => (addr o < n)%nat) l ->
  (n <= addr x)%nat ->
  addresses_identify (l ++ [x]).
Proof.
  intros Hl Hbelow Hx a b Ha Hb Hab.
  pose proof (proj1 (Forall_forall _ _) Hbelow) as Hlt.
  apply in_app_or in Ha as [Ha|[<-|[]]];
    apply in_app_or in Hb as [Hb|[<-|[]]].
  - now apply Hl.
  - specialize (Hlt a Ha). simpl in Hlt. lia.
  - specialize (Hlt b Hb). simpl in Hlt. lia.
  - reflexivity.
Qed.

Section Membership.

Context {zk : ZkGroup}.

(** A stronger reading of a normal run of the add-pending body: the entry
    that it appends, field by field. *)
Lemma modify_addPendingMember_entry aci auth ac ts w x h w' h' :
  modify_addPendingMember aci auth ac ts w x h = (Normal w', h') ->
  exists added member userId,
    AddMemberPendingProfileKeyAction.added x = Some added /\
    IMemberPendingProfileKey.member added = Some member /\
    IMember.userId member = Some userId /\
    newState w' =
      IGroup.with_membersPendingProfileKey
        (Some ((IGroup.membersPendingProfileKey (newState w) ?? []) ++
               [ Obj (next_addr h)
                   (IMemberPendingProfileKey.Build
                      (Some (IMember.Build (IMember.role member)
                                           (Some userId) None None))
                      (Some aci) (Some ts)) ]))
        (newState w) /\
    h' = allocated h.
Proof.
  unfold modify_addPendingMember. run_body; intros Hrun; inversion Hrun; subst.
  do 3 eexists. repeat split; try eassumption.
  repeat match goal with H : _ = Some _ |- _ => rewrite H end. reflexivity.
Qed.

(** X3.  After a call that commits, every active member of the new
    snapshot is either an object of the old snapshot's members, as it was,
    or a new member with role DEFAULT whose identity is the caller's
    primary identity and whose profile key comes from a presentation that
    verifies against the group's public parameters.  So a call adds nobody
    but its caller, never as an administrator, and changes the role or
    the key of no member. *)
Theorem modify_members_provenance aci pni actions now h s params result h' :
  snapshot (this h) = Normal s ->
  privPublicParams (this h) = Some params ->
  modify aci pni actions now h = (Normal result, h') ->
  conflict result = false ->
  exists s',
    snapshot (this h') = Normal s' /\
    forall m,
      In m (IGroup.members s' ?? []) ->
      In m (IGroup.members s ?? []) \/
      exists a p,
        m = Obj a (IMember.Build (Some Role.DEFAULT) (Some aci)
                                 (Some (getProfileKeyCiphertext p)) None) /\
        getUuidCiphertext p = aci /\
        verified params (Some p) = true.
Proof.
  intros Hs Hp Hrun Hconf.
  destruct (modify_commit_inv _ _ _ _ _ _ _ Hrun Hconf)
    as (w & h1 & s0 & v & Hprep & _ & _ & _ & _ & _ & _ & Hs' & _).
  exists (newState w). split; [exact Hs'|].
  set (P := fun (w : Working) (_ : Heap) =>
    forall m,
      In m (IGroup.members (newState w) ?? []) ->
      In m (IGroup.members s ?? []) \/
      exists a p,
        m = Obj a (IMember.Build (Some Role.DEFAULT) (Some aci)
                                 (Some (getProfileKeyCiphertext p)) None) /\
        getUuidCiphertext p = aci /\
        verified params (Some p) = true).
  change (P w h1).
  assert (Hpromote : forall w0 w1 g p (e : obj IMemberPendingProfileKey.t),
    P w0 g ->
    Buffer_equals (getUuidCiphertext p) aci = true ->
    verified params (Some p) = true ->
    newState w1 =
      IGroup.with_members
        (Some ((IGroup.members (newState w0) ?? []) ++
               [ promoted (next_addr g) p ]))
        (IGroup.with_membersPendingProfileKey
           (Some (without e
                    (IGroup.membersPendingProfileKey (newState w0) ?? [])))
           (newState w0)) ->
    P w1 (allocated g)).
  { intros w0 w1 g p e P0 Heq Hver E m Hm. rewrite E in Hm. simpl in Hm.
    apply Buffer_equals_eq in Heq.
    apply in_app_or in Hm as [Hm|[<-|[]]]; [now apply P0|].
    right. exists (next_addr g), p. unfold promoted. rewrite Heq. auto. }
  eapply (modify_prepare_walk P); try eassumption.
  - intros m Hm. left. exact Hm.
  - intros w0 g w1 g' Hb P0.
    apply modify_modifyTitle_Normal_inv in Hb as ([E|[t E]] & _ & ->);
      intros m Hm; rewrite E in Hm; now apply P0.
  - intros x w0 g w1 g' _ _ _ Hb P0.
    apply modify_deleteMember_Normal_inv in Hb
      as (? & ? & ? & _ & _ & _ & E & _ & ->).
    intros m Hm. rewrite E in Hm. simpl in Hm.
    apply filter_without in Hm as [Hm _]. now apply P0.
  - intros x w0 g w1 g' _ _ Hb P0.
    apply modify_addPendingMember_Normal_inv in Hb as (? & ? & _ & E & _ & ->).
    intros m Hm. rewrite E in Hm. now apply P0.
  - intros x w0 g w1 g' _ _ _ Hb P0.
    apply modify_deletePendingMember_Normal_inv in Hb
      as (? & ? & ? & _ & _ & _ & E & _ & ->).
    intros m Hm. rewrite E in Hm. now apply P0.
  - intros x w0 g w1 g' _ Hacc _ Hb P0.
    apply modify_promotePendingMember_Normal_inv in Hb
      as (p & ? & e & Hpres & _ & _ & E & ->).
    unfold promotePendingMember_accepts in Hacc. rewrite Hpres in Hacc.
    do 2 (apply andb_true_iff in Hacc as [Hacc _]).
    apply andb_true_iff in Hacc as [Hver Heq].
    eapply Hpromote; eassumption.
  - intros x w0 g w1 g' _ Hacc _ Hb P0.
    apply modify_promotePNIMember_Normal_inv in Hb
      as (p & ? & e & Hpres & _ & _ & E & ->).
    unfold promotePNIMember_accepts in Hacc. rewrite Hpres in Hacc.
    do 2 (apply andb_true_iff in Hacc as [Hacc _]).
    apply andb_true_iff in Hacc as [Hver Heq].
    eapply Hpromote; eassumption.
Qed.

(** X4.  After a call that commits, every pending entry of the new
    snapshot is either an object of the old snapshot's pending members or
    an entry that the call has added: it carries the identity and the role
    of an add-pending sub-action of the bundle, the caller's primary
    identity as [addedByUserId], and the clock reading of the call as
    [timestamp]. *)
Theorem modify_pending_provenance aci pni actions now h s params result h' :
  snapshot (this h) = Normal s ->
  privPublicParams (this h) = Some params ->
  modify aci pni actions now h = (Normal result, h') ->
  conflict result = false ->
  exists s',
    snapshot (this h') = Normal s' /\
    forall e,
      In e (IGroup.membersPendingProfileKey s' ?? []) ->
      In e (IGroup.membersPendingProfileKey s ?? []) \/
      exists x added member userId,
        In x (IActions.addPendingMembers actions ?? []) /\
        AddMemberPendingProfileKeyAction.added x = Some added /\
        IMemberPendingProfileKey.member added = Some member /\
        IMember.userId member = Some userId /\
        val e = IMemberPendingProfileKey.Build
                  (Some (IMember.Build (IMember.role member) (Some userId)
                                       None None))
                  (Some aci) (Some now).
Proof.
  intros Hs Hp Hrun Hconf.
  destruct (modify_commit_inv _ _ _ _ _ _ _ Hrun Hconf)
    as (w & h1 & s0 & v & Hprep & _ & _ & _ & _ & _ & _ & Hs' & _).
  exists (newState w). split; [exact Hs'|].
  set (P := fun (w : Working) (_ : Heap) =>
    forall e,
      In e (IGroup.membersPendingProfileKey (newState w) ?? []) ->
      In e (IGroup.membersPendingProfileKey s ?? []) \/
      exists x added member userId,
        In x (IActions.addPendingMembers actions ?? []) /\
        AddMemberPendingProfileKeyAction.added x = Some added /\
        IMemberPendingProfileKey.member added = Some member /\
        IMember.userId member = Some userId /\
        val e = IMemberPendingProfileKey.Build
                  (Some (IMember.Build (IMember.role member) (Some userId)
                                       None None))
                  (Some aci) (Some now)).
  change (P w h1).
  eapply (modify_prepare_walk P); try eassumption.
  - intros e He. left. exact He.
  - intros w0 g w1 g' Hb P0.
    apply modify_modifyTitle_Normal_inv in Hb as ([E|[t E]] & _ & ->);
      intros e He; rewrite E in He; now apply P0.
  - intros x w0 g w1 g' _ _ _ Hb P0.
    apply modify_deleteMember_Normal_inv in Hb
      as (? & ? & ? & _ & _ & _ & E & _ & ->).
    intros e He. rewrite E in He. now apply P0.
  - intros x w0 g w1 g' Hin _ Hb P0.
    apply modify_addPendingMember_entry in Hb
      as (added & member & userId & Ha & Hm & Hu & E & ->).
    intros e He. rewrite E in He. simpl in He.
    apply in_app_or in He as [He|[<-|[]]]; [now apply P0|].
    right. exists x, added, member, userId. auto.
  - intros x w0 g w1 g' _ _ _ Hb P0.
    apply modify_deletePendingMember_Normal_inv in Hb
      as (? & ? & ? & _ & _ & _ & E & _ & ->).
    intros e He. rewrite E in He. simpl in He.
    apply filter_without in He as [He _]. now apply P0.
  - intros x w0 g w1 g' _ _ _ Hb P0.
    apply modify_promotePendingMember_Normal_inv in Hb
      as (p & ? & e0 & _ & _ & _ & E & ->).
    intros e He. rewrite E in He. simpl in He.
    apply filter_without in He as [He _]. now apply P0.
  - intros x w0 g w1 g' _ _ _ Hb P0.
    apply modify_promotePNIMember_Normal_inv in Hb
      as (p & ? & e0 & _ & _ & _ & E & ->).
    intros e He. rewrite E in He. simpl in He.
    apply filter_without in He as [He _]. now apply P0.
Qed.

(** X5.  A call removes no pending entry of somebody else.  When an
    address belongs to one pending entry of the committed snapshot, every
    pending entry whose identity is neither the primary nor the secondary
    identity of the caller is still pending after a call that commits,
    whoever the caller is. *)
Theorem modify_keeps_pending_of_others aci pni actions now h s params result
    h' e :
  snapshot (this h) = Normal s ->
  privPublicParams (this h) = Some params ->
  addresses_identify (IGroup.membersPendingProfileKey s ?? []) ->
  modify aci pni actions now h = (Normal result, h') ->
  conflict result = false ->
  In e (IGroup.membersPendingProfileKey s ?? []) ->
  pending_userId (val e) <> Some aci ->
  pending_userId (val e) <> Some pni ->
  exists s',
    snapshot (this h') = Normal s' /\
    In e (IGroup.membersPendingProfileKey s' ?? []).
Proof.
  intros Hs Hp Hid Hrun Hconf He Haci Hpni.
  destruct (modify_commit_inv _ _ _ _ _ _ _ Hrun Hconf)
    as (w & h1 & s0 & v & Hprep & _ & _ & _ & _ & _ & _ & Hs' & _).
  exists (newState w). split; [exact Hs'|].
  set (P := fun (w : Working) (_ : Heap) =>
              In e (IGroup.membersPendingProfileKey (newState w) ?? [])).
  change (P w h1).
  assert (Hstay : forall uid found l,
    find_pending s uid = Some found ->
    uid = aci \/ uid = pni ->
    In e l -> In e (without found l)).
  { intros uid found l Hfound Huid Hin. apply in_without; [exact Hin|].
    destruct (same_object e found) eqn:Hsame; [|reflexivity]. exfalso.
    apply same_object_addr in Hsame.
    apply find_pending_Some in Hfound as [Hfin Hfid].
    assert (e = found) by (now apply Hid). subst found.
    destruct Huid; subst uid; contradiction. }
  eapply (modify_prepare_walk P); try eassumption.
  - intros w0 g w1 g' Hb P0.
    apply modify_modifyTitle_Normal_inv in Hb as ([E|[t E]] & _ & ->);
      unfold P; rewrite E; exact P0.
  - intros x w0 g w1 g' _ _ _ Hb P0.
    apply modify_deleteMember_Normal_inv in Hb
      as (? & ? & ? & _ & _ & _ & E & _ & ->).
    unfold P; rewrite E; exact P0.
  - intros x w0 g w1 g' _ _ Hb P0.
    apply modify_addPendingMember_Normal_inv in Hb as (? & ? & _ & E & _ & ->).
    unfold P; rewrite E. simpl. apply in_or_app. left. exact P0.
  - intros x w0 g w1 g' _ Hacc Hg Hb P0.
    apply modify_deletePendingMember_Normal_inv in Hb
      as (uid & s1 & found & Hu & Hs1 & Hf & E & _ & ->).
    rewrite Hg in Hs1. inversion Hs1; subst s1.
    unfold deletePendingMember_accepts in Hacc. rewrite Hu in Hacc.
    do 2 (apply andb_true_iff in Hacc as [Hacc _]).
    unfold P; rewrite E. simpl. eapply Hstay; [exact Hf| |exact P0].
    apply orb_true_iff in Hacc as [H|H]; apply Buffer_equals_eq in H; auto.
  - intros x w0 g w1 g' _ Hacc Hg Hb P0.
    apply modify_promotePendingMember_Normal_inv in Hb
      as (p & s1 & found & Hpres & Hs1 & Hf & E & ->).
    rewrite Hg in Hs1. inversion Hs1; subst s1.
    unfold promotePendingMember_accepts in Hacc. rewrite Hpres in Hacc.
    do 2 (apply andb_true_iff in Hacc as [Hacc _]).
    apply andb_true_iff in Hacc as [_ Heq]. apply Buffer_equals_eq in Heq.
    unfold P; rewrite E. simpl. eapply Hstay; [exact Hf| |exact P0]. auto.
  - intros x w0 g w1 g' _ _ Hg Hb P0.
    apply modify_promotePNIMember_Normal_inv in Hb
      as (p & s1 & found & Hpres & Hs1 & Hf & E & ->).
    rewrite Hg in Hs1. inversion Hs1; subst s1.
    unfold P; rewrite E. simpl. eapply Hstay; [exact Hf| |exact P0]. auto.
Qed.

End Membership.

(** ** The walk, loop by loop *)

Section Loops.

Context {zk : ZkGroup}.

Lemma grows_run {A : Type} (m : M A) (h : Heap) (r : completion A)
    (h' : Heap) :
  grows m -> m h = (r, h') -> (next_addr h <= next_addr h')%nat.
Proof. intros Hg Hrun. specialize (Hg h). now rewrite Hrun in Hg. Qed.

Lemma grows_deleteMember auth ac w x : grows (modify_deleteMember auth ac w x).
Proof.
  unfold modify_deleteMember, verifyAccess, new_UuidCiphertext. grows_auto.
Qed.

Lemma grows_addPendingMember aci auth ac ts w x :
  grows (modify_addPendingMember aci auth ac ts w x).
Proof. unfold modify_addPendingMember, verifyAccess. grows_auto. Qed.

Lemma grows_deletePendingMember aci pni w x :
  grows (modify_deletePendingMember aci pni w x).
Proof. unfold modify_deletePendingMember, new_UuidCiphertext. grows_auto. Qed.

Lemma grows_promotePendingMember aci w x :
  grows (modify_promotePendingMember aci w x).
Proof.
  unfold modify_promotePendingMember, new_ProfileKeyCredentialPresentation,
    verifyProfileKeyCredentialPresentation. grows_auto.
Qed.

Lemma grows_promotePNIMember aci pni w x :
  grows (modify_promotePNIMember aci pni w x).
Proof.
  unfold modify_promotePNIMember, new_ProfileKeyCredentialPresentation,
    verifyProfileKeyCredentialPresentation. grows_auto.
Qed.

(** A normal run of the first part of [modify], with the heaps between
    the loops: they hold the same instance, and no address is given
    back. *)
Lemma modify_prepare_stages aci pni actions now h w h' s :
  modify_prepare aci pni actions now h = (Normal w, h') ->
  snapshot (this h) = Normal s ->
  exists w0 w1 h1 w2 h2 w3 h3 w4 h4,
    modify_modifyTitle (find_member s aci) (IGroup.accessControl s) actions
      (initial_working actions aci s) h = (Normal w0, h) /\
    for_of (modify_deleteMember (find_member s aci) (IGroup.accessControl s))
      (IActions.deleteMembers actions ?? []) w0 h = (Normal w1, h1) /\
    for_of (modify_addPendingMember aci (find_member s aci)
              (IGroup.accessControl s) now)
      (IActions.addPendingMembers actions ?? []) w1 h1 = (Normal w2, h2) /\
    for_of (modify_deletePendingMember aci pni)
      (IActions.deletePendingMembers actions ?? []) w2 h2 = (Normal w3, h3) /\
    for_of (modify_promotePendingMember aci)
      (IActions.promotePendingMembers actions ?? []) w3 h3 = (Normal w4, h4) /\
    for_of (modify_promotePNIMember aci pni)
      (IActions.promoteMembersPendingPniAciProfileKey actions ?? []) w4 h4 =
      (Normal w, h') /\
    (this h1 = this h /\ this h2 = this h /\ this h3 = this h /\
     this h4 = this h) /\
    (next_addr h <= next_addr h1 /\ next_addr h1 <= next_addr h2 /\
     next_addr h2 <= next_addr h3 /\ next_addr h3 <= next_addr h4 /\
     next_addr h4 <= next_addr h')%nat.
Proof.
  intros Hrun Hs. apply modify_prepare_Normal_inv in Hrun
    as (s' & w0 & h0 & w1 & h1 & w2 & h2 & w3 & h3 & w4 & h4 & _ & Hs' &
        H0 & H1 & H2 & H3 & H4 & H5 & E0 & E1 & E2 & E3 & E4 & _).
  rewrite Hs in Hs'. inversion Hs'; subst s'.
  assert (h0 = h)
    by (now apply modify_modifyTitle_Normal_inv in H0 as (_ & _ & ->)).
  subst h0. exists w0, w1, h1, w2, h2, w3, h3, w4, h4.
  repeat split; try assumption.
  - eapply grows_run; [|exact H1].
    apply grows_for_of; intros; apply grows_deleteMember.
  - eapply grows_run; [|exact H2].
    apply grows_for_of; intros; apply grows_addPendingMember.
  - eapply grows_run; [|exact H3].
    apply grows_for_of; intros; apply grows_deletePendingMember.
  - eapply grows_run; [|exact H4].
    apply grows_for_of; intros; apply grows_promotePendingMember.
  - eapply grows_run; [|exact H5].
    apply grows_for_of; intros; apply grows_promotePNIMember.
Qed.

(** The members of the working copy are touched by the delete-members loop
    and by the two promotion loops only; its pending members by the three
    other loops only. *)
Lemma loop_addPending_members aci auth ac ts l w g w' g' :
  for_of (modify_addPendingMember aci auth ac ts) l w g = (Normal w', g') ->
  IGroup.members (newState w') = IGroup.members (newState w).
Proof.
  intros Hrun.
  set (I := fun a : Working =>
              IGroup.members (newState a) =
                     IGroup.members (newState w)).
  change (I w'). eapply (for_of_invariant _ I);
    [|unfold I; reflexivity|exact Hrun].
  intros a x k a' k' Ia Hb.
  apply modify_addPendingMember_Normal_inv in Hb as (? & ? & _ & E & _).
  unfold I in *. rewrite E. exact Ia.
Qed.

Lemma loop_deletePending_members aci pni l w g w' g' :
  for_of (modify_deletePendingMember aci pni) l w g = (Normal w', g') ->
  IGroup.members (newState w') = IGroup.members (newState w).
Proof.
  intros Hrun.
  set (I := fun a : Working =>
              IGroup.members (newState a) =
                     IGroup.members (newState w)).
  change (I w'). eapply (for_of_invariant _ I);
    [|unfold I; reflexivity|exact Hrun].
  intros a x k a' k' Ia Hb.
  apply modify_deletePendingMember_Normal_inv in Hb
    as (? & ? & ? & _ & _ & _ & E & _).
  unfold I in *. rewrite E. exact Ia.
Qed.

Lemma loop_deleteMembers_pending auth ac l w g w' g' :
  for_of (modify_deleteMember auth ac) l w g = (Normal w', g') ->
  IGroup.membersPendingProfileKey (newState w') =
    IGroup.membersPendingProfileKey (newState w).
Proof.
  intros Hrun.
  set (I := fun a : Working =>
              IGroup.membersPendingProfileKey (newState a) =
                     IGroup.membersPendingProfileKey (newState w)).
  change (I w'). eapply (for_of_invariant _ I);
    [|unfold I; reflexivity|exact Hrun].
  intros a x k a' k' Ia Hb.
  apply modify_deleteMember_Normal_inv in Hb
    as (? & ? & ? & _ & _ & _ & E & _).
  unfold I in *. rewrite E. exact Ia.
Qed.

(** The two promotion loops only append to the members: what is in stays
    in, and what comes in is a new object of the caller's identity. *)
Lemma loop_promote_members aci l w g w' g' s params :
  snapshot (this g) = Normal s ->
  privPublicParams (this g) = Some params ->
  for_of (modify_promotePendingMember aci) l w g = (Normal w', g') ->
  forall m,
    (In m (IGroup.members (newState w) ?? []) ->
     In m (IGroup.members (newState w') ?? [])) /\
    (In m (IGroup.members (newState w') ?? []) ->
     In m (IGroup.members (newState w) ?? []) \/
     (next_addr g <= addr m)%nat /\
     IMember.userId (val m) = Some aci /\
     IMember.role (val m) = Some Role.DEFAULT /\
     find_member s aci = None).
Proof.
  intros Hs Hp Hrun m.
  set (P := fun (a : Working) (k : Heap) =>
    (next_addr g <= next_addr k)%nat /\
    (In m (IGroup.members (newState w) ?? []) ->
     In m (IGroup.members (newState a) ?? [])) /\
    (In m (IGroup.members (newState a) ?? []) ->
     In m (IGroup.members (newState w) ?? []) \/
     (next_addr g <= addr m)%nat /\
     IMember.userId (val m) = Some aci /\
     IMember.role (val m) = Some Role.DEFAULT /\
     find_member s aci = None)).
  assert (Pfinal : P w' g').
  { eapply (for_of_walk _ P (this g)); [| |reflexivity|exact Hrun|].
    - intros; apply frames_promotePendingMember.
    - intros x a k a' k' _ Hk Hb (Hle & Hin & Hout).
      assert (Hacc : promotePendingMember_accepts s params aci x = true).
      { rewrite <- (modify_promotePendingMember_accepts aci a x k s params)
          by (rewrite Hk; assumption).
        rewrite Hb. reflexivity. }
      apply modify_promotePendingMember_Normal_inv in Hb
        as (p & ? & e & Hpres & _ & _ & E & ->).
      unfold promotePendingMember_accepts in Hacc. rewrite Hpres in Hacc.
      apply andb_true_iff in Hacc as [Hacc Hnot].
      apply andb_true_iff in Hacc as [Hacc _].
      apply andb_true_iff in Hacc as [_ Heq]. apply Buffer_equals_eq in Heq.
      rewrite Heq in Hnot.
      assert (Hnone : find_member s aci = None)
        by (destruct (find_member s aci); [discriminate|reflexivity]).
      unfold P. rewrite E. simpl. repeat split.
      + lia.
      + intros Hm. apply in_or_app. left. now apply Hin.
      + intros Hm. apply in_app_or in Hm as [Hm|[<-|[]]]; [now apply Hout|].
        right. simpl. rewrite Heq. repeat split; assumption.
    - unfold P. repeat split; auto. }
  destruct Pfinal as (_ & Hin & Hout). split; assumption.
Qed.

Lemma loop_promotePNI_members aci pni l w g w' g' s params :
  snapshot (this g) = Normal s ->
  privPublicParams (this g) = Some params ->
  for_of (modify_promotePNIMember aci pni) l w g = (Normal w', g') ->
  forall m,
    (In m (IGroup.members (newState w) ?? []) ->
     In m (IGroup.members (newState w') ?? [])) /\
    (In m (IGroup.members (newState w') ?? []) ->
     In m (IGroup.members (newState w) ?? []) \/
     (next_addr g <= addr m)%nat /\
     IMember.userId (val m) = Some aci /\
     IMember.role (val m) = Some Role.DEFAULT /\
     find_member s aci = None).
Proof.
  intros Hs Hp Hrun m.
  set (P := fun (a : Working) (k : Heap) =>
    (next_addr g <= next_addr k)%nat /\
    (In m (IGroup.members (newState w) ?? []) ->
     In m (IGroup.members (newState a) ?? [])) /\
    (In m (IGroup.members (newState a) ?? []) ->
     In m (IGroup.members (newState w) ?? []) \/
     (next_addr g <= addr m)%nat /\
     IMember.userId (val m) = Some aci /\
     IMember.role (val m) = Some Role.DEFAULT /\
     find_member s aci = None)).
  assert (Pfinal : P w' g').
  { eapply (for_of_walk _ P (this g)); [| |reflexivity|exact Hrun|].
    - intros; apply frames_promotePNIMember.
    - intros x a k a' k' _ Hk Hb (Hle & Hin & Hout).
      assert (Hacc : promotePNIMember_accepts s params aci pni x = true).
      { rewrite <- (modify_promotePNIMember_accepts aci pni a x k s params)
          by (rewrite Hk; assumption).
        rewrite Hb. reflexivity. }
      apply modify_promotePNIMember_Normal_inv in Hb
        as (p & ? & e & Hpres & _ & _ & E & ->).
      unfold promotePNIMember_accepts in Hacc. rewrite Hpres in Hacc.
      apply andb_true_iff in Hacc as [Hacc Hnot].
      apply andb_true_iff in Hacc as [Hacc _].
      apply andb_true_iff in Hacc as [_ Heq]. apply Buffer_equals_eq in Heq.
      rewrite Heq in Hnot.
      assert (Hnone : find_member s aci = None)
        by (destruct (find_member s aci); [discriminate|reflexivity]).
      unfold P. rewrite E. simpl. repeat split.
      + lia.
      + intros Hm. apply in_or_app. left. now apply Hin.
      + intros Hm. apply in_app_or in Hm as [Hm|[<-|[]]]; [now apply Hout|].
        right. simpl. rewrite Heq. repeat split; assumption.
    - unfold P. repeat split; auto. }
  destruct Pfinal as (_ & Hin & Hout). split; assumption.
Qed.

(** The delete-members loop only removes: what is left was there, and an
    object that is left is none of those found for the targets. *)
Lemma loop_deleteMembers_members auth ac l w g w' g' s :
  snapshot (this g) = Normal s ->
  for_of (modify_deleteMember auth ac) l w g = (Normal w', g') ->
  forall m,
    In m (IGroup.members (newState w') ?? []) <->
    In m (IGroup.members (newState w) ?? []) /\
    forall x uid found,
      In x l ->
      DeleteMemberAction.deletedUserId x = Some uid ->
      find_member s uid = Some found ->
      same_object m found = false.
Proof.
  revert w g. induction l as [|x l IH]; intros w g Hsg Hrun m;
    simpl in Hrun.
  - inversion Hrun; subst. split; [|tauto].
    intros Hm. split; [exact Hm|]. intros ? ? ? [].
  - apply bind_Normal_inv in Hrun as (w1 & g1 & Hb & Hrest).
    apply modify_deleteMember_Normal_inv in Hb
      as (uid & s1 & found & Hu & Hs1 & Hf & E & _ & ->).
    rewrite Hsg in Hs1. inversion Hs1; subst s1.
    rewrite (IH w1 g Hsg Hrest m). rewrite E. simpl. split.
    + intros [Hm Hall]. apply filter_without in Hm as [Hm Hneq].
      split; [exact Hm|]. intros y uid' found' [<-|Hy] Hu' Hf'.
      * rewrite Hu in Hu'. inversion Hu'; subst uid'.
        rewrite Hf in Hf'. inversion Hf'; subst found'. exact Hneq.
      * eapply Hall; eassumption.
    + intros [Hm Hall]. split.
      * apply in_without; [exact Hm|].
        eapply Hall; [left; reflexivity|exact Hu|exact Hf].
      * intros y uid' found' Hy. apply Hall. right. exact Hy.
Qed.

End Loops.

Section PendingLoops.

Context {zk : ZkGroup}.

(** The entry that an add-pending sub-action makes for the caller [aci] at
    the clock reading [ts]. *)
Definition stamped (aci : bytes) (ts : Z)
    (x : AddMemberPendingProfileKeyAction.t)
    (e : IMemberPendingProfileKey.t) : Prop :=
  exists added member userId,
    AddMemberPendingProfileKeyAction.added x = Some added /\
    IMemberPendingProfileKey.member added = Some member /\
    IMember.userId member = Some userId /\
    e = IMemberPendingProfileKey.Build
          (Some (IMember.Build (IMember.role member) (Some userId) None None))
          (Some aci) (Some ts).

(** The add-pending loop only appends: what is pending stays pending, and
    each sub-action leaves a new entry. *)
Lemma loop_addPending_pending aci auth ac ts l w g w' g' :
  for_of (modify_addPendingMember aci auth ac ts) l w g = (Normal w', g') ->
  (forall e,
     In e (IGroup.membersPendingProfileKey (newState w) ?? []) ->
     In e (IGroup.membersPendingProfileKey (newState w') ?? [])) /\
  (forall e,
     In e (IGroup.membersPendingProfileKey (newState w') ?? []) ->
     In e (IGroup.membersPendingProfileKey (newState w) ?? []) \/
     (next_addr g <= addr e)%nat /\
     exists x, In x l /\ stamped aci ts x (val e)) /\
  (forall x,
     In x l ->
     exists e,
       In e (IGroup.membersPendingProfileKey (newState w') ?? []) /\
       (next_addr g <= addr e)%nat /\ stamped aci ts x (val e)).
Proof.
  revert w g. induction l as [|x l IH]; intros w g Hrun; simpl in Hrun.
  - inversion Hrun; subst. split; [auto|]. split; [auto|intros ? []].
  - apply bind_Normal_inv in Hrun as (w1 & g1 & Hb & Hrest).
    apply modify_addPendingMember_entry in Hb
      as (added & member & userId & Ha & Hm & Hu & E & ->).
    destruct (IH _ _ Hrest) as (Hkeep & Hfrom & Hnew). split; [|split].
    + intros e He. apply Hkeep. rewrite E. simpl. apply in_or_app. now left.
    + intros e He. destruct (Hfrom e He) as [Hold|(Hle & y & Hy & Hst)].
      * rewrite E in Hold. simpl in Hold.
        apply in_app_or in Hold as [Hold|[<-|[]]]; [now left|].
        right. simpl. split; [apply Nat.le_refl|].
        exists x. split; [now left|]. exists added, member, userId. auto.
      * right. simpl in Hle. split; [lia|]. exists y. split; [now right|].
        exact Hst.
    + intros y [<-|Hy].
      * eexists. split; [|split].
        -- apply Hkeep. rewrite E. simpl. apply in_or_app. right. left.
           reflexivity.
        -- simpl. apply Nat.le_refl.
        -- exists added, member, userId. auto.
      * destruct (Hnew y Hy) as (e & He & Hle & Hst). exists e.
        repeat split; try assumption. simpl in Hle. lia.
Qed.

(** The delete-pending loop only removes, and what it removes are the
    objects found for its targets. *)
Lemma loop_deletePending_pending aci pni l w g w' g' s :
  snapshot (this g) = Normal s ->
  for_of (modify_deletePendingMember aci pni) l w g = (Normal w', g') ->
  forall e,
    In e (IGroup.membersPendingProfileKey (newState w') ?? []) <->
    In e (IGroup.membersPendingProfileKey (newState w) ?? []) /\
    forall x uid found,
      In x l ->
      DeleteMemberPendingProfileKeyAction.deletedUserId x = Some uid ->
      find_pending s uid = Some found ->
      same_object e found = false.
Proof.
  revert w g. induction l as [|x l IH]; intros w g Hsg Hrun e;
    simpl in Hrun.
  - inversion Hrun; subst. split; [|tauto].
    intros He. split; [exact He|]. intros ? ? ? [].
  - apply bind_Normal_inv in Hrun as (w1 & g1 & Hb & Hrest).
    apply modify_deletePendingMember_Normal_inv in Hb
      as (uid & s1 & found & Hu & Hs1 & Hf & E & _ & ->).
    rewrite Hsg in Hs1. inversion Hs1; subst s1.
    rewrite (IH w1 g Hsg Hrest e). rewrite E. simpl. split.
    + intros [He Hall]. apply filter_without in He as [He Hneq].
      split; [exact He|]. intros y uid' found' [<-|Hy] Hu' Hf'.
      * rewrite Hu in Hu'. inversion Hu'; subst uid'.
        rewrite Hf in Hf'. inversion Hf'; subst found'. exact Hneq.
      * eapply Hall; eassumption.
    + intros [He Hall]. split.
      * apply in_without; [exact He|].
        eapply Hall; [left; reflexivity|exact Hu|exact Hf].
      * intros y uid' found' Hy. apply Hall. right. exact Hy.
Qed.

(** The promotion loop removes from the pending members the objects found
    for the identities of its presentations, and nothing else. *)
Lemma loop_promote_pending aci l w g w' g' s :
  snapshot (this g) = Normal s ->
  for_of (modify_promotePendingMember aci) l w g = (Normal w', g') ->
  forall e,
    In e (IGroup.membersPendingProfileKey (newState w') ?? []) <->
    In e (IGroup.membersPendingProfileKey (newState w) ?? []) /\
    forall x p found,
      In x l ->
      PromoteMemberPendingProfileKeyAction.presentation x = Some p ->
      find_pending s (getUuidCiphertext p) = Some found ->
      same_object e found = false.
Proof.
  revert w g. induction l as [|x l IH]; intros w g Hsg Hrun e;
    simpl in Hrun.
  - inversion Hrun; subst. split; [|tauto].
    intros He. split; [exact He|]. intros ? ? ? [].
  - apply bind_Normal_inv in Hrun as (w1 & g1 & Hb & Hrest).
    pose proof (frames_run _ _ _ _ (frames_promotePendingMember _ _ _) Hb)
      as Hg1.
    apply modify_promotePendingMember_Normal_inv in Hb
      as (p & s1 & found & Hu & Hs1 & Hf & E & ->).
    rewrite Hsg in Hs1. inversion Hs1; subst s1.
    assert (Hsg1 : snapshot (this (allocated g)) = Normal s)
      by (rewrite Hg1; exact Hsg).
    rewrite (IH w1 _ Hsg1 Hrest e). rewrite E. simpl. split.
    + intros [He Hall]. apply filter_without in He as [He Hneq].
      split; [exact He|]. intros y p' found' [<-|Hy] Hu' Hf'.
      * rewrite Hu in Hu'. inversion Hu'; subst p'.
        rewrite Hf in Hf'. inversion Hf'; subst found'. exact Hneq.
      * eapply Hall; eassumption.
    + intros [He Hall]. split.
      * apply in_without; [exact He|].
        eapply Hall; [left; reflexivity|exact Hu|exact Hf].
      * intros y p' found' Hy. apply Hall. right. exact Hy.
Qed.

(** The promotion loop across the identity spaces removes the object found
    for the secondary identity of the caller, and nothing else. *)
Lemma loop_promotePNI_pending aci pni l w g w' g' s :
  snapshot (this g) = Normal s ->
  for_of (modify_promotePNIMember aci pni) l w g = (Normal w', g') ->
  forall e,
    In e (IGroup.membersPendingProfileKey (newState w') ?? []) <->
    In e (IGroup.membersPendingProfileKey (newState w) ?? []) /\
    (l <> [] ->
     forall found, find_pending s pni = Some found ->
                   same_object e found = false).
Proof.
  revert w g. induction l as [|x l IH]; intros w g Hsg Hrun e;
    simpl in Hrun.
  - inversion Hrun; subst. split; [|tauto].
    intros He. split; [exact He|]. intros Hne. now contradiction Hne.
  - apply bind_Normal_inv in Hrun as (w1 & g1 & Hb & Hrest).
    pose proof (frames_run _ _ _ _ (frames_promotePNIMember _ _ _ _) Hb)
      as Hg1.
    apply modify_promotePNIMember_Normal_inv in Hb
      as (p & s1 & found & Hu & Hs1 & Hf & E & ->).
    rewrite Hsg in Hs1. inversion Hs1; subst s1.
    assert (Hsg1 : snapshot (this (allocated g)) = Normal s)
      by (rewrite Hg1; exact Hsg).
    rewrite (IH w1 _ Hsg1 Hrest e). rewrite E. simpl. split.
    + intros [He _]. apply filter_without in He as [He Hneq].
      split; [exact He|]. intros _ found' Hf'.
      rewrite Hf in Hf'. inversion Hf'; subst found'. exact Hneq.
    + intros [He Hall]. split.
      * apply in_without; [exact He|]. apply Hall; [discriminate|exact Hf].
      * intros _ found' Hf'. apply Hall; [discriminate|exact Hf'].
Qed.

(** The two promotion loops leave at least one member of the caller's
    identity, with role DEFAULT, when they have a sub-action. *)
Lemma loop_promote_member_exists aci l w g w' g' s params x :
  snapshot (this g) = Normal s ->
  privPublicParams (this g) = Some params ->
  for_of (modify_promotePendingMember aci) l w g = (Normal w', g') ->
  In x l ->
  exists p a,
    PromoteMemberPendingProfileKeyAction.presentation x = Some p /\
    In (promoted a p) (IGroup.members (newState w') ?? []).
Proof.
  intros Hs Hp Hrun Hin.
  destruct (for_of_In_this _ x l Hin
              (fun a y => frames_promotePendingMember aci a y) _ _ _ _ Hrun)
    as (w1 & g1 & w2 & g2 & l2 & Hg1 & Hb & Hrest).
  pose proof (frames_run _ _ _ _ (frames_promotePendingMember _ _ _) Hb)
    as Hg2.
  apply modify_promotePendingMember_Normal_inv in Hb
    as (p & ? & e & Hpres & _ & _ & E & ->).
  exists p, (next_addr g1). split; [exact Hpres|].
  eapply (proj1 (loop_promote_members aci l2 w2 _ w' g' s params _ _ Hrest _)).
  rewrite E. simpl. apply in_or_app. right. left. reflexivity.
  Unshelve.
  - rewrite Hg2, Hg1. exact Hs.
  - rewrite Hg2, Hg1. exact Hp.
Qed.

Lemma loop_promotePNI_member_exists aci pni l w g w' g' s params x :
  snapshot (this g) = Normal s ->
  privPublicParams (this g) = Some params ->
  for_of (modify_promotePNIMember aci pni) l w g = (Normal w', g') ->
  In x l ->
  exists p a,
    PromoteMemberPendingPniAciProfileKeyAction.presentation x = Some p /\
    In (promoted a p) (IGroup.members (newState w') ?? []).
Proof.
  intros Hs Hp Hrun Hin.
  destruct (for_of_In_this _ x l Hin
              (fun a y => frames_promotePNIMember aci pni a y) _ _ _ _ Hrun)
    as (w1 & g1 & w2 & g2 & l2 & Hg1 & Hb & Hrest).
  pose proof (frames_run _ _ _ _ (frames_promotePNIMember _ _ _ _) Hb)
    as Hg2.
  apply modify_promotePNIMember_Normal_inv in Hb
    as (p & ? & e & Hpres & _ & _ & E & ->).
  exists p, (next_addr g1). split; [exact Hpres|].
  eapply (proj1 (loop_promotePNI_members aci pni l2 w2 _ w' g' s params
                   _ _ Hrest _)).
  rewrite E. simpl. apply in_or_app. right. left. reflexivity.
  Unshelve.
  - rewrite Hg2, Hg1. exact Hs.
  - rewrite Hg2, Hg1. exact Hp.
Qed.

End PendingLoops.

(** ** The snapshot that a call commits *)

Section After.

Context {zk : ZkGroup}.

(** [m] is none of the objects found for the delete-members targets of the
    bundle. *)
Definition untargeted (s : IGroup.t) (actions : IActions.t)
    (m : obj IMember.t) : Prop :=
  forall x uid found,
    In x (IActions.deleteMembers actions ?? []) ->
    DeleteMemberAction.deletedUserId x = Some uid ->
    find_member s uid = Some found ->
    same_object m found = false.

(** [e] is none of the pending objects that the bundle removes: those
    found for its delete-pending targets, for the identities of its
    promotions, and for the secondary identity of the caller when it
    promotes across the identity spaces. *)
Definition unremoved (s : IGroup.t) (pni : bytes) (actions : IActions.t)
    (e : obj IMemberPendingProfileKey.t) : Prop :=
  (forall x uid found,
     In x (IActions.deletePendingMembers actions ?? []) ->
     DeleteMemberPendingProfileKeyAction.deletedUserId x = Some uid ->
     find_pending s uid = Some found ->
     same_object e found = false) /\
  (forall x p found,
     In x (IActions.promotePendingMembers actions ?? []) ->
     PromoteMemberPendingProfileKeyAction.presentation x = Some p ->
     find_pending s (getUuidCiphertext p) = Some found ->
     same_object e found = false) /\
  (IActions.promoteMembersPendingPniAciProfileKey actions ?? [] <> [] ->
   forall found, find_pending s pni = Some found ->
                 same_object e found = false).

Lemma modifyTitle_lists auth ac actions w g w' g' :
  modify_modifyTitle auth ac actions w g = (Normal w', g') ->
  IGroup.members (newState w') = IGroup.members (newState w) /\
  IGroup.membersPendingProfileKey (newState w') =
    IGroup.membersPendingProfileKey (newState w).
Proof.
  intros Hb. apply modify_modifyTitle_Normal_inv in Hb as ([E|[t E]] & _);
    rewrite E; split; reflexivity.
Qed.

(** The members of the working copy at the end of the walk. *)
Lemma prepare_members aci pni actions now h w h' s params :
  modify_prepare aci pni actions now h = (Normal w, h') ->
  snapshot (this h) = Normal s ->
  privPublicParams (this h) = Some params ->
  forall m,
    (In m (IGroup.members s ?? []) -> untargeted s actions m ->
     In m (IGroup.members (newState w) ?? [])) /\
    (In m (IGroup.members (newState w) ?? []) ->
     In m (IGroup.members s ?? []) /\ untargeted s actions m \/
     (next_addr h <= addr m)%nat /\
     IMember.userId (val m) = Some aci /\
     IMember.role (val m) = Some Role.DEFAULT /\
     find_member s aci = None).
Proof.
  intros Hrun Hs Hp m.
  destruct (modify_prepare_stages _ _ _ _ _ _ _ _ Hrun Hs)
    as (w0 & w1 & h1 & w2 & h2 & w3 & h3 & w4 & h4 &
        H0 & H1 & H2 & H3 & H4 & H5 & (E1 & E2 & E3 & E4) & Hle).
  apply modifyTitle_lists in H0 as [M0 _]. simpl in M0.
  pose proof (loop_deleteMembers_members _ _ _ _ _ _ _ s Hs H1 m) as D.
  rewrite M0 in D.
  pose proof (loop_addPending_members _ _ _ _ _ _ _ _ _ H2) as M2.
  pose proof (loop_deletePending_members _ _ _ _ _ _ _ H3) as M3.
  assert (S3 : snapshot (this h3) = Normal s) by (rewrite E3; exact Hs).
  assert (P3 : privPublicParams (this h3) = Some params)
    by (rewrite E3; exact Hp).
  assert (S4 : snapshot (this h4) = Normal s) by (rewrite E4; exact Hs).
  assert (P4 : privPublicParams (this h4) = Some params)
    by (rewrite E4; exact Hp).
  destruct (loop_promote_members _ _ _ _ _ _ s params S3 P3 H4 m)
    as [A4 B4].
  destruct (loop_promotePNI_members _ _ _ _ _ _ _ s params S4 P4 H5 m)
    as [A5 B5].
  rewrite M3, M2 in A4, B4. split.
  - intros Hm Hun. apply A5, A4, D. split; assumption.
  - intros Hm. destruct (B5 Hm) as [Hm4|(Hl & Hu & Hr & Hn)].
    + destruct (B4 Hm4) as [Hm1|(Hl & Hu & Hr & Hn)].
      * left. now apply D.
      * right. repeat split; try assumption. lia.
    + right. repeat split; try assumption. lia.
Qed.

(** The pending members of the working copy at the end of the walk. *)
Lemma prepare_pending aci pni actions now h w h' s :
  modify_prepare aci pni actions now h = (Normal w, h') ->
  snapshot (this h) = Normal s ->
  (forall e,
     In e (IGroup.membersPendingProfileKey s ?? []) ->
     unremoved s pni actions e ->
     In e (IGroup.membersPendingProfileKey (newState w) ?? [])) /\
  (forall e,
     In e (IGroup.membersPendingProfileKey (newState w) ?? []) ->
     unremoved s pni actions e /\
     (In e (IGroup.membersPendingProfileKey s ?? []) \/
      (next_addr h <= addr e)%nat /\
      exists x, In x (IActions.addPendingMembers actions ?? []) /\
                stamped aci now x (val e))) /\
  (forall x,
     In x (IActions.addPendingMembers actions ?? []) ->
     exists e,
       (next_addr h <= addr e)%nat /\ stamped aci now x (val e) /\
       (unremoved s pni actions e ->
        In e (IGroup.membersPendingProfileKey (newState w) ?? []))).
Proof.
  intros Hrun Hs.
  destruct (modify_prepare_stages _ _ _ _ _ _ _ _ Hrun Hs)
    as (w0 & w1 & h1 & w2 & h2 & w3 & h3 & w4 & h4 &
        H0 & H1 & H2 & H3 & H4 & H5 & (E1 & E2 & E3 & E4) & Hle).
  apply modifyTitle_lists in H0 as [_ M0]. simpl in M0.
  pose proof (loop_deleteMembers_pending _ _ _ _ _ _ _ H1) as M1.
  destruct (loop_addPending_pending _ _ _ _ _ _ _ _ _ H2)
    as (Akeep & Afrom & Anew).
  rewrite M1, M0 in Akeep, Afrom.
  assert (S2 : snapshot (this h2) = Normal s) by (rewrite E2; exact Hs).
  assert (S3 : snapshot (this h3) = Normal s) by (rewrite E3; exact Hs).
  assert (S4 : snapshot (this h4) = Normal s) by (rewrite E4; exact Hs).
  pose proof (loop_deletePending_pending _ _ _ _ _ _ _ s S2 H3) as D3.
  pose proof (loop_promote_pending _ _ _ _ _ _ s S3 H4) as D4.
  pose proof (loop_promotePNI_pending _ _ _ _ _ _ _ s S4 H5) as D5.
  assert (Hfinal : forall e,
    In e (IGroup.membersPendingProfileKey (newState w) ?? []) <->
    In e (IGroup.membersPendingProfileKey (newState w2) ?? []) /\
    unremoved s pni actions e).
  { intros e. rewrite D5, D4, D3. unfold unremoved. tauto. }
  split; [|split].
  - intros e He Hun. apply Hfinal. split; [now apply Akeep|exact Hun].
  - intros e He. apply Hfinal in He as [He Hun]. split; [exact Hun|].
    destruct (Afrom e He) as [Hold|(Hl & x & Hx & Hst)]; [now left|].
    right. split; [lia|]. eauto.
  - intros x Hx. destruct (Anew x Hx) as (e & He & Hl & Hst).
    exists e. split; [lia|]. split; [exact Hst|].
    intros Hun. apply Hfinal. split; assumption.
Qed.

End After.

Section MoreAccepted.

Context {zk : ZkGroup}.


Lemma prepare_promotePNIMember_accepts aci pni actions now h w h' s params x :
  modify_prepare aci pni actions now h = (Normal w, h') ->
  snapshot (this h) = Normal s ->
  privPublicParams (this h) = Some params ->
  In x (IActions.promoteMembersPendingPniAciProfileKey actions ?? []) ->
  promotePNIMember_accepts s params aci pni x = true.
Proof.
  intros Hrun Hs Hp Hin.
  destruct (modify_prepare_stages _ _ _ _ _ _ _ _ Hrun Hs)
    as (w0 & w1 & h1 & w2 & h2 & w3 & h3 & w4 & h4 &
        _ & _ & _ & _ & _ & H5 & (_ & _ & _ & E4) & _).
  eapply (accepted_of_Normal _ _ (this h)); [| |exact E4|exact H5|exact Hin].
  - intros; apply frames_promotePNIMember.
  - intros a y g Hg. apply modify_promotePNIMember_accepts; now rewrite Hg.
Qed.

(** A call that does not throw has found every sub-action acceptable:
    a sub-action that the check refuses makes the call throw. *)
Lemma throws_of_refused aci pni actions now h (accepted : bool) :
  (forall w h', modify_prepare aci pni actions now h = (Normal w, h') ->
                accepted = true) ->
  accepted = false ->
  throws (modify aci pni actions now) h.
Proof.
  intros Hacc Hno.
  destruct (throws_dec (modify aci pni actions now) h) as [Ht|Hn];
    [assumption|exfalso].
  destruct (modify_Normal_prepare _ _ _ _ _ Hn) as (w & h' & Hrun).
  rewrite (Hacc w h' Hrun) in Hno. discriminate.
Qed.

Lemma find_member_found s uid m :
  In m (IGroup.members s ?? []) ->
  IMember.userId (val m) = Some uid ->
  exists m', find_member s uid = Some m'.
Proof.
  intros Hin Hu. destruct (find_member s uid) as [m'|] eqn:Hf; [eauto|].
  exfalso. eapply find_member_None; eassumption.
Qed.

End MoreAccepted.

(** ** Deletions, additions and promotions, seen from the next call *)

Section Effects.

Context {zk : ZkGroup}.

Lemma array_map_unrollMember_identified (l : list (obj IMember.t)) h ys h' :
  array_map (fun member => unrollMember (val member)) l h = (Normal ys, h') ->
  addresses_identify ys /\
  Forall (fun o => (next_addr h <= addr o)%nat) ys.
Proof.
  revert h ys h'. induction l as [|x l IH]; intros h ys h' Hrun; simpl in Hrun.
  - inversion Hrun; subst. split; [intros ? ? []|constructor].
  - apply bind_Normal_inv in Hrun as (y & h1 & Hy & Hrun).
    apply bind_Normal_inv in Hrun as (ys' & h2 & Hys & Hret).
    inversion Hret; subst. apply unrollMember_allocates in Hy as [Hy ->].
    apply IH in Hys as [Hid Hall]. simpl in Hall.
    pose proof (proj1 (Forall_forall _ _) Hall) as Hge. split.
    + intros a b [<-|Ha] [<-|Hb] Hab; try reflexivity.
      * specialize (Hge b Hb). simpl in Hge. lia.
      * specialize (Hge a Ha). simpl in Hge. lia.
      * now apply Hid.
    + constructor; [lia|].
      eapply Forall_impl; [|exact Hall]. simpl. intros o Ho. lia.
Qed.

Lemma new_ServerGroup_members_identified initial h s :
  new_ServerGroup initial = Normal h ->
  snapshot (this h) = Normal s ->
  addresses_identify (IGroup.members s ?? []).
Proof.
  unfold new_ServerGroup.
  destruct (constructor initial _) as [[[]|e] h1] eqn:Hrun; [|discriminate].
  intros Hh; inversion Hh; subst h1; clear Hh.
  revert Hrun. unfold constructor, new_GroupPublicParams, set_privPublicParams,
    set_privChanges.
  run_body; intros Hrun; inversion Hrun; subst; clear Hrun.
  unfold snapshot, state, changes, bind; simpl. intros Hs; inversion Hs; subst s.
  match goal with
  | H : array_map _ _ _ = _ |- _ =>
      apply array_map_unrollMember_identified in H as [Hid _]
  end.
  exact Hid.
Qed.

(** In a reachable instance an address belongs to one member. *)
Lemma reachable_members_identified h s :
  reachable h -> snapshot (this h) = Normal s ->
  addresses_identify (IGroup.members s ?? []).
Proof.
  intros Hr. revert s.
  induction Hr as [initial h Hnew|h aci pni actions now Hr IH]; intros s Hs.
  - eapply new_ServerGroup_members_identified; eassumption.
  - destruct (constructed_snapshot _ (reachable_constructed h Hr))
      as (_ & _ & s0 & _ & _ & _ & Hs0).
    specialize (IH s0 Hs0).
    pose proof (reachable_allocated h s0 Hr Hs0) as [Hal _].
    destruct (reachable_constructed h Hr) as (_ & _ & _ & _ & Hpp).
    destruct (privPublicParams (this h)) as [params|] eqn:Hp; [|discriminate].
    destruct (modify_cases aci pni actions now h)
      as [(e & h' & He & Hh)|[(w & h' & s1 & v & _ & He & _ & _ & _ & Hh)|
          (w & h1 & h' & s1 & v & Hprep & He & _ & _ & _ & _ & Hh)]];
      rewrite He in Hs; simpl in Hs.
    + rewrite Hh, Hs0 in Hs. inversion Hs; subst s. exact IH.
    + rewrite Hh, Hs0 in Hs. inversion Hs; subst s. exact IH.
    + rewrite Hh in Hs.
      rewrite (snapshot_push _ _ _ (newState w)) in Hs by reflexivity.
      inversion Hs; subst s.
      set (P := fun (a : Working) (g : Heap) =>
        addresses_identify (IGroup.members (newState a) ?? []) /\
        Forall (fun o => (addr o < next_addr g)%nat)
               (IGroup.members (newState a) ?? [])).
      assert (Pw : P w h1); [|exact (proj1 Pw)].
      eapply (modify_prepare_walk P); try eassumption.
      * split; assumption.
      * intros w0 g w1 g' Hb P0.
        apply modifyTitle_lists in Hb as Hl. destruct Hl as [E _].
        apply modify_modifyTitle_Normal_inv in Hb as (_ & _ & ->).
        unfold P. rewrite E. exact P0.
      * intros x w0 g w1 g' _ _ _ Hb [Pid Pal].
        apply modify_deleteMember_Normal_inv in Hb
          as (? & ? & ? & _ & _ & _ & E & _ & ->).
        unfold P. rewrite E. simpl. split.
        -- now apply addresses_identify_without.
        -- now apply Forall_without.
      * intros x w0 g w1 g' _ _ Hb [Pid Pal].
        apply modify_addPendingMember_Normal_inv in Hb
          as (? & ? & _ & E & _ & ->).
        unfold P. rewrite E. simpl. split; [exact Pid|].
        eapply Forall_impl; [|exact Pal]. simpl. intros o Ho. lia.
      * intros x w0 g w1 g' _ _ _ Hb P0.
        apply modify_deletePendingMember_Normal_inv in Hb
          as (? & ? & ? & _ & _ & _ & E & _ & ->).
        unfold P. rewrite E. exact P0.
      * intros x w0 g w1 g' _ _ _ Hb [Pid Pal].
        apply modify_promotePendingMember_Normal_inv in Hb
          as (p & ? & e & _ & _ & _ & E & ->).
        unfold P. rewrite E. simpl. split.
        -- eapply addresses_identify_snoc; [exact Pid|exact Pal|].
           simpl. apply Nat.le_refl.
        -- apply Forall_snoc; [|simpl; lia].
           eapply Forall_impl; [|exact Pal]. simpl. intros o Ho. lia.
      * intros x w0 g w1 g' _ _ _ Hb [Pid Pal].
        apply modify_promotePNIMember_Normal_inv in Hb
          as (p & ? & e & _ & _ & _ & E & ->).
        unfold P. rewrite E. simpl. split.
        -- eapply addresses_identify_snoc; [exact Pid|exact Pal|].
           simpl. apply Nat.le_refl.
        -- apply Forall_snoc; [|simpl; lia].
           eapply Forall_impl; [|exact Pal]. simpl. intros o Ho. lia.
Qed.

End Effects.

Section EffectClaims.

Context {zk : ZkGroup}.

(** X6.  In a reachable instance, after a call that commits, the member
    object found for each delete-members target is no longer among the
    active members, and every member whose identity is not a target of
    the bundle is still there, as it was. *)
Theorem modify_deleteMembers_effect aci pni actions now h s result h' :
  reachable h ->
  snapshot (this h) = Normal s ->
  modify aci pni actions now h = (Normal result, h') ->
  conflict result = false ->
  exists s',
    snapshot (this h') = Normal s' /\
    (forall x uid,
       In x (IActions.deleteMembers actions ?? []) ->
       DeleteMemberAction.deletedUserId x = Some uid ->
       exists found,
         find_member s uid = Some found /\
         forall m, In m (IGroup.members s' ?? []) ->
                   same_object m found = false) /\
    (forall m,
       In m (IGroup.members s ?? []) ->
       (forall x, In x (IActions.deleteMembers actions ?? []) ->
                  DeleteMemberAction.deletedUserId x <>
                    IMember.userId (val m)) ->
       In m (IGroup.members s' ?? [])).
Proof.
  intros Hr Hs Hrun Hconf.
  destruct (modify_commit_inv _ _ _ _ _ _ _ Hrun Hconf)
    as (w & h1 & s0 & v & Hprep & _ & _ & _ & _ & _ & _ & Hs' & _).
  destruct (reachable_constructed h Hr) as (_ & _ & _ & _ & Hpp).
  destruct (privPublicParams (this h)) as [params|] eqn:Hp; [|discriminate].
  pose proof (reachable_allocated h s Hr Hs) as [Hal _].
  pose proof (reachable_members_identified h s Hr Hs) as Hid.
  pose proof (prepare_members _ _ _ _ _ _ _ _ _ Hprep Hs Hp) as Hmem.
  exists (newState w). split; [exact Hs'|]. split.
  - intros x uid Hx Hu.
    pose proof (prepare_deleteMember_accepts _ _ _ _ _ _ _ _ _ Hprep Hs Hx)
      as Hacc.
    unfold deleteMember_accepts in Hacc. rewrite Hu in Hacc.
    apply andb_true_iff in Hacc as [_ Hfound].
    destruct (find_member s uid) as [found|] eqn:Hf; [|discriminate].
    exists found. split; [reflexivity|]. intros m Hm.
    destruct (proj2 (Hmem m) Hm) as [[_ Hun]|(Hfresh & _)].
    + eapply Hun; eassumption.
    + apply find_member_Some in Hf as [Hfin _].
      pose proof (proj1 (Forall_forall _ _) Hal found Hfin) as Hlt.
      simpl in Hlt. unfold same_object. apply Nat.eqb_neq. lia.
  - intros m Hm Hnot. apply (proj1 (Hmem m)); [exact Hm|].
    intros x uid found Hx Hu Hf.
    destruct (same_object m found) eqn:Hsame; [|reflexivity]. exfalso.
    apply same_object_addr in Hsame.
    apply find_member_Some in Hf as [Hfin Hfu].
    assert (m = found) by (now apply Hid). subst found.
    apply (Hnot x Hx). congruence.
Qed.

(** X7.  After a call that commits a promotion, of either kind, the
    caller is an active member: [getMember] on the caller's primary
    identity returns a member with that identity and role DEFAULT. *)
Theorem getMember_after_promotion aci pni actions now h s params result h' :
  snapshot (this h) = Normal s ->
  privPublicParams (this h) = Some params ->
  modify aci pni actions now h = (Normal result, h') ->
  conflict result = false ->
  IActions.promotePendingMembers actions ?? [] <> [] \/
  IActions.promoteMembersPendingPniAciProfileKey actions ?? [] <> [] ->
  exists m,
    getMember aci h' = (Normal (Some m), h') /\
    IMember.userId (val m) = Some aci /\
    IMember.role (val m) = Some Role.DEFAULT.
Proof.
  intros Hs Hp Hrun Hconf Hsome.
  destruct (modify_commit_inv _ _ _ _ _ _ _ Hrun Hconf)
    as (w & h1 & s0 & v & Hprep & _ & _ & _ & _ & _ & _ & Hs' & _).
  pose proof (prepare_members _ _ _ _ _ _ _ _ _ Hprep Hs Hp) as Hmem.
  assert (Hin : exists m, In m (IGroup.members (newState w) ?? []) /\
                          IMember.userId (val m) = Some aci /\
                          find_member s aci = None).
  { destruct (modify_prepare_stages _ _ _ _ _ _ _ _ Hprep Hs)
      as (w0 & w1 & g1 & w2 & g2 & w3 & g3 & w4 & g4 &
          _ & _ & _ & _ & H4 & H5 & (_ & _ & E3 & E4) & _).
    assert (S3 : snapshot (this g3) = Normal s) by (rewrite E3; exact Hs).
    assert (P3 : privPublicParams (this g3) = Some params)
      by (rewrite E3; exact Hp).
    assert (S4 : snapshot (this g4) = Normal s) by (rewrite E4; exact Hs).
    assert (P4 : privPublicParams (this g4) = Some params)
      by (rewrite E4; exact Hp).
    destruct Hsome as [Hne|Hne].
    - destruct (IActions.promotePendingMembers actions ?? []) as [|x l] eqn:El;
        [contradiction|].
      assert (Hx : In x (IActions.promotePendingMembers actions ?? []))
        by (rewrite El; left; reflexivity).
      pose proof (prepare_promotePendingMember_accepts _ _ _ _ _ _ _ _ _ _
                    Hprep Hs Hp Hx) as Hacc.
      rewrite El in Hx.
      destruct (loop_promote_member_exists _ _ _ _ _ _ s params x S3 P3 H4 Hx)
        as (p & a & Hpres & Hina).
      unfold promotePendingMember_accepts in Hacc. rewrite Hpres in Hacc.
      apply andb_true_iff in Hacc as [Hacc Hnot].
      apply andb_true_iff in Hacc as [Hacc _].
      apply andb_true_iff in Hacc as [_ Heq]. apply Buffer_equals_eq in Heq.
      rewrite Heq in Hnot.
      exists (promoted a p). split; [|split].
      + now apply (proj1 (loop_promotePNI_members _ _ _ _ _ _ _ s params
                            S4 P4 H5 (promoted a p))).
      + simpl. now rewrite Heq.
      + destruct (find_member s aci); [discriminate|reflexivity].
    - destruct (IActions.promoteMembersPendingPniAciProfileKey actions ?? [])
        as [|x l] eqn:El; [contradiction|].
      assert (Hx : In x (IActions.promoteMembersPendingPniAciProfileKey
                           actions ?? []))
        by (rewrite El; left; reflexivity).
      pose proof (prepare_promotePNIMember_accepts _ _ _ _ _ _ _ _ _ _
                    Hprep Hs Hp Hx) as Hacc.
      rewrite El in Hx.
      destruct (loop_promotePNI_member_exists _ _ _ _ _ _ _ s params x
                  S4 P4 H5 Hx) as (p & a & Hpres & Hina).
      unfold promotePNIMember_accepts in Hacc. rewrite Hpres in Hacc.
      apply andb_true_iff in Hacc as [Hacc Hnot].
      apply andb_true_iff in Hacc as [Hacc _].
      apply andb_true_iff in Hacc as [_ Heq]. apply Buffer_equals_eq in Heq.
      rewrite Heq in Hnot.
      exists (promoted a p). split; [exact Hina|split].
      + simpl. now rewrite Heq.
      + destruct (find_member s aci); [discriminate|reflexivity]. }
  destruct Hin as (m0 & Hm0 & Hu0 & Hnone).
  destruct (find_member_found _ _ _ Hm0 Hu0) as (m & Hf).
  exists m. rewrite getMember_run, Hs', Hf. split; [reflexivity|].
  apply find_member_Some in Hf as [Hm Hu]. split; [exact Hu|].
  destruct (proj2 (Hmem m) Hm) as [[Hold _]|(_ & _ & Hrole & _)];
    [|exact Hrole].
  exfalso. eapply find_member_None; eassumption.
Qed.

(** X8.  When the committed snapshot has one member of identity [uid],
    a call that commits a delete-members sub-action of target [uid] leaves
    no member of that identity: [getMember] then returns nothing for
    [uid]. *)
Theorem getMember_after_delete aci pni actions now h s params result h' x uid :
  snapshot (this h) = Normal s ->
  privPublicParams (this h) = Some params ->
  (forall m1 m2,
     In m1 (IGroup.members s ?? []) -> In m2 (IGroup.members s ?? []) ->
     IMember.userId (val m1) = Some uid ->
     IMember.userId (val m2) = Some uid -> m1 = m2) ->
  modify aci pni actions now h = (Normal result, h') ->
  conflict result = false ->
  In x (IActions.deleteMembers actions ?? []) ->
  DeleteMemberAction.deletedUserId x = Some uid ->
  getMember uid h' = (Normal None, h').
Proof.
  intros Hs Hp Huniq Hrun Hconf Hx Hu.
  destruct (modify_commit_inv _ _ _ _ _ _ _ Hrun Hconf)
    as (w & h1 & s0 & v & Hprep & _ & _ & _ & _ & _ & _ & Hs' & _).
  pose proof (prepare_members _ _ _ _ _ _ _ _ _ Hprep Hs Hp) as Hmem.
  pose proof (prepare_deleteMember_accepts _ _ _ _ _ _ _ _ _ Hprep Hs Hx)
    as Hacc.
  unfold deleteMember_accepts in Hacc. rewrite Hu in Hacc.
  apply andb_true_iff in Hacc as [_ Hfound].
  destruct (find_member s uid) as [found|] eqn:Hf; [|discriminate].
  rewrite getMember_run, Hs'.
  destruct (find_member (newState w) uid) as [m|] eqn:Hfm; [|reflexivity].
  exfalso. apply find_member_Some in Hfm as [Hm Hmu].
  pose proof (find_member_Some _ _ _ Hf) as [Hfin Hfu].
  destruct (proj2 (Hmem m) Hm) as [[Hold Hun]|(_ & Haci & _ & Hnone)].
  - assert (m = found) by (now apply Huniq). subst m.
    specialize (Hun x uid found Hx Hu Hf).
    unfold same_object in Hun. rewrite Nat.eqb_refl in Hun. discriminate.
  - assert (uid = aci) by congruence. subst uid. congruence.
Qed.

(** X9.  In a reachable instance, after a call that commits, every
    add-pending sub-action of the bundle has its entry among the pending
    members: the identity and the role come from the sub-action,
    [addedByUserId] is the caller's primary identity and [timestamp] is
    the clock reading; a delete-pending or a promotion of the same
    bundle does not remove it. *)
Theorem modify_addPendingMembers_effect aci pni actions now h s result h' x :
  reachable h ->
  snapshot (this h) = Normal s ->
  modify aci pni actions now h = (Normal result, h') ->
  conflict result = false ->
  In x (IActions.addPendingMembers actions ?? []) ->
  exists s' e,
    snapshot (this h') = Normal s' /\
    In e (IGroup.membersPendingProfileKey s' ?? []) /\
    stamped aci now x (val e).
Proof.
  intros Hr Hs Hrun Hconf Hx.
  destruct (modify_commit_inv _ _ _ _ _ _ _ Hrun Hconf)
    as (w & h1 & s0 & v & Hprep & _ & _ & _ & _ & _ & _ & Hs' & _).
  pose proof (reachable_allocated h s Hr Hs) as [_ Hal].
  destruct (prepare_pending _ _ _ _ _ _ _ _ Hprep Hs) as (_ & _ & Hnew).
  destruct (Hnew x Hx) as (e & Hfresh & Hst & Hin).
  exists (newState w), e. split; [exact Hs'|]. split; [|exact Hst].
  apply Hin.
  assert (Hold : forall uid found,
            find_pending s uid = Some found -> same_object e found = false).
  { intros uid found Hf. apply find_pending_Some in Hf as [Hfin _].
    pose proof (proj1 (Forall_forall _ _) Hal found Hfin) as Hlt.
    simpl in Hlt. unfold same_object. apply Nat.eqb_neq. lia. }
  repeat split; intros; eapply Hold; eassumption.
Qed.

End EffectClaims.

(** ** Who may do what *)

Section Authorization.

Context {zk : ZkGroup}.

Definition attributes_level (ac : option IAccessControl.t)
    : AccessRequired.t :=
  optional_chain ac IAccessControl.attributes ?? AccessRequired.UNKNOWN.

Lemma prepare_modifyTitle_allowed aci pni actions now h w h' s t :
  modify_prepare aci pni actions now h = (Normal w, h') ->
  snapshot (this h) = Normal s ->
  IActions.modifyTitle actions = Some t ->
  access_allowed (find_member s aci)
                 (attributes_level (IGroup.accessControl s)) None = true.
Proof.
  intros Hrun Hs Ht.
  destruct (modify_prepare_stages _ _ _ _ _ _ _ _ Hrun Hs)
    as (w0 & w1 & h1 & w2 & h2 & w3 & h3 & w4 & h4 & H0 & _).
  unfold modify_modifyTitle in H0. rewrite Ht in H0.
  fold (attributes_level (IGroup.accessControl s)) in H0.
  destruct (verifyAccess_cases "title" (find_member s aci)
              (attributes_level (IGroup.accessControl s)) None h)
    as [[Hyes _]|[_ [e He]]]; [exact Hyes|].
  unfold bind in H0. rewrite He in H0. discriminate.
Qed.

(** What the access rule allows to a caller who is no member. *)
Lemma access_allowed_outsider level affected :
  access_allowed None level affected = true -> level = AccessRequired.ANY.
Proof. destruct level; simpl; try discriminate; reflexivity. Qed.

(** What the access rule allows, at level ADMINISTRATOR, to a member who
    is no administrator. *)
Lemma access_allowed_administrator member affected :
  is_administrator member = false ->
  access_allowed member AccessRequired.ADMINISTRATOR affected = true ->
  affects_self member affected = true.
Proof.
  unfold access_allowed. intros ->. now rewrite orb_false_r.
Qed.

(** X10.  A caller who is not an active member of the committed snapshot
    can change the title only when the attributes level is ANY, and can
    delete a member or add a pending member only when the members level
    is ANY: otherwise the call throws. *)
Theorem modify_by_outsider aci pni actions now h s :
  snapshot (this h) = Normal s ->
  find_member s aci = None ->
  (IActions.modifyTitle actions <> None ->
   attributes_level (IGroup.accessControl s) <> AccessRequired.ANY ->
   throws (modify aci pni actions now) h) /\
  (IActions.deleteMembers actions ?? [] <> [] ->
   members_level (IGroup.accessControl s) <> AccessRequired.ANY ->
   throws (modify aci pni actions now) h) /\
  (IActions.addPendingMembers actions ?? [] <> [] ->
   members_level (IGroup.accessControl s) <> AccessRequired.ANY ->
   throws (modify aci pni actions now) h).
Proof.
  intros Hs Hnone. repeat split.
  - intros Ht Hlevel.
    destruct (IActions.modifyTitle actions) as [t|] eqn:Et;
      [|now contradiction Ht].
    destruct (throws_dec (modify aci pni actions now) h) as [|Hn];
      [assumption|exfalso].
    destruct (modify_Normal_prepare _ _ _ _ _ Hn) as (w & h' & Hrun).
    pose proof (prepare_modifyTitle_allowed _ _ _ _ _ _ _ _ _ Hrun Hs Et)
      as Hacc.
    rewrite Hnone in Hacc. apply access_allowed_outsider in Hacc.
    contradiction.
  - intros Hne Hlevel.
    destruct (IActions.deleteMembers actions ?? []) as [|x l] eqn:El;
      [contradiction|].
    destruct (throws_dec (modify aci pni actions now) h) as [|Hn];
      [assumption|exfalso].
    destruct (modify_Normal_prepare _ _ _ _ _ Hn) as (w & h' & Hrun).
    assert (Hx : In x (IActions.deleteMembers actions ?? []))
      by (rewrite El; left; reflexivity).
    pose proof (prepare_deleteMember_accepts _ _ _ _ _ _ _ _ _ Hrun Hs Hx)
      as Hacc.
    unfold deleteMember_accepts in Hacc.
    destruct (DeleteMemberAction.deletedUserId x); [|discriminate].
    do 2 (apply andb_true_iff in Hacc as [Hacc _]).
    rewrite Hnone in Hacc. apply access_allowed_outsider in Hacc.
    contradiction.
  - intros Hne Hlevel.
    destruct (IActions.addPendingMembers actions ?? []) as [|x l] eqn:El;
      [contradiction|].
    destruct (throws_dec (modify aci pni actions now) h) as [|Hn];
      [assumption|exfalso].
    destruct (modify_Normal_prepare _ _ _ _ _ Hn) as (w & h' & Hrun).
    assert (Hx : In x (IActions.addPendingMembers actions ?? []))
      by (rewrite El; left; reflexivity).
    pose proof (prepare_addPendingMember_accepts _ _ _ _ _ _ _ _ _ Hrun Hs Hx)
      as Hacc.
    unfold addPendingMember_accepts in Hacc.
    destruct (optional_chain (AddMemberPendingProfileKeyAction.added x)
                IMemberPendingProfileKey.member); [|discriminate].
    apply andb_true_iff in Hacc as [_ Hacc].
    rewrite Hnone in Hacc. apply access_allowed_outsider in Hacc.
    contradiction.
Qed.

(** X11.  When a level is ADMINISTRATOR, a caller whose role is not
    ADMINISTRATOR cannot use it: the call throws if it changes the title
    under an ADMINISTRATOR attributes level, and, under an ADMINISTRATOR
    members level, if it adds a pending member or deletes a member other
    than the caller. *)
Theorem modify_by_non_administrator aci pni actions now h s :
  snapshot (this h) = Normal s ->
  is_administrator (find_member s aci) = false ->
  (IActions.modifyTitle actions <> None ->
   attributes_level (IGroup.accessControl s) = AccessRequired.ADMINISTRATOR ->
   throws (modify aci pni actions now) h) /\
  (forall x,
     In x (IActions.deleteMembers actions ?? []) ->
     DeleteMemberAction.deletedUserId x <> Some aci ->
     members_level (IGroup.accessControl s) = AccessRequired.ADMINISTRATOR ->
     throws (modify aci pni actions now) h) /\
  (IActions.addPendingMembers actions ?? [] <> [] ->
   members_level (IGroup.accessControl s) = AccessRequired.ADMINISTRATOR ->
   throws (modify aci pni actions now) h).
Proof.
  intros Hs Hrole. repeat split.
  - intros Ht Hlevel.
    destruct (IActions.modifyTitle actions) as [t|] eqn:Et;
      [|now contradiction Ht].
    destruct (throws_dec (modify aci pni actions now) h) as [|Hn];
      [assumption|exfalso].
    destruct (modify_Normal_prepare _ _ _ _ _ Hn) as (w & h' & Hrun).
    pose proof (prepare_modifyTitle_allowed _ _ _ _ _ _ _ _ _ Hrun Hs Et)
      as Hacc.
    rewrite Hlevel in Hacc.
    apply access_allowed_administrator in Hacc; [|exact Hrole].
    unfold affects_self in Hacc.
    destruct (optional_chain (find_member s aci)
                (fun m => IMember.userId (val m))); discriminate.
  - intros x Hx Hother Hlevel.
    destruct (throws_dec (modify aci pni actions now) h) as [|Hn];
      [assumption|exfalso].
    destruct (modify_Normal_prepare _ _ _ _ _ Hn) as (w & h' & Hrun).
    pose proof (prepare_deleteMember_accepts _ _ _ _ _ _ _ _ _ Hrun Hs Hx)
      as Hacc.
    unfold deleteMember_accepts in Hacc.
    destruct (DeleteMemberAction.deletedUserId x) as [uid|]; [|discriminate].
    do 2 (apply andb_true_iff in Hacc as [Hacc _]).
    rewrite Hlevel in Hacc.
    apply access_allowed_administrator in Hacc; [|exact Hrole].
    apply affects_self_iff in Hacc as (m & u & Hm & Hu & Haff).
    apply find_member_Some in Hm as [_ Hmu]. congruence.
  - intros Hne Hlevel.
    destruct (IActions.addPendingMembers actions ?? []) as [|x l] eqn:El;
      [contradiction|].
    destruct (throws_dec (modify aci pni actions now) h) as [|Hn];
      [assumption|exfalso].
    destruct (modify_Normal_prepare _ _ _ _ _ Hn) as (w & h' & Hrun).
    assert (Hx : In x (IActions.addPendingMembers actions ?? []))
      by (rewrite El; left; reflexivity).
    pose proof (prepare_addPendingMember_accepts _ _ _ _ _ _ _ _ _ Hrun Hs Hx)
      as Hacc.
    unfold addPendingMember_accepts in Hacc.
    destruct (optional_chain (AddMemberPendingProfileKeyAction.added x)
                IMemberPendingProfileKey.member); [|discriminate].
    apply andb_true_iff in Hacc as [_ Hacc].
    rewrite Hlevel in Hacc.
    apply access_allowed_administrator in Hacc; [|exact Hrole].
    unfold affects_self in Hacc.
    destruct (optional_chain (find_member s aci)
                (fun m => IMember.userId (val m))); discriminate.
Qed.

(** X12.  The access rule never prefers a plain member to an
    administrator: where [verifyAccess] lets a member through, it lets
    through an administrator of the same identity. *)
Theorem verifyAccess_administrator attribute member administrator access
    affected h :
  IMember.userId (val administrator) = IMember.userId (val member) ->
  IMember.role (val administrator) = Some Role.ADMINISTRATOR ->
  verifyAccess attribute (Some member) access affected h = (Normal tt, h) ->
  verifyAccess attribute (Some administrator) access affected h =
    (Normal tt, h).
Proof.
  intros Hid Hrole Hrun.
  assert (Hm : access_allowed (Some member) access affected = true).
  { destruct (verifyAccess_cases attribute (Some member) access affected h)
      as [[Hyes _]|[_ [e He]]]; [exact Hyes|congruence]. }
  destruct (verifyAccess_cases attribute (Some administrator) access affected h)
    as [[_ Hyes]|[Hno _]]; [exact Hyes|exfalso].
  unfold access_allowed, affects_self, is_administrator in *. simpl in *.
  rewrite Hid, Hrole in Hno. simpl in Hno.
  destruct (match IMember.userId (val member) with
            | Some userId =>
                match affected with
                | Some a => Buffer_equals userId a
                | None => false
                end
            | None => false
            end); simpl in *; [discriminate|].
  destruct access; simpl in *; congruence.
Qed.


End Authorization.

Section Promotions.

Context {zk : ZkGroup}.

(** X14.  A promotion across the identity spaces makes [modify] throw
    when its presentation is absent, malformed or rejected, when the
    identity of the presentation is not the caller's primary identity,
    when it is an active member of the committed snapshot, or when no
    pending entry has the caller's secondary identity.  When the call
    commits, the one pending object that the lookup found for the
    secondary identity is no longer pending, and the active members
    include one with role DEFAULT and the identity and profile key of the
    presentation.  Nothing is said of another pending object with the
    same identity. *)
Theorem promote_pni_member aci pni actions now h s params x :
  snapshot (this h) = Normal s ->
  privPublicParams (this h) = Some params ->
  In x (IActions.promoteMembersPendingPniAciProfileKey actions ?? []) ->
  (verified params
     (PromoteMemberPendingPniAciProfileKeyAction.presentation x) = false ->
   throws (modify aci pni actions now) h) /\
  (forall p,
     PromoteMemberPendingPniAciProfileKeyAction.presentation x = Some p ->
     getUuidCiphertext p <> aci ->
     throws (modify aci pni actions now) h) /\
  (forall p m,
     PromoteMemberPendingPniAciProfileKeyAction.presentation x = Some p ->
     find_member s (getUuidCiphertext p) = Some m ->
     throws (modify aci pni actions now) h) /\
  (find_pending s pni = None ->
   throws (modify aci pni actions now) h) /\
  (forall result h',
     modify aci pni actions now h = (Normal result, h') ->
     conflict result = false ->
     exists p entry s',
       PromoteMemberPendingPniAciProfileKeyAction.presentation x = Some p /\
       getUuidCiphertext p = aci /\
       find_pending s pni = Some entry /\
       snapshot (this h') = Normal s' /\
       not_pending_in entry s' /\
       promoted_in p s').
Proof.
  intros Hs Hp Hx.
  assert (Hacc : forall w h',
            modify_prepare aci pni actions now h = (Normal w, h') ->
            promotePNIMember_accepts s params aci pni x = true).
  { intros w h' Hrun.
    eapply prepare_promotePNIMember_accepts; eassumption. }
  repeat split.
  - intros Hbad. eapply throws_of_refused; [exact Hacc|].
    unfold promotePNIMember_accepts.
    destruct (PromoteMemberPendingPniAciProfileKeyAction.presentation x);
      [|reflexivity].
    now rewrite Hbad.
  - intros p Hpres Hother. eapply throws_of_refused; [exact Hacc|].
    unfold promotePNIMember_accepts. rewrite Hpres.
    destruct (Buffer_equals (getUuidCiphertext p) aci) eqn:E;
      [apply Buffer_equals_eq in E; contradiction|].
    now rewrite andb_false_r.
  - intros p m Hpres Hm. eapply throws_of_refused; [exact Hacc|].
    unfold promotePNIMember_accepts. rewrite Hpres, Hm. simpl.
    now rewrite andb_false_r.
  - intros Hnone. eapply throws_of_refused; [exact Hacc|].
    unfold promotePNIMember_accepts.
    destruct (PromoteMemberPendingPniAciProfileKeyAction.presentation x);
      [|reflexivity].
    rewrite Hnone. simpl. now rewrite andb_false_r.
  - intros result h' Hrun Hconf.
    destruct (modify_commit_inv _ _ _ _ _ _ _ Hrun Hconf)
      as (w & h1 & s0 & v & Hprep & _ & _ & _ & _ & _ & _ & Hs' & _).
    pose proof (Hacc _ _ Hprep) as Ha.
    destruct (modify_prepare_stages _ _ _ _ _ _ _ _ Hprep Hs)
      as (w0 & w1 & g1 & w2 & g2 & w3 & g3 & w4 & g4 &
          _ & _ & _ & _ & _ & H5 & (_ & _ & _ & E4) & _).
    assert (S4 : snapshot (this g4) = Normal s) by (rewrite E4; exact Hs).
    assert (P4 : privPublicParams (this g4) = Some params)
      by (rewrite E4; exact Hp).
    destruct (loop_promotePNI_member_exists _ _ _ _ _ _ _ s params x
                S4 P4 H5 Hx) as (p & a & Hpres & Hina).
    unfold promotePNIMember_accepts in Ha. rewrite Hpres in Ha.
    apply andb_true_iff in Ha as [Ha _].
    apply andb_true_iff in Ha as [Ha Hfound].
    apply andb_true_iff in Ha as [_ Heq]. apply Buffer_equals_eq in Heq.
    destruct (find_pending s pni) as [entry|] eqn:Hf; [|discriminate].
    exists p, entry, (newState w). repeat split; try assumption.
    + intros e He.
      destruct (prepare_pending _ _ _ _ _ _ _ _ Hprep Hs) as (_ & Hfrom & _).
      destruct (Hfrom e He) as [(_ & _ & Hpni) _].
      apply Hpni; [|exact Hf]. intros Hnil. rewrite Hnil in Hx. destruct Hx.
    + exists a. exact Hina.
Qed.

(** X15.  Nobody is promoted by somebody else: a promote-pending-member
    sub-action whose presentation carries another identity than the
    caller's primary identity makes [modify] throw, even when the
    presentation verifies and the identity is pending. *)
Theorem promote_pending_member_of_another aci pni actions now h s params x p :
  snapshot (this h) = Normal s ->
  privPublicParams (this h) = Some params ->
  In x (IActions.promotePendingMembers actions ?? []) ->
  PromoteMemberPendingProfileKeyAction.presentation x = Some p ->
  getUuidCiphertext p <> aci ->
  throws (modify aci pni actions now) h.
Proof.
  intros Hs Hp Hx Hpres Hother.
  eapply (throws_of_refused _ _ _ _ _
            (promotePendingMember_accepts s params aci x)).
  - intros w h' Hrun.
    eapply prepare_promotePendingMember_accepts; eassumption.
  - unfold promotePendingMember_accepts. rewrite Hpres.
    destruct (Buffer_equals (getUuidCiphertext p) aci) eqn:E;
      [apply Buffer_equals_eq in E; contradiction|].
    now rewrite !andb_false_r.
Qed.

End Promotions.

(** ** The signed change *)

Section SignedChange.

Context {zk : ZkGroup}.

Lemma modify_promotePendingMember_epoch aci w x h w' h' :
  modify_promotePendingMember aci w x h = (Normal w', h') ->
  changeEpoch w' = changeEpoch w.
Proof.
  unfold modify_promotePendingMember. run_body; intros Hrun;
    inversion Hrun; subst. reflexivity.
Qed.

Lemma modify_promotePNIMember_epoch aci pni w x h w' h' :
  modify_promotePNIMember aci pni w x h = (Normal w', h') ->
  changeEpoch w' = Z.max (changeEpoch w) 5.
Proof.
  unfold modify_promotePNIMember. run_body; intros Hrun;
    inversion Hrun; subst. reflexivity.
Qed.

Lemma loop_promotePNI_epoch aci pni l w g w' g' :
  for_of (modify_promotePNIMember aci pni) l w g = (Normal w', g') ->
  changeEpoch w' =
    match l with [] => changeEpoch w | _ :: _ => Z.max (changeEpoch w) 5 end.
Proof.
  revert w g. induction l as [|x l IH]; intros w g Hrun; simpl in Hrun.
  - inversion Hrun; subst. reflexivity.
  - apply bind_Normal_inv in Hrun as (w1 & g1 & Hb & Hrest).
    apply modify_promotePNIMember_epoch in Hb. apply IH in Hrest.
    rewrite Hrest, Hb. destruct l; lia.
Qed.

(** The epoch at the end of the walk. *)
Lemma prepare_epoch aci pni actions now h w h' :
  modify_prepare aci pni actions now h = (Normal w, h') ->
  changeEpoch w =
    match IActions.promoteMembersPendingPniAciProfileKey actions ?? [] with
    | [] => 1
    | _ :: _ => 5
    end.
Proof.
  intros Hrun. apply modify_prepare_Normal_inv in Hrun
    as (s & w0 & h0 & w1 & h1 & w2 & h2 & w3 & h3 & w4 & h4 & _ & _ &
        H0 & H1 & H2 & H3 & H4 & H5 & _).
  set (I := fun a : Working => changeEpoch a = 1).
  assert (I0 : I w0).
  { apply modify_modifyTitle_Normal_inv in H0 as (_ & E & _). exact E. }
  assert (I1 : I w1).
  { eapply (for_of_invariant _ I); [|exact I0|exact H1].
    intros a x k a' k' Ia Hb.
    apply modify_deleteMember_Normal_inv in Hb
      as (? & ? & ? & _ & _ & _ & _ & E & _).
    unfold I in *. congruence. }
  assert (I2 : I w2).
  { eapply (for_of_invariant _ I); [|exact I1|exact H2].
    intros a x k a' k' Ia Hb.
    apply modify_addPendingMember_Normal_inv in Hb as (? & ? & _ & _ & E & _).
    unfold I in *. congruence. }
  assert (I3 : I w3).
  { eapply (for_of_invariant _ I); [|exact I2|exact H3].
    intros a x k a' k' Ia Hb.
    apply modify_deletePendingMember_Normal_inv in Hb
      as (? & ? & ? & _ & _ & _ & _ & E & _).
    unfold I in *. congruence. }
  assert (I4 : I w4).
  { eapply (for_of_invariant _ I); [|exact I3|exact H4].
    intros a x k a' k' Ia Hb.
    apply modify_promotePendingMember_epoch in Hb.
    unfold I in *. congruence. }
  rewrite (loop_promotePNI_epoch _ _ _ _ _ _ _ H5). unfold I in I4.
  rewrite I4. destruct (_ ?? []); reflexivity.
Qed.

(** X16.  A call that commits returns a signed change whose signature is
    the server's signature of the very bytes it returns as [actions],
    and whose change epoch is 5 when the bundle promotes across the
    identity spaces and 1 otherwise.  The entry appended to the change
    log holds the same bytes and the same epoch, without the signature. *)
Theorem modify_signed_change aci pni actions now h result h' :
  modify aci pni actions now h = (Normal result, h') ->
  conflict result = false ->
  exists encoded epoch entry,
    signedChange result =
      Some (IGroupChange.Build (Some encoded) (Some (sign encoded))
                               (Some epoch)) /\
    epoch =
      match IActions.promoteMembersPendingPniAciProfileKey actions ?? [] with
      | [] => 1
      | _ :: _ => 5
      end /\
    change_log (this h') = change_log (this h) ++ [ entry ] /\
    IGroupChangeState.groupChange entry =
      Some (IGroupChange.Build (Some encoded) None (Some epoch)).
Proof.
  intros Hrun Hconf.
  destruct (modify_commit_inv _ _ _ _ _ _ _ Hrun Hconf)
    as (w & h1 & s & v & Hprep & -> & _ & _ & _ & Hlog & _).
  exists (Actions_encode (appliedActions w)), (changeEpoch w),
    (committed_entry w).
  repeat split; try assumption. eapply prepare_epoch; eassumption.
Qed.

(** X17.  A version is committed once.  After a call that commits, a
    later call whose bundle declares the same version never commits:
    it returns the Conflict result or throws, and the instance is as the
    first call left it. *)
Theorem modify_same_version_again aci pni actions now h result h'
    aci2 pni2 actions2 now2 :
  modify aci pni actions now h = (Normal result, h') ->
  conflict result = false ->
  IActions.version actions2 = IActions.version actions ->
  this (snd (modify aci2 pni2 actions2 now2 h')) = this h' /\
  (fst (modify aci2 pni2 actions2 now2 h') = Normal conflict_result \/
   throws (modify aci2 pni2 actions2 now2) h').
Proof.
  intros Hrun Hconf Hsame.
  destruct (modify_commit_inv _ _ _ _ _ _ _ Hrun Hconf)
    as (w & h1 & s & v & Hprep & _ & _ & _ & Hv & _ & _ & Hs' & _).
  pose proof (modify_prepare_version _ _ _ _ _ _ _ Hprep) as Hvw.
  rewrite Hv in Hvw.
  destruct (modify_cases aci2 pni2 actions2 now2 h')
    as [(e & h2 & He & Hh)|[(w2 & h2 & s2 & v2 & _ & He & _ & _ & _ & Hh)|
        (w2 & g & h2 & s2 & v2 & _ & _ & Hs2 & Hv2 & Hnext & _)]].
  - rewrite He. simpl. split; [exact Hh|]. right. exists e.
    rewrite He. reflexivity.
  - rewrite He. simpl. split; [exact Hh|]. now left.
  - exfalso. rewrite Hs' in Hs2. inversion Hs2; subst s2.
    rewrite Hvw in Hv2. inversion Hv2; subst v2.
    rewrite Hsame, Hv in Hnext. inversion Hnext. lia.
Qed.

End SignedChange.

(** ** The record that is signed *)

(** The entries of the applied record, as the loops of [modify] write them:
    a presentation is replaced by the identity and the profile key that it
    carries, and a pending member gets the caller and the clock reading. *)
Definition unless_empty {A : Type} (l : list A) : option (list A) :=
  match l with [] => None | _ :: _ => Some l end.

Section Applied.

Context {zk : ZkGroup}.

Definition applied_added (aci : bytes) (ts : Z)
    (x : AddMemberPendingProfileKeyAction.t)
    : AddMemberPendingProfileKeyAction.t :=
  match optional_chain (AddMemberPendingProfileKeyAction.added x)
          IMemberPendingProfileKey.member with
  | Some member =>
      AddMemberPendingProfileKeyAction.Build
        (Some (IMemberPendingProfileKey.Build
                 (Some (IMember.Build (IMember.role member)
                                      (IMember.userId member) None None))
                 (Some aci) (Some ts)))
  | None => x
  end.

Definition applied_promotion (x : PromoteMemberPendingProfileKeyAction.t)
    : PromoteMemberPendingProfileKeyAction.t :=
  match PromoteMemberPendingProfileKeyAction.presentation x with
  | Some p =>
      PromoteMemberPendingProfileKeyAction.Build
        None (Some (getUuidCiphertext p)) (Some (getProfileKeyCiphertext p))
  | None => x
  end.

Definition applied_pni_promotion (pni : bytes)
    (x : PromoteMemberPendingPniAciProfileKeyAction.t)
    : PromoteMemberPendingPniAciProfileKeyAction.t :=
  match PromoteMemberPendingPniAciProfileKeyAction.presentation x with
  | Some p =>
      PromoteMemberPendingPniAciProfileKeyAction.Build
        None (Some (getUuidCiphertext p)) (Some pni)
        (Some (getProfileKeyCiphertext p))
  | None => x
  end.

(** The applied record of a bundle whose sub-actions are all accepted. *)
Definition applied_of (aci pni : bytes) (ts : Z) (actions : IActions.t)
    : IActions.t :=
  IActions.Build
    (IActions.version actions)
    (Some match IActions.promoteMembersPendingPniAciProfileKey actions ?? []
          with [] => aci | _ :: _ => pni end)
    (IActions.modifyTitle actions)
    (unless_empty (IActions.deleteMembers actions ?? []))
    (unless_empty (map (applied_added aci ts)
                   (IActions.addPendingMembers actions ?? [])))
    (unless_empty (IActions.deletePendingMembers actions ?? []))
    (unless_empty (map applied_promotion
                   (IActions.promotePendingMembers actions ?? [])))
    (unless_empty (map (applied_pni_promotion pni)
                   (IActions.promoteMembersPendingPniAciProfileKey actions
                      ?? []))).

Definition push_deleteMember (a : IActions.t) (x : DeleteMemberAction.t)
    : IActions.t :=
  IActions.with_deleteMembers
    (Some ((IActions.deleteMembers a ?? []) ++ [ x ])) a.

Definition push_addPendingMember (aci : bytes) (ts : Z) (a : IActions.t)
    (x : AddMemberPendingProfileKeyAction.t) : IActions.t :=
  IActions.with_addPendingMembers
    (Some ((IActions.addPendingMembers a ?? []) ++ [ applied_added aci ts x ]))
    a.

Definition push_deletePendingMember (a : IActions.t)
    (x : DeleteMemberPendingProfileKeyAction.t) : IActions.t :=
  IActions.with_deletePendingMembers
    (Some ((IActions.deletePendingMembers a ?? []) ++ [ x ])) a.

Definition push_promotion (a : IActions.t)
    (x : PromoteMemberPendingProfileKeyAction.t) : IActions.t :=
  IActions.with_promotePendingMembers
    (Some ((IActions.promotePendingMembers a ?? []) ++
           [ applied_promotion x ])) a.

Definition push_pni_promotion (pni : bytes) (a : IActions.t)
    (x : PromoteMemberPendingPniAciProfileKeyAction.t) : IActions.t :=
  IActions.with_promoteMembersPendingPniAciProfileKey
    (Some ((IActions.promoteMembersPendingPniAciProfileKey a ?? []) ++
           [ applied_pni_promotion pni x ]))
    (IActions.with_sourceUuid (Some pni) a).

Lemma modify_modifyTitle_applied auth ac actions w h w' h' :
  modify_modifyTitle auth ac actions w h = (Normal w', h') ->
  appliedActions w' =
    match IActions.modifyTitle actions with
    | Some t => IActions.with_modifyTitle (Some t) (appliedActions w)
    | None => appliedActions w
    end.
Proof.
  unfold modify_modifyTitle. run_body; intros Hrun; inversion Hrun; subst;
    reflexivity.
Qed.

Lemma modify_deleteMember_applied auth ac w x h w' h' :
  modify_deleteMember auth ac w x h = (Normal w', h') ->
  appliedActions w' = push_deleteMember (appliedActions w) x.
Proof.
  unfold modify_deleteMember, push_deleteMember.
  run_body; intros Hrun; inversion Hrun; subst.
  destruct x as [d]; simpl in *. now subst d.
Qed.

Lemma modify_addPendingMember_applied aci auth ac ts w x h w' h' :
  modify_addPendingMember aci auth ac ts w x h = (Normal w', h') ->
  appliedActions w' = push_addPendingMember aci ts (appliedActions w) x.
Proof.
  unfold modify_addPendingMember, push_addPendingMember, applied_added,
    optional_chain.
  run_body; intros Hrun; inversion Hrun; subst.
  simpl. repeat match goal with H : _ = Some _ |- _ => rewrite H end.
  reflexivity.
Qed.

Lemma modify_deletePendingMember_applied aci pni w x h w' h' :
  modify_deletePendingMember aci pni w x h = (Normal w', h') ->
  appliedActions w' = push_deletePendingMember (appliedActions w) x.
Proof.
  unfold modify_deletePendingMember, push_deletePendingMember.
  run_body; intros Hrun; inversion Hrun; subst.
  destruct x as [d]; simpl in *. now subst d.
Qed.

Lemma modify_promotePendingMember_applied aci w x h w' h' :
  modify_promotePendingMember aci w x h = (Normal w', h') ->
  appliedActions w' = push_promotion (appliedActions w) x.
Proof.
  unfold modify_promotePendingMember, push_promotion, applied_promotion.
  run_body; intros Hrun; inversion Hrun; subst.
  repeat match goal with H : _ = Some _ |- _ => rewrite H end.
  reflexivity.
Qed.

Lemma modify_promotePNIMember_applied aci pni w x h w' h' :
  modify_promotePNIMember aci pni w x h = (Normal w', h') ->
  appliedActions w' = push_pni_promotion pni (appliedActions w) x.
Proof.
  unfold modify_promotePNIMember, push_pni_promotion, applied_pni_promotion.
  run_body; intros Hrun; inversion Hrun; subst.
  repeat match goal with H : _ = Some _ |- _ => rewrite H end.
  reflexivity.
Qed.

(** A loop whose body pushes one entry per element folds the pushes. *)
Lemma for_of_applied {A : Type} (body : Working -> A -> M Working)
    (push : IActions.t -> A -> IActions.t) (l : list A) :
  (forall w x h w' h',
     body w x h = (Normal w', h') ->
     appliedActions w' = push (appliedActions w) x) ->
  forall w h w' h',
    for_of body l w h = (Normal w', h') ->
    appliedActions w' = fold_left push l (appliedActions w).
Proof.
  intros Hb. induction l as [|x l IH]; intros w h w' h' Hrun; simpl in Hrun.
  - inversion Hrun; subst. reflexivity.
  - apply bind_Normal_inv in Hrun as (w1 & h1 & H1 & H2).
    simpl. rewrite <- (Hb _ _ _ _ _ H1). eapply IH; eassumption.
Qed.

Lemma fold_push_deleteMember l a :
  fold_left push_deleteMember l a =
  match l with
  | [] => a
  | _ :: _ =>
      IActions.with_deleteMembers
        (Some ((IActions.deleteMembers a ?? []) ++ l)) a
  end.
Proof.
  revert a. induction l as [|x l IH]; intros a; [reflexivity|].
  simpl. rewrite IH. destruct l as [|y l]; [reflexivity|].
  unfold push_deleteMember, IActions.with_deleteMembers. simpl.
  now rewrite <- app_assoc.
Qed.

Lemma fold_push_addPendingMember aci ts l a :
  fold_left (push_addPendingMember aci ts) l a =
  match l with
  | [] => a
  | _ :: _ =>
      IActions.with_addPendingMembers
        (Some ((IActions.addPendingMembers a ?? []) ++
               map (applied_added aci ts) l)) a
  end.
Proof.
  revert a. induction l as [|x l IH]; intros a; [reflexivity|].
  simpl fold_left. rewrite IH. destruct l as [|y l]; [reflexivity|].
  unfold push_addPendingMember, IActions.with_addPendingMembers. simpl.
  now rewrite <- app_assoc.
Qed.

Lemma fold_push_deletePendingMember l a :
  fold_left push_deletePendingMember l a =
  match l with
  | [] => a
  | _ :: _ =>
      IActions.with_deletePendingMembers
        (Some ((IActions.deletePendingMembers a ?? []) ++ l)) a
  end.
Proof.
  revert a. induction l as [|x l IH]; intros a; [reflexivity|].
  simpl. rewrite IH. destruct l as [|y l]; [reflexivity|].
  unfold push_deletePendingMember, IActions.with_deletePendingMembers. simpl.
  now rewrite <- app_assoc.
Qed.

Lemma fold_push_promotion l a :
  fold_left push_promotion l a =
  match l with
  | [] => a
  | _ :: _ =>
      IActions.with_promotePendingMembers
        (Some ((IActions.promotePendingMembers a ?? []) ++
               map applied_promotion l)) a
  end.
Proof.
  revert a. induction l as [|x l IH]; intros a; [reflexivity|].
  simpl fold_left. rewrite IH. destruct l as [|y l]; [reflexivity|].
  unfold push_promotion, IActions.with_promotePendingMembers. simpl.
  now rewrite <- app_assoc.
Qed.

Lemma fold_push_pni_promotion pni l a :
  fold_left (push_pni_promotion pni) l a =
  match l with
  | [] => a
  | _ :: _ =>
      IActions.with_promoteMembersPendingPniAciProfileKey
        (Some ((IActions.promoteMembersPendingPniAciProfileKey a ?? []) ++
               map (applied_pni_promotion pni) l))
        (IActions.with_sourceUuid (Some pni) a)
  end.
Proof.
  revert a. induction l as [|x l IH]; intros a; [reflexivity|].
  simpl fold_left. rewrite IH. destruct l as [|y l]; [reflexivity|].
  unfold push_pni_promotion, IActions.with_promoteMembersPendingPniAciProfileKey,
    IActions.with_sourceUuid. simpl.
  now rewrite <- app_assoc.
Qed.

(** The applied record at the end of the walk. *)
Lemma prepare_applied aci pni actions now h w h' :
  modify_prepare aci pni actions now h = (Normal w, h') ->
  appliedActions w = applied_of aci pni now actions.
Proof.
  intros Hrun. apply modify_prepare_Normal_inv in Hrun
    as (s & w0 & h0 & w1 & h1 & w2 & h2 & w3 & h3 & w4 & h4 & _ & _ &
        H0 & H1 & H2 & H3 & H4 & H5 & _).
  apply modify_modifyTitle_applied in H0.
  apply (for_of_applied _ push_deleteMember _
           (modify_deleteMember_applied _ _)) in H1.
  apply (for_of_applied _ (push_addPendingMember aci now) _
           (modify_addPendingMember_applied _ _ _ _)) in H2.
  apply (for_of_applied _ push_deletePendingMember _
           (modify_deletePendingMember_applied _ _)) in H3.
  apply (for_of_applied _ push_promotion _
           (modify_promotePendingMember_applied _)) in H4.
  apply (for_of_applied _ (push_pni_promotion pni) _
           (modify_promotePNIMember_applied _ _)) in H5.
  rewrite H5, H4, H3, H2, H1, H0.
  rewrite fold_push_pni_promotion, fold_push_promotion,
    fold_push_deletePendingMember, fold_push_addPendingMember,
    fold_push_deleteMember.
  unfold applied_of, initial_working. simpl appliedActions.
  destruct (IActions.modifyTitle actions);
    destruct (IActions.deleteMembers actions ?? []);
    destruct (IActions.addPendingMembers actions ?? []);
    destruct (IActions.deletePendingMembers actions ?? []);
    destruct (IActions.promotePendingMembers actions ?? []);
    destruct (IActions.promoteMembersPendingPniAciProfileKey actions ?? []);
    reflexivity.
Qed.

(** X18.  What a committed call signs is the encoding of the bundle in
    normal form: the declared version; as source the caller's primary
    identity, or the secondary one when the bundle promotes across the
    identity spaces; the title change and the two kinds of deletion as
    they came; each pending member with the caller and the clock
    reading; each promotion with the identity and the profile key of its
    presentation in place of the presentation.  A kind of sub-action
    that the bundle does not have is absent from the record. *)
Theorem modify_applied_actions aci pni actions now h result h' :
  modify aci pni actions now h = (Normal result, h') ->
  conflict result = false ->
  optional_chain (signedChange result) IGroupChange.actions =
    Some (Actions_encode (applied_of aci pni now actions)).
Proof.
  intros Hrun Hconf.
  destruct (modify_commit_inv _ _ _ _ _ _ _ Hrun Hconf)
    as (w & h1 & s & v & Hprep & -> & _).
  simpl. now rewrite (prepare_applied _ _ _ _ _ _ _ Hprep).
Qed.

End Applied.

(** ** When a call returns *)

Section Acceptance.

Context {zk : ZkGroup}.

Lemma bind_is_normal {A B : Type} (m : M A) (f : A -> M B) h :
  is_normal (fst (bind m f h)) =
  match m h with
  | (Normal a, h') => is_normal (fst (f a h'))
  | (Throw _, _) => false
  end.
Proof. unfold bind. destruct (m h) as [[a|e] h']; reflexivity. Qed.

(** A loop whose body decides on the element alone, and does not touch
    the instance, goes through when every element is accepted. *)
Lemma for_of_accepts {A S : Type} (body : S -> A -> M S) (acc : A -> bool)
    (T : ServerGroup) (l : list A) :
  (forall s y, frames (body s y)) ->
  (forall s x g, this g = T -> is_normal (fst (body s x g)) = acc x) ->
  forall s g, this g = T ->
    is_normal (fst (for_of body l s g)) = forallb acc l.
Proof.
  intros Hfr Hacc. induction l as [|x l IH]; intros s g Hg; [reflexivity|].
  simpl. rewrite bind_is_normal.
  pose proof (Hacc s x g Hg) as Hx. pose proof (Hfr s x g) as Hf.
  destruct (body s x g) as [[s1|e] g1]; simpl in *; rewrite <- Hx;
    [|reflexivity].
  apply IH. congruence.
Qed.

(** The title change is accepted when there is none or when the access
    rule allows it at the attributes level. *)
Definition modifyTitle_accepts (auth : option (obj IMember.t))
    (ac : option IAccessControl.t) (actions : IActions.t) : bool :=
  match IActions.modifyTitle actions with
  | Some _ => access_allowed auth (attributes_level ac) None
  | None => true
  end.

(** The checks of [modify], over the committed snapshot [s] and the
    public parameters [params]. *)
Definition modify_accepts (s : IGroup.t) (params aci pni : bytes)
    (actions : IActions.t) : bool :=
  truthy_number (IActions.version actions) &&
  modifyTitle_accepts (find_member s aci) (IGroup.accessControl s) actions &&
  forallb (deleteMember_accepts s (find_member s aci) (IGroup.accessControl s))
          (IActions.deleteMembers actions ?? []) &&
  forallb (addPendingMember_accepts (find_member s aci)
                                    (IGroup.accessControl s))
          (IActions.addPendingMembers actions ?? []) &&
  forallb (deletePendingMember_accepts s aci pni)
          (IActions.deletePendingMembers actions ?? []) &&
  forallb (promotePendingMember_accepts s params aci)
          (IActions.promotePendingMembers actions ?? []) &&
  forallb (promotePNIMember_accepts s params aci pni)
          (IActions.promoteMembersPendingPniAciProfileKey actions ?? []).

Lemma modify_modifyTitle_accepts auth ac actions w h :
  is_normal (fst (modify_modifyTitle auth ac actions w h)) =
    modifyTitle_accepts auth ac actions.
Proof.
  unfold modify_modifyTitle, modifyTitle_accepts.
  fold (attributes_level ac).
  destruct (IActions.modifyTitle actions) as [t|]; [|reflexivity].
  rewrite bind_is_normal.
  destruct (verifyAccess_cases "title" auth (attributes_level ac) None h)
    as [[-> ->]|[-> [e ->]]]; reflexivity.
Qed.

Lemma modify_prepare_accepts aci pni actions now h s params :
  snapshot (this h) = Normal s ->
  privPublicParams (this h) = Some params ->
  is_normal (fst (modify_prepare aci pni actions now h)) =
    modify_accepts s params aci pni actions.
Proof.
  intros Hs Hp. unfold modify_prepare, modify_accepts.
  destruct (truthy_number (IActions.version actions)); [|reflexivity].
  simpl assert_ok. rewrite (bind_Normal _ _ h tt h eq_refl).
  unfold bind at 1. rewrite state_run, Hs.
  unfold bind at 1. rewrite getMember_run, Hs.
  cbn [andb IGroup.accessControl IGroup.with_version].
  set (auth := find_member s aci).
  set (ac := IGroup.accessControl s).
  rewrite bind_is_normal.
  pose proof (modify_modifyTitle_accepts auth ac actions
                {| newState := IGroup.with_version (IActions.version actions) s;
                   appliedActions :=
                     IActions.Build (IActions.version actions) (Some aci)
                       None None None None None None;
                   changeEpoch := 1 |} h) as A0.
  pose proof (frames_modifyTitle auth ac actions
                {| newState := IGroup.with_version (IActions.version actions) s;
                   appliedActions :=
                     IActions.Build (IActions.version actions) (Some aci)
                       None None None None None None;
                   changeEpoch := 1 |} h) as F0.
  destruct (modify_modifyTitle auth ac actions _ h) as [[w0|e] h0];
    simpl in A0, F0; rewrite <- A0; [|reflexivity].
  cbn [andb].
  assert (Hsnap : forall g, this g = this h -> snapshot (this g) = Normal s)
    by (intros g ->; exact Hs).
  assert (Hpar : forall g, this g = this h ->
                           privPublicParams (this g) = Some params)
    by (intros g ->; exact Hp).
  rewrite bind_is_normal.
  pose proof (for_of_accepts (modify_deleteMember auth ac)
                (deleteMember_accepts s auth ac) (this h)
                (IActions.deleteMembers actions ?? [])
                (frames_deleteMember _ _)
                (fun a x g Hg => modify_deleteMember_accepts _ _ a x g s
                                   (Hsnap g Hg)) w0 h0 F0) as A1.
  pose proof (frames_for_of _ (IActions.deleteMembers actions ?? []) (frames_deleteMember auth ac) w0 h0) as F1.
  destruct (for_of (modify_deleteMember auth ac) _ w0 h0) as [[w1|e] h1];
    simpl in A1, F1; rewrite <- A1; [|reflexivity].
  cbn [andb]. rewrite F0 in F1.
  rewrite bind_is_normal.
  pose proof (for_of_accepts (modify_addPendingMember aci auth ac now)
                (addPendingMember_accepts auth ac) (this h)
                (IActions.addPendingMembers actions ?? [])
                (frames_addPendingMember _ _ _ _)
                (fun a x g _ => modify_addPendingMember_accepts aci _ _ now
                                  a x g) w1 h1 F1) as A2.
  pose proof (frames_for_of _ (IActions.addPendingMembers actions ?? [])
                (frames_addPendingMember aci auth ac now) w1 h1) as F2.
  destruct (for_of (modify_addPendingMember aci auth ac now) _ w1 h1)
    as [[w2|e] h2]; simpl in A2, F2; rewrite <- A2; [|reflexivity].
  cbn [andb]. rewrite F1 in F2.
  rewrite bind_is_normal.
  pose proof (for_of_accepts (modify_deletePendingMember aci pni)
                (deletePendingMember_accepts s aci pni) (this h)
                (IActions.deletePendingMembers actions ?? [])
                (frames_deletePendingMember _ _)
                (fun a x g Hg => modify_deletePendingMember_accepts _ _ a x g s
                                   (Hsnap g Hg)) w2 h2 F2) as A3.
  pose proof (frames_for_of _ (IActions.deletePendingMembers actions ?? [])
                (frames_deletePendingMember aci pni) w2 h2)
    as F3.
  destruct (for_of (modify_deletePendingMember aci pni) _ w2 h2)
    as [[w3|e] h3]; simpl in A3, F3; rewrite <- A3; [|reflexivity].
  cbn [andb]. rewrite F2 in F3.
  rewrite bind_is_normal.
  pose proof (for_of_accepts (modify_promotePendingMember aci)
                (promotePendingMember_accepts s params aci) (this h)
                (IActions.promotePendingMembers actions ?? [])
                (frames_promotePendingMember _)
                (fun a x g Hg => modify_promotePendingMember_accepts _ a x g s
                                   params (Hsnap g Hg) (Hpar g Hg))
                w3 h3 F3) as A4.
  pose proof (frames_for_of _ (IActions.promotePendingMembers actions ?? [])
                (frames_promotePendingMember aci) w3 h3)
    as F4.
  destruct (for_of (modify_promotePendingMember aci) _ w3 h3)
    as [[w4|e] h4]; simpl in A4, F4; rewrite <- A4; [|reflexivity].
  cbn [andb]. rewrite F3 in F4.
  exact (for_of_accepts (modify_promotePNIMember aci pni)
           (promotePNIMember_accepts s params aci pni) (this h)
           (IActions.promoteMembersPendingPniAciProfileKey actions ?? [])
           (frames_promotePNIMember _ _)
           (fun a x g Hg => modify_promotePNIMember_accepts _ _ a x g s
                              params (Hsnap g Hg) (Hpar g Hg))
           w4 h4 F4).
Qed.

(** X19.  [modify] returns exactly when its checks pass: on an instance
    with public parameters whose committed snapshot has a version, a call
    whose bundle has a version other than 0, whose title change, if any,
    is allowed, and whose sub-actions are all accepted against that
    snapshot returns a result, and the result is a conflict exactly when
    the declared version is not the committed one plus one; any other
    call throws. *)
Theorem modify_returns aci pni actions now h s params v :
  snapshot (this h) = Normal s ->
  privPublicParams (this h) = Some params ->
  IGroup.version s = Some v ->
  if modify_accepts s params aci pni actions
  then exists result h',
         modify aci pni actions now h = (Normal result, h') /\
         conflict result = negb (next_version actions v)
  else throws (modify aci pni actions now) h.
Proof.
  intros Hs Hp Hv.
  rewrite <- (modify_prepare_accepts aci pni actions now h s params Hs Hp).
  unfold throws, modify, bind.
  pose proof (modify_prepare_this aci pni actions now h) as Hfr.
  destruct (modify_prepare aci pni actions now h) as [[w|e] h1];
    simpl in *; [|eauto].
  rewrite <- Hfr in Hs.
  rewrite (modify_commit_run actions w h1 s v Hs Hv).
  destruct (next_version actions v); eauto.
Qed.

End Acceptance.

(** ** What every reachable instance has *)

Section Invariants.

Context {zk : ZkGroup}.

(** What a sub-action other than the title change leaves alone. *)
Definition attributes_of (s : IGroup.t)
    : option bytes * option bytes * option Z * option IAccessControl.t :=
  (IGroup.title s, IGroup.publicKey s, IGroup.version s,
   IGroup.accessControl s).

Lemma modify_modifyTitle_attributes auth ac actions w h w' h' :
  modify_modifyTitle auth ac actions w h = (Normal w', h') ->
  IGroup.publicKey (newState w') = IGroup.publicKey (newState w) /\
  IGroup.accessControl (newState w') = IGroup.accessControl (newState w) /\
  IGroup.title (newState w') =
    match IActions.modifyTitle actions with
    | Some t => ModifyTitleAction.title t
    | None => IGroup.title (newState w)
    end.
Proof.
  unfold modify_modifyTitle. run_body; intros Hrun; inversion Hrun; subst;
    repeat split; reflexivity.
Qed.

(** The title, the public key and the access control of the working copy
    at the end of the walk. *)
Lemma prepare_attributes aci pni actions now h w h' s :
  modify_prepare aci pni actions now h = (Normal w, h') ->
  snapshot (this h) = Normal s ->
  IGroup.publicKey (newState w) = IGroup.publicKey s /\
  IGroup.accessControl (newState w) = IGroup.accessControl s /\
  IGroup.title (newState w) =
    match IActions.modifyTitle actions with
    | Some t => ModifyTitleAction.title t
    | None => IGroup.title s
    end.
Proof.
  intros Hrun Hs. apply modify_prepare_Normal_inv in Hrun
    as (s' & w0 & h0 & w1 & h1 & w2 & h2 & w3 & h3 & w4 & h4 & _ & Hs' &
        H0 & H1 & H2 & H3 & H4 & H5 & _).
  rewrite Hs in Hs'. inversion Hs'; subst s'. clear Hs'.
  apply modify_modifyTitle_attributes in H0 as (K0 & A0 & T0).
  simpl in K0, A0, T0.
  set (I := fun a : Working =>
              attributes_of (newState a) = attributes_of (newState w0)).
  assert (I1 : I w1).
  { eapply (for_of_invariant _ I); [|unfold I; reflexivity|exact H1].
    intros a x hh a' hh' Ia Hb.
    apply modify_deleteMember_Normal_inv in Hb
      as (? & ? & ? & _ & _ & _ & E & _).
    unfold I in *; rewrite E; exact Ia. }
  assert (I2 : I w2).
  { eapply (for_of_invariant _ I); [|exact I1|exact H2].
    intros a x hh a' hh' Ia Hb.
    apply modify_addPendingMember_Normal_inv in Hb as (? & ? & _ & E & _).
    unfold I in *; rewrite E; exact Ia. }
  assert (I3 : I w3).
  { eapply (for_of_invariant _ I); [|exact I2|exact H3].
    intros a x hh a' hh' Ia Hb.
    apply modify_deletePendingMember_Normal_inv in Hb
      as (? & ? & ? & _ & _ & _ & E & _).
    unfold I in *; rewrite E; exact Ia. }
  assert (I4 : I w4).
  { eapply (for_of_invariant _ I); [|exact I3|exact H4].
    intros a x hh a' hh' Ia Hb.
    apply modify_promotePendingMember_Normal_inv in Hb
      as (? & ? & ? & _ & _ & _ & E & _).
    unfold I in *; rewrite E; exact Ia. }
  assert (I5 : I w).
  { eapply (for_of_invariant _ I); [|exact I4|exact H5].
    intros a x hh a' hh' Ia Hb.
    apply modify_promotePNIMember_Normal_inv in Hb
      as (? & ? & ? & _ & _ & _ & E & _).
    unfold I in *; rewrite E; exact Ia. }
  unfold I, attributes_of in I5. inversion I5 as [[Et Ek Ev Ea]].
  rewrite Et, Ek, Ea. repeat split; assumption.
Qed.

(** X20.  A call that commits changes the title when the bundle has a
    title change, to the title it gives, and at no other time; it gives
    the snapshot the declared version; the public key and the access
    control of the group are never changed. *)
Theorem modify_group_attributes aci pni actions now h s result h' :
  modify aci pni actions now h = (Normal result, h') ->
  conflict result = false ->
  snapshot (this h) = Normal s ->
  exists s',
    snapshot (this h') = Normal s' /\
    IGroup.version s' = IActions.version actions /\
    IGroup.title s' =
      match IActions.modifyTitle actions with
      | Some t => ModifyTitleAction.title t
      | None => IGroup.title s
      end /\
    IGroup.publicKey s' = IGroup.publicKey s /\
    IGroup.accessControl s' = IGroup.accessControl s.
Proof.
  intros Hrun Hconf Hs.
  destruct (modify_commit_inv _ _ _ _ _ _ _ Hrun Hconf)
    as (w & h1 & s0 & v & Hprep & _ & Hs0 & _ & _ & _ & _ & Hs' & _).
  rewrite Hs in Hs0. inversion Hs0; subst s0.
  destruct (prepare_attributes _ _ _ _ _ _ _ _ Hprep Hs) as (Ek & Ea & Et).
  exists (newState w). repeat split; try assumption.
  eapply modify_prepare_version; exact Hprep.
Qed.

(** X21.  In every reachable instance the committed snapshot has a public
    key, which is the public parameters of the instance, an access
    control with its three levels, and a version that is not negative. *)
Theorem reachable_configured h :
  reachable h ->
  exists s publicKey accessControl v,
    snapshot (this h) = Normal s /\
    IGroup.publicKey s = Some publicKey /\
    privPublicParams (this h) = Some publicKey /\
    IGroup.accessControl s = Some accessControl /\
    configured accessControl = true /\
    IGroup.version s = Some v /\ 0 <= v.
Proof.
  induction 1 as [initial h Hnew|h aci pni actions now Hr IH].
  - apply new_ServerGroup_inv in Hnew
      as (pk & ac & ms & unrolled & Hpk & Hv & Hac & Hconf & _ & _ & _ & ->).
    exists (IGroup.with_members (Some unrolled) initial), pk, ac, 0.
    repeat split; try assumption; try reflexivity.
  - destruct IH as (s & pk & ac & v & Hs & Hpk & Hp & Hac & Hconf & Hv & Hv0).
    destruct (modify_cases aci pni actions now h)
      as [(e & h' & -> & Hh)|[(w & h' & s1 & v1 & _ & -> & _ & _ & _ & Hh)|
          (w & h1 & h' & s1 & v1 & Hprep & -> & Hs1 & Hv1 & Hnext & _ & Hh)]];
      simpl; try (rewrite Hh; exists s, pk, ac, v; repeat split; assumption).
    rewrite Hs in Hs1. inversion Hs1; subst s1.
    rewrite Hv in Hv1. inversion Hv1; subst v1.
    destruct (prepare_attributes _ _ _ _ _ _ _ _ Hprep Hs) as (Ek & Ea & _).
    exists (newState w), pk, ac, (v + 1). rewrite Hh. simpl.
    repeat split; try congruence; try lia.
    + now apply snapshot_push.
    + rewrite (modify_prepare_version _ _ _ _ _ _ _ Hprep). exact Hnext.
Qed.

(** A member as the server keeps it: a role, an identity and a profile
    key, and no presentation. *)
Definition unrolled (m : IMember.t) : bool :=
  is_some (IMember.role m) && is_some (IMember.userId m) &&
  is_some (IMember.profileKey m) && negb (is_some (IMember.presentation m)).

Lemma unrollMember_unrolled m h y h' :
  unrollMember m h = (Normal y, h') -> unrolled (val y) = true.
Proof.
  unfold unrollMember. run_body; intros Hrun; inversion Hrun; subst.
  unfold unrolled. simpl.
  match goal with H : is_some _ = true |- _ => rewrite H end. reflexivity.
Qed.

Lemma array_map_unrollMember_unrolled (l : list (obj IMember.t)) h ys h' :
  array_map (fun member => unrollMember (val member)) l h = (Normal ys, h') ->
  Forall (fun y => unrolled (val y) = true) ys.
Proof.
  revert h ys h'. induction l as [|x l IH]; intros h ys h' Hrun; simpl in Hrun.
  - inversion Hrun; subst. constructor.
  - apply bind_Normal_inv in Hrun as (y & h1 & Hy & Hrun).
    apply bind_Normal_inv in Hrun as (ys' & h2 & Hys & Hret).
    inversion Hret; subst. constructor.
    + eapply unrollMember_unrolled; exact Hy.
    + eapply IH; exact Hys.
Qed.

Lemma new_ServerGroup_members_unrolled initial h s :
  new_ServerGroup initial = Normal h ->
  snapshot (this h) = Normal s ->
  Forall (fun y => unrolled (val y) = true) (IGroup.members s ?? []).
Proof.
  unfold new_ServerGroup.
  destruct (constructor initial _) as [[[]|e] h1] eqn:Hrun; [|discriminate].
  intros Hh; inversion Hh; subst h1; clear Hh.
  revert Hrun. unfold constructor, new_GroupPublicParams, set_privPublicParams,
    set_privChanges.
  run_body; intros Hrun; inversion Hrun; subst; clear Hrun.
  unfold snapshot, state, changes, bind; simpl. intros Hs; inversion Hs; subst s.
  match goal with
  | H : array_map _ _ _ = _ |- _ =>
      apply array_map_unrollMember_unrolled in H
  end.
  assumption.
Qed.

(** X22.  In every reachable instance each active member has a role, an
    identity and a profile key, and no presentation: the constructor
    replaces the presentation of each initial member by what it extracts
    from it, after checking the role, and a promotion adds a member of
    that form. *)
Theorem reachable_members_unrolled h s m :
  reachable h -> snapshot (this h) = Normal s ->
  In m (IGroup.members s ?? []) ->
  unrolled (val m) = true.
Proof.
  intros Hr Hs Hin.
  enough (Hall : Forall (fun y => unrolled (val y) = true)
                        (IGroup.members s ?? []))
    by exact (proj1 (Forall_forall _ _) Hall m Hin).
  clear m Hin. revert s Hs.
  induction Hr as [initial h Hnew|h aci pni actions now Hr IH]; intros s Hs.
  - eapply new_ServerGroup_members_unrolled; eassumption.
  - destruct (constructed_snapshot _ (reachable_constructed h Hr))
      as (_ & _ & s0 & _ & _ & _ & Hs0).
    specialize (IH s0 Hs0).
    destruct (reachable_constructed h Hr) as (_ & _ & _ & _ & Hpp).
    destruct (privPublicParams (this h)) as [params|] eqn:Hp; [|discriminate].
    destruct (modify_cases aci pni actions now h)
      as [(e & h' & He & Hh)|[(w & h' & s1 & v & _ & He & _ & _ & _ & Hh)|
          (w & h1 & h' & s1 & v & Hprep & He & _ & _ & _ & _ & Hh)]];
      rewrite He in Hs; simpl in Hs.
    + rewrite Hh, Hs0 in Hs. inversion Hs; subst s. exact IH.
    + rewrite Hh, Hs0 in Hs. inversion Hs; subst s. exact IH.
    + rewrite Hh in Hs.
      rewrite (snapshot_push _ _ _ (newState w)) in Hs by reflexivity.
      inversion Hs; subst s.
      set (P := fun (a : Working) (_ : Heap) =>
        Forall (fun y => unrolled (val y) = true)
               (IGroup.members (newState a) ?? [])).
      change (P w h1).
      eapply (modify_prepare_walk P); try eassumption.
      * intros w0 g w1 g' Hb P0.
        apply modifyTitle_lists in Hb as [E _].
        unfold P. rewrite E. exact P0.
      * intros x w0 g w1 g' _ _ _ Hb P0.
        apply modify_deleteMember_Normal_inv in Hb
          as (? & ? & ? & _ & _ & _ & E & _).
        unfold P. rewrite E. simpl. now apply Forall_without.
      * intros x w0 g w1 g' _ _ Hb P0.
        apply modify_addPendingMember_Normal_inv in Hb
          as (? & ? & _ & E & _).
        unfold P. rewrite E. exact P0.
      * intros x w0 g w1 g' _ _ _ Hb P0.
        apply modify_deletePendingMember_Normal_inv in Hb
          as (? & ? & ? & _ & _ & _ & E & _).
        unfold P. rewrite E. exact P0.
      * intros x w0 g w1 g' _ _ _ Hb P0.
        apply modify_promotePendingMember_Normal_inv in Hb
          as (p & ? & e & _ & _ & _ & E & _).
        unfold P. rewrite E. simpl.
        apply Forall_app. split; [exact P0|]. constructor; [reflexivity|].
        constructor.
      * intros x w0 g w1 g' _ _ _ Hb P0.
        apply modify_promotePNIMember_Normal_inv in Hb
          as (p & ? & e & _ & _ & _ & E & _).
        unfold P. rewrite E. simpl.
        apply Forall_app. split; [exact P0|]. constructor; [reflexivity|].
        constructor.
Qed.

(** X23.  A bundle without a version, or of version 0, makes [modify]
    throw before anything else is looked at, whatever the instance
    holds. *)
Theorem modify_without_version aci pni actions now h :
  truthy_number (IActions.version actions) = false ->
  modify aci pni actions now h =
    (Throw (AssertionError "Actions should have a new version"), h).
Proof.
  intros Hv. unfold modify, modify_prepare, bind. rewrite Hv. reflexivity.
Qed.

End Invariants.

(** ** When the constructor returns *)

Section ConstructorAccepts.

Context {zk : ZkGroup}.

(** The checks of [unrollMember] on one member of the initial state. *)
Definition unrollMember_accepts (params : bytes) (m : IMember.t) : bool :=
  is_some (IMember.role m) && presentation_verifies params m.

(** The checks of the constructor on the initial state. *)
Definition constructor_accepts (state : IGroup.t) : bool :=
  match IGroup.publicKey state with
  | Some publicKey =>
      match IGroup.version state with
      | Some v => v =? 0
      | None => false
      end &&
      match IGroup.accessControl state with
      | Some accessControl => configured accessControl
      | None => false
      end &&
      match IGroup.members state with
      | Some (_ :: _) => true
      | _ => false
      end &&
      GroupPublicParams_check publicKey &&
      forallb (fun member => unrollMember_accepts publicKey (val member))
              (IGroup.members state ?? [])
  | None => false
  end.

Lemma unrollMember_run_accepts params m h :
  privPublicParams (this h) = Some params ->
  is_normal (fst (unrollMember m h)) = unrollMember_accepts params m.
Proof.
  intros Hp. unfold unrollMember, unrollMember_accepts, presentation_verifies.
  run_body;
    repeat match goal with H : _ = _ |- _ => rewrite H end; reflexivity.
Qed.

Lemma array_map_accepts {A B : Type} (f : A -> M B) (acc : A -> bool)
    (T : ServerGroup) (l : list A) :
  (forall y, frames (f y)) ->
  (forall x g, this g = T -> is_normal (fst (f x g)) = acc x) ->
  forall g, this g = T ->
    is_normal (fst (array_map f l g)) = forallb acc l.
Proof.
  intros Hfr Hacc. induction l as [|x l IH]; intros g Hg; [reflexivity|].
  simpl. unfold bind.
  pose proof (Hacc x g Hg) as Hx. pose proof (Hfr x g) as Hf.
  destruct (f x g) as [[y|e] g1]; simpl in *; rewrite <- Hx; [|reflexivity].
  assert (Hg1 : this g1 = T) by congruence.
  specialize (IH g1 Hg1).
  destruct (array_map f l g1) as [[ys|e] g2]; simpl in *; exact IH.
Qed.

(** X24.  The constructor makes an instance exactly when the initial state
    has a public key that the library accepts as public parameters,
    version 0, an access control with its three levels, and at least one
    member, each member with a role and a presentation that is well formed
    and verifies against the public key; it throws otherwise. *)
Theorem new_ServerGroup_returns state :
  is_normal (new_ServerGroup state) = constructor_accepts state.
Proof.
  unfold new_ServerGroup, constructor_accepts, constructor.
  destruct (IGroup.publicKey state) as [pk|]; [|reflexivity].
  simpl assert_present. rewrite (bind_Normal _ _ _ pk _ eq_refl).
  destruct (match IGroup.version state with
            | Some v => v =? 0
            | None => false
            end); [|reflexivity].
  simpl assert_ok. rewrite (bind_Normal _ _ _ tt _ eq_refl).
  destruct (IGroup.accessControl state) as [ac|]; [|reflexivity].
  simpl assert_present. rewrite (bind_Normal _ _ _ ac _ eq_refl).
  fold (configured ac). destruct (configured ac); [|reflexivity].
  simpl assert_ok. rewrite (bind_Normal _ _ _ tt _ eq_refl).
  destruct (match IGroup.members state with
            | Some (_ :: _) => true
            | _ => false
            end); [|reflexivity].
  simpl assert_ok. rewrite (bind_Normal _ _ _ tt _ eq_refl).
  unfold new_GroupPublicParams.
  destruct (GroupPublicParams_check pk); [|reflexivity].
  rewrite (bind_Normal _ _ _ pk _ eq_refl).
  unfold bind at 1, set_privPublicParams. cbv beta iota.
  cbn [andb next_addr this privChanges privPublicParams].
  match goal with
  | |- context [bind (array_map ?f ?l) ?k ?g] =>
      pose proof (array_map_accepts f
                    (fun member => unrollMember_accepts pk (val member))
                    (this g) l
                    (fun x => frames_unrollMember (val x))
                    (fun x g' Hg => unrollMember_run_accepts pk (val x) g'
                                      (eq_trans (f_equal privPublicParams Hg)
                                                eq_refl))
                    g eq_refl) as Hacc;
      unfold bind; destruct (array_map f l g) as [[ys|e] g1]
  end; simpl in Hacc; rewrite <- Hacc; reflexivity.
Qed.

End ConstructorAccepts.

(** ** Lookups, and the instance before construction *)

Section Lookups.

Context {zk : ZkGroup}.

(** X25.  On a reachable instance [getMember] returns without touching
    the instance.  What it returns is an active member of the committed
    snapshot whose identity is the one asked for, and it returns nothing
    only when no active member has that identity; a member without an
    identity is never returned. *)
Theorem getMember_lookup h uid :
  reachable h ->
  exists s found,
    snapshot (this h) = Normal s /\
    getMember uid h = (Normal found, h) /\
    match found with
    | Some m =>
        In m (IGroup.members s ?? []) /\ IMember.userId (val m) = Some uid
    | None =>
        forall m, In m (IGroup.members s ?? []) ->
                  IMember.userId (val m) <> Some uid
    end.
Proof.
  intros Hr.
  destruct (constructed_snapshot _ (reachable_constructed h Hr))
    as (_ & _ & s & _ & _ & _ & Hs).
  exists s, (find_member s uid). split; [exact Hs|].
  split; [rewrite getMember_run, Hs; reflexivity|].
  destruct (find_member s uid) as [m|] eqn:Hf.
  - now apply find_member_Some.
  - intros m. now apply find_member_None.
Qed.

(** X26.  Before the constructor has assigned the change log, every
    accessor that reads it throws the assertion error of the [changes]
    accessor, and so does [modify] for a bundle with a version. *)
Theorem group_not_initialized h :
  privChanges (this h) = None ->
  let e := AssertionError "Group not initialized" in
  changes h = (Throw e, h) /\
  state h = (Throw e, h) /\
  (forall since, getChangesSince since h = (Throw e, h)) /\
  (forall uid, getMember uid h = (Throw e, h)) /\
  (forall aci pni actions now,
     truthy_number (IActions.version actions) = true ->
     modify aci pni actions now h = (Throw e, h)).
Proof.
  intros Hc e.
  assert (H1 : changes h = (Throw e, h))
    by (unfold changes; rewrite Hc; reflexivity).
  assert (H2 : state h = (Throw e, h))
    by (unfold state, bind; rewrite H1; reflexivity).
  repeat split; try assumption.
  - intros since. unfold getChangesSince, bind. rewrite H1. reflexivity.
  - intros uid. unfold getMember, bind. rewrite H2. reflexivity.
  - intros aci pni actions now Hv.
    unfold modify, modify_prepare, bind. rewrite Hv. simpl assert_ok.
    unfold ret. rewrite H2. reflexivity.
Qed.

End Lookups.

(** * More runs on the sample group

    Carol is [x0c]; [xbb] is the secondary identity of Bob. *)
Definition carol : bytes := [ x0c ].
Definition bob_pni : bytes := [ xbb ].

(** The result of a call that returns. *)
Definition result_of (r : completion ModifyGroupResult * Heap)
    : ModifyGroupResult :=
  match fst r with
  | Normal result => result
  | Throw _ => conflict_result
  end.

Definition retitle (title : bytes) (version : Z) : IActions.t :=
  IActions.with_modifyTitle (Some (ModifyTitleAction.Build (Some title)))
                            (no_actions version).


Definition promote_pni (presentation : bytes)
    : PromoteMemberPendingPniAciProfileKeyAction.t :=
  PromoteMemberPendingPniAciProfileKeyAction.Build
    (Some presentation) None None None.

Definition join_pni (presentation : bytes) (version : Z) : IActions.t :=
  IActions.with_promoteMembersPendingPniAciProfileKey
    (Some [ promote_pni presentation ]) (no_actions version).

(** Alice invites Bob; Bob joins, or declines; Alice invites Carol after
    Bob; Alice leaves; Alice changes the title. *)
Definition run_invite : completion ModifyGroupResult * Heap :=
  modify alice alice (invite bob 1) 1000 admin_group.

Definition run_join : completion ModifyGroupResult * Heap :=
  modify bob bob (join bob_presentation 2) 2000 group_with_bob_pending.


Definition run_invite_carol : completion ModifyGroupResult * Heap :=
  modify alice alice (invite carol 2) 3000 group_with_bob_pending.

Definition run_leave : completion ModifyGroupResult * Heap :=
  modify alice alice (delete_member alice 1) 1000 admin_group.

Definition run_retitle : completion ModifyGroupResult * Heap :=
  modify alice alice (retitle [ x4e ] 1) 1000 admin_group.

(** Alice invites the secondary identity of Bob, and Bob joins under his
    primary one. *)
Definition group_with_pni_pending : Heap :=
  snd (modify alice alice (invite bob_pni 1) 1000 admin_group).

Definition run_join_pni : completion ModifyGroupResult * Heap :=
  modify bob bob_pni (join_pni bob_presentation 2) 2000
         group_with_pni_pending.

(** The group of Alice and Bob. *)
Definition group_with_bob : Heap := snd run_join.

(** The objects of the sample groups: Alice as the constructor leaves
    her, and the entry that her invitation of Bob leaves. *)
Definition alice_member : obj IMember.t :=
  Obj 1%nat (IMember.Build (Some Role.ADMINISTRATOR) (Some alice)
                           (Some [ xa0 ]) None).

Definition bob_entry : obj IMemberPendingProfileKey.t :=
  Obj 2%nat (IMemberPendingProfileKey.Build
               (Some (IMember.Build (Some Role.DEFAULT) (Some bob) None None))
               (Some alice) (Some 1000)).

Lemma reachable_admin_group : reachable admin_group.
Proof. apply reachable_sample_group. Qed.

Lemma reachable_group_with_bob : reachable group_with_bob.
Proof. apply reachable_modify, reachable_group_with_bob_pending. Qed.

Lemma run_invite_commits :
  run_invite = (Normal (result_of run_invite), snd run_invite) /\
  conflict (result_of run_invite) = false.
Proof. split; vm_compute; reflexivity. Qed.

Lemma run_join_commits :
  run_join = (Normal (result_of run_join), snd run_join) /\
  conflict (result_of run_join) = false.
Proof. split; vm_compute; reflexivity. Qed.


Lemma run_invite_carol_commits :
  run_invite_carol =
    (Normal (result_of run_invite_carol), snd run_invite_carol) /\
  conflict (result_of run_invite_carol) = false.
Proof. split; vm_compute; reflexivity. Qed.

Lemma run_leave_commits :
  run_leave = (Normal (result_of run_leave), snd run_leave) /\
  conflict (result_of run_leave) = false.
Proof. split; vm_compute; reflexivity. Qed.

Lemma run_retitle_commits :
  run_retitle = (Normal (result_of run_retitle), snd run_retitle) /\
  conflict (result_of run_retitle) = false.
Proof. split; vm_compute; reflexivity. Qed.

Lemma run_join_pni_commits :
  run_join_pni = (Normal (result_of run_join_pni), snd run_join_pni) /\
  conflict (result_of run_join_pni) = false.
Proof. split; vm_compute; reflexivity. Qed.

Lemma snapshot_admin_group :
  snapshot (this admin_group) = Normal (committed admin_group) /\
  privPublicParams (this admin_group) = Some [ x50 ].
Proof. split; reflexivity. Qed.

Lemma snapshot_group_with_bob_pending :
  snapshot (this group_with_bob_pending) =
    Normal (committed group_with_bob_pending) /\
  privPublicParams (this group_with_bob_pending) = Some [ x50 ].
Proof. split; reflexivity. Qed.

Lemma snapshot_group_with_pni_pending :
  snapshot (this group_with_pni_pending) =
    Normal (committed group_with_pni_pending) /\
  privPublicParams (this group_with_pni_pending) = Some [ x50 ].
Proof. split; reflexivity. Qed.

Lemma getChangesSince_suffix_witness :
  reachable group_with_bob_pending /\
  exists result,
    getChangesSince 1 group_with_bob_pending =
      (Normal (IGroupChanges.Build (Some result)), group_with_bob_pending) /\
    Z.of_nat (List.length result) = 1.
Proof.
  split; [exact reachable_group_with_bob_pending|].
  destruct (getChangesSince_suffix group_with_bob_pending 1
              reachable_group_with_bob_pending)
    as (result & H1 & _ & H2 & _).
  exists result. split; [exact H1|exact H2].
Defined.

Lemma getChangesSince_after_modify_witness :
  reachable group_with_bob_pending /\
  0 <= 1 <= Z.of_nat (List.length (change_log (this group_with_bob_pending))) /\
  exists before entry s',
    fst (getChangesSince 1 group_with_bob_pending) =
      Normal (IGroupChanges.Build (Some before)) /\
    fst (getChangesSince 1 group_with_bob) =
      Normal (IGroupChanges.Build (Some (before ++ [ entry ]))) /\
    IGroupChangeState.groupState entry = Some s' /\
    state group_with_bob = (Normal s', group_with_bob).
Proof.
  assert (H : 0 <= 1 <=
              Z.of_nat (List.length
                          (change_log (this group_with_bob_pending))))
    by (vm_compute; split; discriminate).
  split; [exact reachable_group_with_bob_pending|]. split; [exact H|].
  destruct (getChangesSince_after_modify group_with_bob_pending bob bob
              (join bob_presentation 2) 2000 1
              reachable_group_with_bob_pending H)
    as (before & Hb & Ha).
  fold run_join in Ha. rewrite (proj1 run_join_commits) in Ha.
  rewrite (proj2 run_join_commits) in Ha.
  destruct Ha as (entry & s' & H1 & H2 & H3).
  exists before, entry, s'. auto.
Defined.

Lemma modify_members_provenance_witness :
  exists s',
    snapshot (this group_with_bob) = Normal s' /\
    forall m,
      In m (IGroup.members s' ?? []) ->
      In m (IGroup.members (committed group_with_bob_pending) ?? []) \/
      exists a p,
        m = Obj a (IMember.Build (Some Role.DEFAULT) (Some bob)
                                 (Some (getProfileKeyCiphertext p)) None) /\
        getUuidCiphertext p = bob /\
        verified [ x50 ] (Some p) = true.
Proof.
  exact (modify_members_provenance bob bob (join bob_presentation 2) 2000
           group_with_bob_pending (committed group_with_bob_pending) [ x50 ]
           (result_of run_join) (snd run_join)
           (proj1 snapshot_group_with_bob_pending)
           (proj2 snapshot_group_with_bob_pending)
           (proj1 run_join_commits) (proj2 run_join_commits)).
Defined.

Lemma modify_pending_provenance_witness :
  exists s',
    snapshot (this group_with_bob_pending) = Normal s' /\
    forall e,
      In e (IGroup.membersPendingProfileKey s' ?? []) ->
      In e (IGroup.membersPendingProfileKey (committed admin_group) ?? []) \/
      exists x added member userId,
        In x (IActions.addPendingMembers (invite bob 1) ?? []) /\
        AddMemberPendingProfileKeyAction.added x = Some added /\
        IMemberPendingProfileKey.member added = Some member /\
        IMember.userId member = Some userId /\
        val e = IMemberPendingProfileKey.Build
                  (Some (IMember.Build (IMember.role member) (Some userId)
                                       None None))
                  (Some alice) (Some 1000).
Proof.
  exact (modify_pending_provenance alice alice (invite bob 1) 1000
           admin_group (committed admin_group) [ x50 ]
           (result_of run_invite) (snd run_invite)
           (proj1 snapshot_admin_group) (proj2 snapshot_admin_group)
           (proj1 run_invite_commits) (proj2 run_invite_commits)).
Defined.

Lemma modify_keeps_pending_of_others_witness :
  In bob_entry
     (IGroup.membersPendingProfileKey (committed group_with_bob_pending)
        ?? []) /\
  pending_userId (val bob_entry) <> Some alice /\
  exists s',
    snapshot (this (snd run_invite_carol)) = Normal s' /\
    In bob_entry (IGroup.membersPendingProfileKey s' ?? []).
Proof.
  assert (Hin : In bob_entry
                   (IGroup.membersPendingProfileKey
                      (committed group_with_bob_pending) ?? []))
    by (left; reflexivity).
  assert (Hne : pending_userId (val bob_entry) <> Some alice)
    by (vm_compute; discriminate).
  assert (Hid : addresses_identify
                  (IGroup.membersPendingProfileKey
                     (committed group_with_bob_pending) ?? [])).
  { intros a b Ha Hb _. vm_compute in Ha, Hb.
    destruct Ha as [<-|[]], Hb as [<-|[]]. reflexivity. }
  split; [exact Hin|]. split; [exact Hne|].
  exact (modify_keeps_pending_of_others alice alice (invite carol 2) 3000
           group_with_bob_pending (committed group_with_bob_pending) [ x50 ]
           (result_of run_invite_carol) (snd run_invite_carol) bob_entry
           (proj1 snapshot_group_with_bob_pending)
           (proj2 snapshot_group_with_bob_pending) Hid
           (proj1 run_invite_carol_commits) (proj2 run_invite_carol_commits)
           Hin Hne Hne).
Defined.

Lemma modify_deleteMembers_effect_witness :
  reachable admin_group /\
  exists s',
    snapshot (this (snd run_leave)) = Normal s' /\
    (forall x uid,
       In x (IActions.deleteMembers (delete_member alice 1) ?? []) ->
       DeleteMemberAction.deletedUserId x = Some uid ->
       exists found,
         find_member (committed admin_group) uid = Some found /\
         forall m, In m (IGroup.members s' ?? []) ->
                   same_object m found = false) /\
    (forall m,
       In m (IGroup.members (committed admin_group) ?? []) ->
       (forall x, In x (IActions.deleteMembers (delete_member alice 1)
                          ?? []) ->
                  DeleteMemberAction.deletedUserId x <>
                    IMember.userId (val m)) ->
       In m (IGroup.members s' ?? [])).
Proof.
  split; [exact reachable_admin_group|].
  exact (modify_deleteMembers_effect alice alice (delete_member alice 1) 1000
           admin_group (committed admin_group)
           (result_of run_leave) (snd run_leave)
           reachable_admin_group (proj1 snapshot_admin_group)
           (proj1 run_leave_commits) (proj2 run_leave_commits)).
Defined.

Lemma getMember_after_promotion_witness :
  IActions.promotePendingMembers (join bob_presentation 2) ?? [] <> [] /\
  exists m,
    getMember bob group_with_bob = (Normal (Some m), group_with_bob) /\
    IMember.userId (val m) = Some bob /\
    IMember.role (val m) = Some Role.DEFAULT.
Proof.
  assert (H : IActions.promotePendingMembers (join bob_presentation 2) ?? []
              <> []) by discriminate.
  split; [exact H|].
  exact (getMember_after_promotion bob bob (join bob_presentation 2) 2000
           group_with_bob_pending (committed group_with_bob_pending) [ x50 ]
           (result_of run_join) (snd run_join)
           (proj1 snapshot_group_with_bob_pending)
           (proj2 snapshot_group_with_bob_pending)
           (proj1 run_join_commits) (proj2 run_join_commits)
           (or_introl H)).
Defined.

Lemma getMember_after_delete_witness :
  In (DeleteMemberAction.Build (Some alice))
     (IActions.deleteMembers (delete_member alice 1) ?? []) /\
  getMember alice (snd run_leave) = (Normal None, snd run_leave).
Proof.
  assert (Hin : In (DeleteMemberAction.Build (Some alice))
                   (IActions.deleteMembers (delete_member alice 1) ?? []))
    by (left; reflexivity).
  assert (Hone : forall m1 m2,
            In m1 (IGroup.members (committed admin_group) ?? []) ->
            In m2 (IGroup.members (committed admin_group) ?? []) ->
            IMember.userId (val m1) = Some alice ->
            IMember.userId (val m2) = Some alice -> m1 = m2).
  { intros m1 m2 H1 H2 _ _. vm_compute in H1, H2.
    destruct H1 as [<-|[]], H2 as [<-|[]]. reflexivity. }
  split; [exact Hin|].
  exact (getMember_after_delete alice alice (delete_member alice 1) 1000
           admin_group (committed admin_group) [ x50 ]
           (result_of run_leave) (snd run_leave)
           (DeleteMemberAction.Build (Some alice)) alice
           (proj1 snapshot_admin_group) (proj2 snapshot_admin_group) Hone
           (proj1 run_leave_commits) (proj2 run_leave_commits)
           Hin eq_refl).
Defined.

Lemma modify_addPendingMembers_effect_witness :
  In (pending_of bob) (IActions.addPendingMembers (invite bob 1) ?? []) /\
  exists s' e,
    snapshot (this group_with_bob_pending) = Normal s' /\
    In e (IGroup.membersPendingProfileKey s' ?? []) /\
    stamped alice 1000 (pending_of bob) (val e).
Proof.
  assert (Hin : In (pending_of bob)
                   (IActions.addPendingMembers (invite bob 1) ?? []))
    by (left; reflexivity).
  split; [exact Hin|].
  exact (modify_addPendingMembers_effect alice alice (invite bob 1) 1000
           admin_group (committed admin_group)
           (result_of run_invite) (snd run_invite) (pending_of bob)
           reachable_admin_group (proj1 snapshot_admin_group)
           (proj1 run_invite_commits) (proj2 run_invite_commits) Hin).
Defined.

Lemma modify_by_outsider_witness :
  find_member (committed admin_group) bob = None /\
  members_level (IGroup.accessControl (committed admin_group)) <>
    AccessRequired.ANY /\
  throws (modify bob bob (invite carol 1) 1000) admin_group.
Proof.
  assert (H1 : find_member (committed admin_group) bob = None)
    by reflexivity.
  assert (H2 : members_level (IGroup.accessControl (committed admin_group))
               <> AccessRequired.ANY) by discriminate.
  split; [exact H1|]. split; [exact H2|].
  apply (proj2 (proj2 (modify_by_outsider bob bob (invite carol 1) 1000
                         admin_group (committed admin_group)
                         (proj1 snapshot_admin_group) H1))).
  - discriminate.
  - exact H2.
Defined.

Lemma modify_by_non_administrator_witness :
  is_administrator (find_member (committed group_with_bob) bob) = false /\
  members_level (IGroup.accessControl (committed group_with_bob)) =
    AccessRequired.ADMINISTRATOR /\
  throws (modify bob bob (invite carol 3) 4000) group_with_bob.
Proof.
  assert (H0 : snapshot (this group_with_bob) =
               Normal (committed group_with_bob)) by reflexivity.
  assert (H1 : is_administrator (find_member (committed group_with_bob) bob)
               = false) by reflexivity.
  assert (H2 : members_level (IGroup.accessControl (committed group_with_bob))
               = AccessRequired.ADMINISTRATOR) by reflexivity.
  split; [exact H1|]. split; [exact H2|].
  apply (proj2 (proj2 (modify_by_non_administrator bob bob (invite carol 3)
                         4000 group_with_bob (committed group_with_bob)
                         H0 H1))).
  - discriminate.
  - exact H2.
Defined.

Lemma verifyAccess_administrator_witness :
  verifyAccess "members"
    (Some (Obj 7%nat (IMember.Build (Some Role.ADMINISTRATOR) (Some bob)
                                    None None)))
    AccessRequired.MEMBER (Some alice) admin_group =
  (Normal tt, admin_group).
Proof.
  apply (verifyAccess_administrator "members"
           (Obj 6%nat (IMember.Build (Some Role.DEFAULT) (Some bob)
                                     None None))
           (Obj 7%nat (IMember.Build (Some Role.ADMINISTRATOR) (Some bob)
                                     None None))
           AccessRequired.MEMBER (Some alice) admin_group);
    reflexivity.
Defined.


Lemma promote_pni_member_witness :
  In (promote_pni bob_presentation)
     (IActions.promoteMembersPendingPniAciProfileKey
        (join_pni bob_presentation 2) ?? []) /\
  exists p entry s',
    PromoteMemberPendingPniAciProfileKeyAction.presentation
      (promote_pni bob_presentation) = Some p /\
    getUuidCiphertext p = bob /\
    find_pending (committed group_with_pni_pending) bob_pni = Some entry /\
    snapshot (this (snd run_join_pni)) = Normal s' /\
    not_pending_in entry s' /\
    promoted_in p s'.
Proof.
  assert (Hin : In (promote_pni bob_presentation)
                   (IActions.promoteMembersPendingPniAciProfileKey
                      (join_pni bob_presentation 2) ?? []))
    by (left; reflexivity).
  split; [exact Hin|].
  exact (proj2 (proj2 (proj2 (proj2
           (promote_pni_member bob bob_pni (join_pni bob_presentation 2) 2000
              group_with_pni_pending (committed group_with_pni_pending)
              [ x50 ] (promote_pni bob_presentation)
              (proj1 snapshot_group_with_pni_pending)
              (proj2 snapshot_group_with_pni_pending) Hin))))
           (result_of run_join_pni) (snd run_join_pni)
           (proj1 run_join_pni_commits) (proj2 run_join_pni_commits)).
Defined.

Lemma promote_pending_member_of_another_witness :
  getUuidCiphertext bob_presentation <> alice /\
  throws (modify alice alice (join bob_presentation 2) 2000)
         group_with_bob_pending.
Proof.
  assert (Hne : getUuidCiphertext bob_presentation <> alice)
    by (vm_compute; discriminate).
  split; [exact Hne|].
  apply (promote_pending_member_of_another alice alice
           (join bob_presentation 2) 2000 group_with_bob_pending
           (committed group_with_bob_pending) [ x50 ]
           (promote bob_presentation) bob_presentation
           (proj1 snapshot_group_with_bob_pending)
           (proj2 snapshot_group_with_bob_pending)).
  - left; reflexivity.
  - reflexivity.
  - exact Hne.
Defined.

Lemma modify_signed_change_witness :
  exists encoded epoch entry,
    signedChange (result_of run_join_pni) =
      Some (IGroupChange.Build (Some encoded) (Some (sign encoded))
                               (Some epoch)) /\
    epoch =
      match IActions.promoteMembersPendingPniAciProfileKey
              (join_pni bob_presentation 2) ?? [] with
      | [] => 1
      | _ :: _ => 5
      end /\
    change_log (this (snd run_join_pni)) =
      change_log (this group_with_pni_pending) ++ [ entry ] /\
    IGroupChangeState.groupChange entry =
      Some (IGroupChange.Build (Some encoded) None (Some epoch)).
Proof.
  exact (modify_signed_change bob bob_pni (join_pni bob_presentation 2) 2000
           group_with_pni_pending (result_of run_join_pni) (snd run_join_pni)
           (proj1 run_join_pni_commits) (proj2 run_join_pni_commits)).
Defined.

Lemma modify_applied_actions_witness :
  optional_chain (signedChange (result_of run_join_pni)) IGroupChange.actions =
    Some (Actions_encode
            (applied_of bob bob_pni 2000 (join_pni bob_presentation 2))).
Proof.
  exact (modify_applied_actions bob bob_pni (join_pni bob_presentation 2) 2000
           group_with_pni_pending (result_of run_join_pni) (snd run_join_pni)
           (proj1 run_join_pni_commits) (proj2 run_join_pni_commits)).
Defined.

Lemma modify_same_version_again_witness :
  this (snd (modify bob bob (join bob_presentation 1) 2000
                    group_with_bob_pending)) =
    this group_with_bob_pending /\
  (fst (modify bob bob (join bob_presentation 1) 2000
               group_with_bob_pending) = Normal conflict_result \/
   throws (modify bob bob (join bob_presentation 1) 2000)
          group_with_bob_pending).
Proof.
  exact (modify_same_version_again alice alice (invite bob 1) 1000
           admin_group (result_of run_invite) (snd run_invite)
           bob bob (join bob_presentation 1) 2000
           (proj1 run_invite_commits) (proj2 run_invite_commits) eq_refl).
Defined.

Lemma modify_returns_witness :
  IGroup.version (committed group_with_bob_pending) = Some 1 /\
  modify_accepts (committed group_with_bob_pending) [ x50 ] bob bob
                 (join bob_presentation 2) = true /\
  exists result h',
    modify bob bob (join bob_presentation 2) 2000 group_with_bob_pending =
      (Normal result, h') /\
    conflict result = negb (next_version (join bob_presentation 2) 1).
Proof.
  assert (Hv : IGroup.version (committed group_with_bob_pending) = Some 1)
    by reflexivity.
  assert (Hacc : modify_accepts (committed group_with_bob_pending) [ x50 ]
                   bob bob (join bob_presentation 2) = true)
    by (vm_compute; reflexivity).
  split; [exact Hv|]. split; [exact Hacc|].
  pose proof (modify_returns bob bob (join bob_presentation 2) 2000
                group_with_bob_pending (committed group_with_bob_pending)
                [ x50 ] 1 (proj1 snapshot_group_with_bob_pending)
                (proj2 snapshot_group_with_bob_pending) Hv) as H.
  rewrite Hacc in H. exact H.
Defined.

Lemma modify_group_attributes_witness :
  exists s',
    snapshot (this (snd run_retitle)) = Normal s' /\
    IGroup.version s' = IActions.version (retitle [ x4e ] 1) /\
    IGroup.title s' =
      match IActions.modifyTitle (retitle [ x4e ] 1) with
      | Some t => ModifyTitleAction.title t
      | None => IGroup.title (committed admin_group)
      end /\
    IGroup.publicKey s' = IGroup.publicKey (committed admin_group) /\
    IGroup.accessControl s' = IGroup.accessControl (committed admin_group).
Proof.
  exact (modify_group_attributes alice alice (retitle [ x4e ] 1) 1000
           admin_group (committed admin_group)
           (result_of run_retitle) (snd run_retitle)
           (proj1 run_retitle_commits) (proj2 run_retitle_commits)
           (proj1 snapshot_admin_group)).
Defined.

Lemma reachable_configured_witness :
  exists s publicKey accessControl v,
    snapshot (this group_with_bob) = Normal s /\
    IGroup.publicKey s = Some publicKey /\
    privPublicParams (this group_with_bob) = Some publicKey /\
    IGroup.accessControl s = Some accessControl /\
    configured accessControl = true /\
    IGroup.version s = Some v /\ 0 <= v.
Proof.
  exact (reachable_configured group_with_bob reachable_group_with_bob).
Defined.

Lemma reachable_members_unrolled_witness :
  In alice_member (IGroup.members (committed group_with_bob) ?? []) /\
  unrolled (val alice_member) = true.
Proof.
  assert (Hin : In alice_member
                   (IGroup.members (committed group_with_bob) ?? []))
    by (left; reflexivity).
  split; [exact Hin|].
  exact (reachable_members_unrolled group_with_bob (committed group_with_bob)
           alice_member reachable_group_with_bob eq_refl Hin).
Defined.

Lemma modify_without_version_witness :
  modify alice alice (no_actions 0) 1000 admin_group =
    (Throw (AssertionError "Actions should have a new version"), admin_group).
Proof.
  exact (modify_without_version alice alice (no_actions 0) 1000 admin_group
           eq_refl).
Defined.

Lemma getMember_lookup_witness :
  exists s found,
    snapshot (this group_with_bob) = Normal s /\
    getMember bob group_with_bob = (Normal found, group_with_bob) /\
    match found with
    | Some m =>
        In m (IGroup.members s ?? []) /\ IMember.userId (val m) = Some bob
    | None =>
        forall m, In m (IGroup.members s ?? []) ->
                  IMember.userId (val m) <> Some bob
    end.
Proof.
  exact (getMember_lookup group_with_bob bob reachable_group_with_bob).
Defined.

(** The instance before its constructor has run. *)
Definition no_group : Heap :=
  {| next_addr := 0;
     this := {| privChanges := None; privPublicParams := None |} |}.

Lemma group_not_initialized_witness :
  state no_group = (Throw (AssertionError "Group not initialized"), no_group).
Proof.
  exact (proj1 (proj2 (group_not_initialized no_group eq_refl))).
Defined.
